(** * Traffic_Control: detection -> track -> count pipeline

    A shallow embedding of
      - [ONNXVehicleTracker] and the counting part of
        [ONNXTrafficDetector.process_frame]   (core/detectors/traffic_detector.py),
      - [ONNXYOLODetector.postprocess], [non_max_suppression] and [bbox_iou]
                                              (core/detectors/onnx_detector.py),
      - [ONNXTrafficDetector._is_enhanced_stable_detection],
      - the vehicle filter and the arithmetic of the ambulance filters:
        [_filter_vehicle_detections], [_calculate_iou],
        [_calculate_overlap_ratio], [_simple_nms_fallback],
        [_check_vehicle_overlap], [_is_valid_small_ambulance],
        [_get_adaptive_confidence_threshold],
        [_filter_by_stability_and_confidence],
        [_calculate_temporal_consistency_score]
                                              (core/detectors/traffic_detector.py),
      - the scale and padding computed by [ONNXYOLODetector.preprocess].

    Conventions of the model.
      - Python floats are exact rationals ([Q]); rounding is not modelled.
        A float division whose divisor may be zero is modelled with the
        special values it produces ([fval]).
      - A Python [dict] is an association list in insertion order
        ([PyDict]), a Python [set] of ints is a [gset nat].
      - A statement that can raise [KeyError]/[IndexError] lives in the
        [option] monad: [None] is the raised exception. *)

From Stdlib Require Import ZArith QArith Qminmax Qabs Lia Lqa String Sorting.Sorted Permutation.
From stdpp Require Import base option list gmap sets pretty.

Local Open Scope Q_scope.
#[local] Set Warnings "-clear-no-such-hyp".

(** ** Insertion-ordered dictionaries *)

Module PyDict.
Section dict.
Context {V : Type}.

Definition t := list (nat * V).

Definition empty : t := [].

(** [d[k]] *)
Fixpoint get (k : nat) (d : t) : option V :=
  match d with
  | [] => None
  | (k', v) :: r => if Nat.eqb k k' then Some v else get k r
  end.

(** [k in d] *)
Definition mem (k : nat) (d : t) : bool :=
  match get k d with Some _ => true | None => false end.

(** [d[k] = v]: an existing key keeps its position, a new key goes last. *)
Fixpoint set (k : nat) (v : V) (d : t) : t :=
  match d with
  | [] => [(k, v)]
  | (k', v') :: r => if Nat.eqb k k' then (k, v) :: r else (k', v') :: set k v r
  end.

(** [del d[k]] (guarded by [k in d] at every call site). *)
Fixpoint del (k : nat) (d : t) : t :=
  match d with
  | [] => []
  | (k', v) :: r => if Nat.eqb k k' then del k r else (k', v) :: del k r
  end.

(** [list(d.keys())] *)
Definition keys (d : t) : list nat := map fst d.

(** [len(d)] *)
Definition len (d : t) : nat := length d.
End dict.
Arguments t : clear implicits.
End PyDict.

(** ** Geometry *)

Definition Point : Type := Q * Q.

Record BBox := mkBBox { bx1 : Q; by1 : Q; bx2 : Q; by2 : Q }.

(** [_get_center] *)
Definition _get_center (b : BBox) : Point :=
  ((bx1 b + bx2 b) / 2, (by1 b + by2 b) / 2).

(** Python's [int(x)] on a float: truncation toward zero. *)
Definition py_int (q : Q) : Z := Z.quot (Qnum q) (Zpos (Qden q)).

Definition Qltb (a b : Q) : bool := negb (Qle_bool b a).

(** The square of [np.linalg.norm(np.array(a) - np.array(b))].  The
    Euclidean norm itself is irrational in general; the tracker only
    compares norms with each other and with [max_distance], and on
    non-negative numbers comparing squares is the same comparison. *)
Definition dist2 (a b : Point) : Q :=
  (fst a - fst b) * (fst a - fst b) + (snd a - snd b) * (snd a - snd b).

(** [dist < min_dist], where [min_dist] starts as [float('inf')] ([None])
    and afterwards holds a distance, kept as its square. *)
Definition dist_lt_min (d2 : Q) (min_d2 : option Q) : bool :=
  match min_d2 with
  | None => true
  | Some m2 => Qltb d2 m2
  end.

(** [dist < self.max_distance] with [dist = sqrt d2 >= 0]. *)
Definition dist_lt (d2 : Q) (max_distance : Q) : bool :=
  Qltb 0 max_distance && Qltb d2 (max_distance * max_distance).

(** [deque(maxlen=m).append(x)]: the oldest entries fall off the left. *)
Definition deque_append {A} (m : nat) (dq : list A) (x : A) : list A :=
  let l := dq ++ [x] in drop (length l - m) l.

(** ** Tracker state *)

Record Detection := mkDetection {
  det_bbox : BBox;
  det_confidence : Q;
  det_class_name : option string   (* [det.get('class_name', 'vehicle')] *)
}.

Record TrackedObject := mkTrackedObject {
  obj_bbox : BBox;
  obj_class : string;
  obj_confidence : Q;
  obj_history : list BBox
}.

Definition Color : Type := Z * Z * Z.

Definition color_palette : list Color :=
  [ (255, 0, 0); (0, 255, 0); (0, 0, 255); (255, 255, 0);
    (255, 0, 255); (0, 255, 255); (128, 0, 128); (255, 165, 0);
    (0, 128, 255); (255, 20, 147); (34, 139, 34); (255, 140, 0) ]%Z.

(** The attributes of [ONNXVehicleTracker]; [history_length],
    [counted_vehicles], [total_count] and [line_y], which no method reads,
    are left out. *)
Record ONNXVehicleTracker := mkTracker {
  next_id : nat;
  objects : PyDict.t TrackedObject;
  disappeared : PyDict.t Z;
  max_disappeared : Z;
  max_distance : Q;
  smoothing_factor : Q;
  trajectory_points : PyDict.t (list Point);
  max_trajectory_length : nat;
  crossed_ids : gset nat;
  counted_ids : gset nat;
  zone_entry_positions : PyDict.t Q;
  min_movement_to_count : Q;
  track_colors : PyDict.t Color
}.

(** [ONNXVehicleTracker.__init__] *)
Definition tracker_init (max_disappeared : Z) (max_distance : Q) : ONNXVehicleTracker :=
  {| next_id := 0;
     objects := PyDict.empty;
     disappeared := PyDict.empty;
     max_disappeared := max_disappeared;
     max_distance := max_distance;
     smoothing_factor := 65 # 100;
     trajectory_points := PyDict.empty;
     max_trajectory_length := 20;
     crossed_ids := ∅;
     counted_ids := ∅;
     zone_entry_positions := PyDict.empty;
     min_movement_to_count := 50;
     track_colors := PyDict.empty |}.

(** The tracker built by [ONNXTrafficDetector.__init__]. *)
Definition tracker_default : ONNXVehicleTracker := tracker_init 30 100.

Section setters.
Variable t : ONNXVehicleTracker.

Definition set_next_id (n : nat) : ONNXVehicleTracker :=
  mkTracker n (objects t) (disappeared t) (max_disappeared t) (max_distance t)
    (smoothing_factor t) (trajectory_points t) (max_trajectory_length t)
    (crossed_ids t) (counted_ids t) (zone_entry_positions t)
    (min_movement_to_count t) (track_colors t).

Definition set_objects (o : PyDict.t TrackedObject) : ONNXVehicleTracker :=
  mkTracker (next_id t) o (disappeared t) (max_disappeared t) (max_distance t)
    (smoothing_factor t) (trajectory_points t) (max_trajectory_length t)
    (crossed_ids t) (counted_ids t) (zone_entry_positions t)
    (min_movement_to_count t) (track_colors t).

Definition set_disappeared (d : PyDict.t Z) : ONNXVehicleTracker :=
  mkTracker (next_id t) (objects t) d (max_disappeared t) (max_distance t)
    (smoothing_factor t) (trajectory_points t) (max_trajectory_length t)
    (crossed_ids t) (counted_ids t) (zone_entry_positions t)
    (min_movement_to_count t) (track_colors t).

Definition set_trajectory_points (p : PyDict.t (list Point)) : ONNXVehicleTracker :=
  mkTracker (next_id t) (objects t) (disappeared t) (max_disappeared t) (max_distance t)
    (smoothing_factor t) p (max_trajectory_length t)
    (crossed_ids t) (counted_ids t) (zone_entry_positions t)
    (min_movement_to_count t) (track_colors t).

Definition set_crossed_ids (s : gset nat) : ONNXVehicleTracker :=
  mkTracker (next_id t) (objects t) (disappeared t) (max_disappeared t) (max_distance t)
    (smoothing_factor t) (trajectory_points t) (max_trajectory_length t)
    s (counted_ids t) (zone_entry_positions t)
    (min_movement_to_count t) (track_colors t).

Definition set_counted_ids (s : gset nat) : ONNXVehicleTracker :=
  mkTracker (next_id t) (objects t) (disappeared t) (max_disappeared t) (max_distance t)
    (smoothing_factor t) (trajectory_points t) (max_trajectory_length t)
    (crossed_ids t) s (zone_entry_positions t)
    (min_movement_to_count t) (track_colors t).

Definition set_zone_entry_positions (z : PyDict.t Q) : ONNXVehicleTracker :=
  mkTracker (next_id t) (objects t) (disappeared t) (max_disappeared t) (max_distance t)
    (smoothing_factor t) (trajectory_points t) (max_trajectory_length t)
    (crossed_ids t) (counted_ids t) z
    (min_movement_to_count t) (track_colors t).

Definition set_track_colors (c : PyDict.t Color) : ONNXVehicleTracker :=
  mkTracker (next_id t) (objects t) (disappeared t) (max_disappeared t) (max_distance t)
    (smoothing_factor t) (trajectory_points t) (max_trajectory_length t)
    (crossed_ids t) (counted_ids t) (zone_entry_positions t)
    (min_movement_to_count t) c.
End setters.

(** ** Tracker operations *)

(** [_smooth_bbox]: every coordinate goes through [int(...)]. *)
Definition smooth_coord (alpha old new : Q) : Q :=
  inject_Z (py_int (old * (1 - alpha) + new * alpha)).

Definition _smooth_bbox (t : ONNXVehicleTracker) (old_bbox new_bbox : BBox) : BBox :=
  let a := smoothing_factor t in
  {| bx1 := smooth_coord a (bx1 old_bbox) (bx1 new_bbox);
     by1 := smooth_coord a (by1 old_bbox) (by1 new_bbox);
     bx2 := smooth_coord a (bx2 old_bbox) (bx2 new_bbox);
     by2 := smooth_coord a (by2 old_bbox) (by2 new_bbox) |}.

(** [_update_trajectory]: a missing deque is created first, then the
    center is appended. *)
Definition _update_trajectory (object_id : nat) (bbox : BBox)
    (t : ONNXVehicleTracker) : ONNXVehicleTracker :=
  let dq := match PyDict.get object_id (trajectory_points t) with
            | Some dq => dq
            | None => []
            end in
  set_trajectory_points t
    (PyDict.set object_id
       (deque_append (max_trajectory_length t) dq (_get_center bbox))
       (trajectory_points t)).

Definition class_of (det : Detection) : string :=
  match det_class_name det with Some c => c | None => "vehicle"%string end.

(** [_register]: returns the id it assigned. *)
Definition _register (detection : Detection) (t : ONNXVehicleTracker)
    : nat * ONNXVehicleTracker :=
  let object_id := next_id t in
  let t := set_next_id t (S object_id) in
  let t := set_objects t
             (PyDict.set object_id
                {| obj_bbox := det_bbox detection;
                   obj_class := class_of detection;
                   obj_confidence := det_confidence detection;
                   obj_history := [det_bbox detection] |}
                (objects t)) in
  let t := set_disappeared t (PyDict.set object_id 0%Z (disappeared t)) in
  let t := set_trajectory_points t (PyDict.set object_id [] (trajectory_points t)) in
  let t := _update_trajectory object_id (det_bbox detection) t in
  let t := if PyDict.mem object_id (track_colors t) then t
           else set_track_colors t
                  (PyDict.set object_id
                     (nth (object_id mod length color_palette) color_palette (0, 0, 0)%Z)
                     (track_colors t)) in
  (object_id, t).

(** [_deregister] *)
Definition _deregister (object_id : nat) (t : ONNXVehicleTracker) : ONNXVehicleTracker :=
  let t := set_objects t (PyDict.del object_id (objects t)) in
  let t := set_disappeared t (PyDict.del object_id (disappeared t)) in
  set_trajectory_points t (PyDict.del object_id (trajectory_points t)).

(** A [for] loop whose body may raise. *)
Fixpoint for_each {A S} (body : A -> S -> option S) (l : list A) (s : S) : option S :=
  match l with
  | [] => Some s
  | a :: r => match body a s with
              | Some s' => for_each body r s'
              | None => None
              end
  end.

(** [self.disappeared[id] += 1], then deregistration past [max_disappeared]. *)
Definition mark_disappeared (object_id : nat) (t : ONNXVehicleTracker)
    : option ONNXVehicleTracker :=
  match PyDict.get object_id (disappeared t) with
  | None => None   (* KeyError *)
  | Some d =>
      let t := set_disappeared t (PyDict.set object_id (d + 1)%Z (disappeared t)) in
      Some (if (max_disappeared t <? d + 1)%Z then _deregister object_id t else t)
  end.

(** The inner loop of [update]: the nearest unmatched detection within
    [max_distance]; [None] is the sentinel [best_match = -1]. *)
Definition best_match_step (obj_center : Point) (max_distance : Q)
    (matched_detections : gset nat)
    (acc : option Q * option nat) (j : nat) (det_center : Point)
    : option Q * option nat :=
  if bool_decide (j ∈ matched_detections) then acc
  else
    let d2 := dist2 obj_center det_center in
    if dist_lt_min d2 (fst acc) && dist_lt d2 max_distance
    then (Some d2, Some j)
    else acc.

Fixpoint best_match_from (obj_center : Point) (max_distance : Q)
    (matched_detections : gset nat) (j : nat) (detection_centers : list Point)
    (acc : option Q * option nat) : option Q * option nat :=
  match detection_centers with
  | [] => acc
  | c :: cs =>
      best_match_from obj_center max_distance matched_detections (S j) cs
        (best_match_step obj_center max_distance matched_detections acc j c)
  end.

Definition find_best_match (obj_center : Point) (max_distance : Q)
    (matched_detections : gset nat) (detection_centers : list Point) : option nat :=
  snd (best_match_from obj_center max_distance matched_detections 0
         detection_centers (None, None)).

(** State of the matching loop: the tracker, [matched_detections] and
    [matched_objects]. *)
Definition MatchState : Type := ONNXVehicleTracker * gset nat * gset nat.

(** One iteration of [for i, obj_id in enumerate(object_ids)]. *)
Definition match_object (detections : list Detection) (detection_centers : list Point)
    (entry : nat * Point) (st : MatchState) : option MatchState :=
  let '(t, matched_detections, matched_objects) := st in
  let '(obj_id, obj_center) := entry in
  if bool_decide (obj_id ∈ matched_objects) then Some st
  else
    match find_best_match obj_center (max_distance t) matched_detections detection_centers with
    | None => Some st
    | Some best_match =>
        match detections !! best_match, PyDict.get obj_id (objects t) with
        | Some det, Some o =>
            let smoothed_bbox := _smooth_bbox t (obj_bbox o) (det_bbox det) in
            let t := set_objects t
                       (PyDict.set obj_id
                          {| obj_bbox := smoothed_bbox;
                             obj_class := class_of det;
                             obj_confidence := det_confidence det;
                             obj_history := obj_history o |}
                          (objects t)) in
            let t := set_disappeared t (PyDict.set obj_id 0%Z (disappeared t)) in
            let t := _update_trajectory obj_id smoothed_bbox t in
            Some (t, {[best_match]} ∪ matched_detections, {[obj_id]} ∪ matched_objects)
        | _, _ => None   (* IndexError / KeyError *)
        end
    end.

(** [object_ids] zipped with [object_centers], both read off [self.objects]
    before the loop starts. *)
Definition object_entries (t : ONNXVehicleTracker) : list (nat * Point) :=
  map (fun kv => (fst kv, _get_center (obj_bbox (snd kv)))) (objects t).

Definition match_phase (entries : list (nat * Point)) (detections : list Detection)
    (t : ONNXVehicleTracker) : option MatchState :=
  for_each (match_object detections (map (fun d => _get_center (det_bbox d)) detections))
    entries (t, ∅, ∅).

(** [for i, det in enumerate(detections): if i not in matched: _register(det)],
    collecting the ids that [_register] returns. *)
Fixpoint register_unmatched (matched_detections : gset nat) (i : nat)
    (detections : list Detection) (t : ONNXVehicleTracker)
    : list nat * ONNXVehicleTracker :=
  match detections with
  | [] => ([], t)
  | det :: r =>
      if bool_decide (i ∈ matched_detections)
      then register_unmatched matched_detections (S i) r t
      else
        let '(object_id, t1) := _register det t in
        let '(ids, t2) := register_unmatched matched_detections (S i) r t1 in
        (object_id :: ids, t2)
  end.

(** [for obj_id in list(self.objects.keys()): if obj_id not in matched_objects: ...] *)
Definition handle_disappeared (matched_objects : gset nat) (t : ONNXVehicleTracker)
    : option ONNXVehicleTracker :=
  for_each (fun obj_id t =>
              if bool_decide (obj_id ∈ matched_objects) then Some t
              else mark_disappeared obj_id t)
    (PyDict.keys (objects t)) t.

(** [update], parametrised by the order in which the matching loop visits
    the tracks; it also reports the ids registered during the call. *)
Definition update_with (entries_of : ONNXVehicleTracker -> list (nat * Point))
    (detections : list Detection) (t : ONNXVehicleTracker)
    : option (list nat * ONNXVehicleTracker) :=
  match detections with
  | [] =>
      t' ← for_each mark_disappeared (PyDict.keys (disappeared t)) t;
      Some ([], t')
  | _ :: _ =>
      if Nat.eqb (PyDict.len (objects t)) 0
      then Some (register_unmatched ∅ 0 detections t)
      else
        '(t1, matched_detections, matched_objects) ←
           match_phase (entries_of t) detections t;
        let '(ids, t2) := register_unmatched matched_detections 0 detections t1 in
        t3 ← handle_disappeared matched_objects t2;
        Some (ids, t3)
  end.

(** [ONNXVehicleTracker.update]: tracks are visited in the order of
    [list(self.objects.keys())]. *)
Definition update_registering := update_with object_entries.

Definition update (detections : list Detection) (t : ONNXVehicleTracker)
    : option ONNXVehicleTracker :=
  snd <$> update_registering detections t.

(** ** Counting *)

(** [check_zone_counting]: the answer and the tracker after the call. *)
Definition check_zone_counting (object_id : nat) (t : ONNXVehicleTracker)
    : bool * ONNXVehicleTracker :=
  if bool_decide (object_id ∈ counted_ids t) then (false, t)
  else
    match PyDict.get object_id (trajectory_points t) with
    | None => (false, t)
    | Some points =>
        if (length points <? 5)%nat then (false, t)
        else
          (* at least five points from here on: [points[0]] and [points[-1]] exist *)
          let t := if PyDict.mem object_id (zone_entry_positions t) then t
                   else set_zone_entry_positions t
                          (PyDict.set object_id (snd (hd (0, 0) points))
                             (zone_entry_positions t)) in
          match PyDict.get object_id (zone_entry_positions t) with
          | None => (false, t)
          | Some entry_y =>
              let current_y := snd (List.last points (0, 0)) in
              let movement := current_y - entry_y in
              if Qle_bool (min_movement_to_count t) movement
              then (true, set_counted_ids t ({[object_id]} ∪ counted_ids t))
              else (false, t)
          end
    end.

(** [check_line_crossing] *)
Definition check_line_crossing (object_id : nat) (line_y : Z) (t : ONNXVehicleTracker)
    : bool * ONNXVehicleTracker :=
  if bool_decide (object_id ∈ crossed_ids t) then (false, t)
  else
    match PyDict.get object_id (trajectory_points t) with
    | None => (false, t)
    | Some points =>
        if (length points <? 2)%nat then (false, t)
        else
          let y_prev := snd (nth (length points - 2) points (0, 0)) in
          let y_curr := snd (List.last points (0, 0)) in
          let ly := inject_Z line_y in
          if (Qltb ly y_prev && Qle_bool y_curr ly) || (Qle_bool y_prev ly && Qltb ly y_curr)
          then (true, set_crossed_ids t ({[object_id]} ∪ crossed_ids t))
          else (false, t)
    end.

(** [l[-n:]] for [n >= 0] (note [l[-0:]] is the whole list). *)
Definition py_suffix {A} (n : nat) (l : list A) : list A :=
  if Nat.eqb n 0 then l else drop (length l - n) l.

Fixpoint y_diffs (pts : list Point) : list Q :=
  match pts with
  | p :: ((p' :: _) as r) => (snd p' - snd p) :: y_diffs r
  | _ => []
  end.

Definition Qsum (l : list Q) : Q := fold_left Qplus l 0.

(** [is_moving_towards_camera] *)
Definition is_moving_towards_camera (object_id : nat) (min_frames : nat)
    (t : ONNXVehicleTracker) : bool :=
  match PyDict.get object_id (trajectory_points t) with
  | None => false
  | Some points =>
      if (length points <? min_frames)%nat then false
      else
        let recent_points := py_suffix min_frames points in
        let y_movements := y_diffs recent_points in
        match y_movements with
        | [] => false
        | _ :: _ =>
            let avg_movement := Qsum y_movements / inject_Z (Z.of_nat (length y_movements)) in
            Qltb (5 # 10) avg_movement
        end
  end.

(** The fields of [ONNXTrafficDetector] that the counting step reads or writes. *)
Record ONNXTrafficDetector := mkDetector {
  tracker : ONNXVehicleTracker;
  vehicle_count : Z;
  filtered_vehicle_count : Z;
  lane_enabled : bool;
  direction_filter_enabled : bool;
  count_line_y : option Z;
  frame_count : Z
}.

(** [ONNXTrafficDetector.__init__], with the outcome of [load_lane_config]
    (whether a lane polygon was loaded) as argument. *)
Definition detector_init (lane : bool) : ONNXTrafficDetector :=
  {| tracker := tracker_default;
     vehicle_count := 0;
     filtered_vehicle_count := 0;
     lane_enabled := lane;
     direction_filter_enabled := false;
     count_line_y := None;
     frame_count := 0 |}.

(** A count message written with [logger.info]: the track id and the total. *)
Definition CountEvent : Type := nat * Z.

Definition with_tracker (d : ONNXTrafficDetector) (t : ONNXVehicleTracker) :=
  mkDetector t (vehicle_count d) (filtered_vehicle_count d) (lane_enabled d)
    (direction_filter_enabled d) (count_line_y d) (frame_count d).

Definition count_one (d : ONNXTrafficDetector) (t : ONNXVehicleTracker) :=
  mkDetector t (vehicle_count d + 1)%Z (filtered_vehicle_count d) (lane_enabled d)
    (direction_filter_enabled d) (count_line_y d) (frame_count d).

Definition filter_one (d : ONNXTrafficDetector) :=
  mkDetector (tracker d) (vehicle_count d) (filtered_vehicle_count d + 1)%Z (lane_enabled d)
    (direction_filter_enabled d) (count_line_y d) (frame_count d).

(** Body of the zone-counting loop of [process_frame]. *)
Definition count_zone_step (st : ONNXTrafficDetector * list CountEvent) (obj_id : nat)
    : ONNXTrafficDetector * list CountEvent :=
  let '(d, log) := st in
  if bool_decide (obj_id ∈ counted_ids (tracker d)) then st
  else
    let '(counted, t) := check_zone_counting obj_id (tracker d) in
    if counted
    then let d := count_one d t in (d, log ++ [(obj_id, vehicle_count d)])
    else (with_tracker d t, log).

(** Body of the legacy line-crossing loop of [process_frame]. *)
Definition count_line_step (line_y : Z) (st : ONNXTrafficDetector * list CountEvent)
    (obj_id : nat) : ONNXTrafficDetector * list CountEvent :=
  let '(d, log) := st in
  if bool_decide (obj_id ∈ crossed_ids (tracker d)) then st
  else if direction_filter_enabled d && negb (is_moving_towards_camera obj_id 5 (tracker d))
  then (filter_one d, log)
  else
    let '(counted, t) := check_line_crossing obj_id line_y (tracker d) in
    if counted
    then let d := count_one d t in (d, log ++ [(obj_id, vehicle_count d)])
    else (with_tracker d t, log).

(** The counting part of [process_frame], run over [tracked_objects.items()]. *)
Definition count_tracked (line_y : Z) (d : ONNXTrafficDetector)
    : ONNXTrafficDetector * list CountEvent :=
  let ids := PyDict.keys (objects (tracker d)) in
  if lane_enabled d
  then fold_left count_zone_step ids (d, [])
  else fold_left (count_line_step line_y) ids (d, []).

(** [process_frame] from the tracker update on.  [frame_height] is
    [frame.shape[0]]; [all_detections] is what the detection and filtering
    stages hand to the tracker.  Returns the detector and the count
    messages logged for this frame. *)
Definition process_frame (frame_height : Z) (all_detections : list Detection)
    (d : ONNXTrafficDetector) : option (ONNXTrafficDetector * list CountEvent) :=
  let line_y := match count_line_y d with
                | Some y => y
                | None => py_int (inject_Z frame_height * (66 # 100))
                end in
  t ← update all_detections (tracker d);
  let d := mkDetector t (vehicle_count d) (filtered_vehicle_count d) (lane_enabled d)
             (direction_filter_enabled d) (Some line_y) (frame_count d) in
  let '(d, log) := count_tracked line_y d in
  Some (mkDetector (tracker d) (vehicle_count d) (filtered_vehicle_count d) (lane_enabled d)
          (direction_filter_enabled d) (count_line_y d) (frame_count d + 1)%Z, log).

(** A run of [process_frame] over successive frames, with all messages. *)
Fixpoint process_frames (frame_height : Z) (frames : list (list Detection))
    (d : ONNXTrafficDetector) : option (ONNXTrafficDetector * list CountEvent) :=
  match frames with
  | [] => Some (d, [])
  | f :: r =>
      '(d1, log1) ← process_frame frame_height f d;
      '(d2, log2) ← process_frames frame_height r d1;
      Some (d2, log1 ++ log2)
  end.

(** Successive calls of [update]. *)
Fixpoint updates (frames : list (list Detection)) (t : ONNXVehicleTracker)
    : option ONNXVehicleTracker :=
  match frames with
  | [] => Some t
  | f :: r => t' ← update f t; updates r t'
  end.

(** ** Non-maximum suppression *)

(** The value of a float division: finite, or what IEEE arithmetic gives
    for a zero divisor. *)
Inductive fval := Fin (q : Q) | PInf | NInf | NaN.

Definition np_div (a b : Q) : fval :=
  if Qeq_bool b 0
  then if Qltb 0 a then PInf else if Qltb a 0 then NInf else NaN
  else Fin (a / b).

(** [v <= thr] for a finite [thr]; every comparison with NaN is false. *)
Definition fval_le (v : fval) (thr : Q) : bool :=
  match v with
  | Fin q => Qle_bool q thr
  | NInf => true
  | PInf | NaN => false
  end.

(** [v > thr] *)
Definition fval_gt (v : fval) (thr : Q) : bool :=
  match v with
  | Fin q => Qltb thr q
  | PInf => true
  | NInf | NaN => false
  end.

Definition iou_epsilon : Q := 1 # 1000000.

(** One entry of the matrix computed by [bbox_iou]. *)
Definition iou_pair (a b : BBox) : fval :=
  let x1 := Qmax (bx1 a) (bx1 b) in
  let y1 := Qmax (by1 a) (by1 b) in
  let x2 := Qmin (bx2 a) (bx2 b) in
  let y2 := Qmin (by2 a) (by2 b) in
  let intersection := Qmax 0 (x2 - x1) * Qmax 0 (y2 - y1) in
  let area1 := (bx2 a - bx1 a) * (by2 a - by1 a) in
  let area2 := (bx2 b - bx1 b) * (by2 b - by1 b) in
  let union := area1 + area2 - intersection in
  np_div intersection (union + iou_epsilon).

(** [bbox_iou]: the [N x M] matrix of IoU values. *)
Definition bbox_iou (box1 box2 : list BBox) : list (list fval) :=
  map (fun a => map (fun b => iou_pair a b) box2) box1.

(** [a[mask]] for a boolean mask of the same length. *)
Fixpoint compress {A} (mask : list bool) (a : list A) : list A :=
  match mask, a with
  | m :: ms, x :: xs => if m then x :: compress ms xs else compress ms xs
  | _, _ => []
  end.

(** [np.argsort(scores)]: indices by ascending score.  numpy does not fix
    the order of equal scores; the model keeps them in index order. *)
Fixpoint argsort_insert (scores : list Q) (i : nat) (sorted : list nat) : list nat :=
  match sorted with
  | [] => [i]
  | j :: r =>
      if Qltb (nth i scores 0) (nth j scores 0)
      then i :: sorted
      else j :: argsort_insert scores i r
  end.

Definition argsort (scores : list Q) : list nat :=
  fold_left (fun sorted i => argsort_insert scores i sorted) (seq 0 (length scores)) [].

(** The [while len(boxes) > 0] loop.  [boxes] and [order] are parallel
    arrays, cut down by the same mask in every round; each round removes
    at least the head, so [length boxes] rounds of fuel are enough. *)
Fixpoint nms_loop (fuel : nat) (iou_threshold : Q) (boxes : list BBox)
    (order : list nat) (keep : list nat) : list nat :=
  match fuel with
  | O => keep
  | S fuel' =>
      match boxes, order with
      | b0 :: rest, o0 :: orest =>
          let keep := keep ++ [o0] in
          if Nat.eqb (length boxes) 1 then keep
          else
            let ious := hd [] (bbox_iou [b0] rest) in
            let mask := map (fun v => fval_le v iou_threshold) ious in
            nms_loop fuel' iou_threshold (compress mask rest) (compress mask orest) keep
      | _, _ => keep
      end
  end.

(** [non_max_suppression]; [None] is the [IndexError] of [boxes[order]]
    when there are more scores than boxes. *)
Definition non_max_suppression (boxes : list BBox) (scores : list Q) (iou_threshold : Q)
    : option (list nat) :=
  if Nat.eqb (length boxes) 0 then Some []
  else
    let order := rev (argsort scores) in
    boxes' ← mapM (fun i => boxes !! i) order;
    Some (nms_loop (length boxes') iou_threshold boxes' order []).

(** ** Decoder *)

(** The arrays [postprocess] can be handed as [outputs[0]], with their
    shape: rank 1, rank 2 ([rows x ncols]) and rank 3. *)
Inductive ndarray :=
| Arr1 (v : list Q)
| Arr2 (ncols : nat) (rows : list (list Q))
| Arr3 (d1 d2 : nat) (pages : list (list (list Q))).

(** The data agrees with the declared shape. *)
Definition ndarray_ok (a : ndarray) : Prop :=
  match a with
  | Arr1 _ => True
  | Arr2 ncols rows => Forall (fun r => length r = ncols) rows
  | Arr3 d1 d2 pages =>
      Forall (fun p => length p = d1 /\ Forall (fun r => length r = d2) p) pages
  end.

Inductive exn := IndexError | ValueError.

Inductive outcome (A : Type) :=
| Returns (a : A)
| Raises (e : exn).
Arguments Returns {A} a.
Arguments Raises {A} e.

Definition obind {A B} (m : outcome A) (f : A -> outcome B) : outcome B :=
  match m with
  | Returns a => f a
  | Raises e => Raises e
  end.

Notation "x <-! m ; k" := (obind m (fun x => k))
  (at level 100, m at next level, right associativity).

(** Column [j] of a [d1 x d2] page, for the transpose of axes 1 and 2. *)
Definition column (j : nat) (page : list (list Q)) : list Q :=
  map (fun r => nth j r 0) page.

Definition transpose (d2 : nat) (page : list (list Q)) : list (list Q) :=
  map (fun j => column j page) (seq 0 d2).

(** [predictions = outputs[0]], transposed and squeezed when of rank 3;
    then the two column slices need rank 2. *)
Definition predictions_2d (outputs : list ndarray) : outcome (nat * list (list Q)) :=
  match outputs with
  | [] => Raises IndexError
  | Arr3 d1 d2 pages :: _ =>
      match pages with
      | [page] => Returns (d1, transpose d2 page)
      | _ => Raises ValueError          (* [squeeze(0)] on an axis of size <> 1 *)
      end
  | Arr2 ncols rows :: _ => Returns (ncols, rows)
  | Arr1 _ :: _ => Raises IndexError    (* [predictions[:, :4]] *)
  end.

(** [np.max] and [np.argmax] of a non-empty row. *)
Fixpoint row_max (x : Q) (r : list Q) : Q :=
  match r with
  | [] => x
  | y :: r' => row_max (if Qltb x y then y else x) r'
  end.

Fixpoint row_argmax_from (i : nat) (best : nat) (x : Q) (r : list Q) : nat :=
  match r with
  | [] => best
  | y :: r' => if Qltb x y then row_argmax_from (S i) i y r'
               else row_argmax_from (S i) best x r'
  end.

Record Candidate := mkCandidate {
  cand_box : BBox;
  cand_score : Q;
  cand_class : nat
}.

(** One anchor row [cx, cy, w, h, s0, s1, ...] with at least one class
    score: corner-form box, best score and its class. *)
Definition decode_row (row : list Q) : Candidate :=
  let x_center := nth 0 row 0 in
  let y_center := nth 1 row 0 in
  let width := nth 2 row 0 in
  let height := nth 3 row 0 in
  let class_scores := drop 4 row in
  let s0 := hd 0 class_scores in
  {| cand_box := {| bx1 := x_center - width / 2;
                    by1 := y_center - height / 2;
                    bx2 := x_center + width / 2;
                    by2 := y_center + height / 2 |};
     cand_score := row_max s0 (tl class_scores);
     cand_class := row_argmax_from 1 0 s0 (tl class_scores) |}.

Definition clip (x lo hi : Q) : Q := Qmin (Qmax x lo) hi.

(** Removal of the letterbox padding, rescaling and clipping of one box.
    [ratio] is the scale computed by [preprocess], a positive number. *)
Definition remap_box (ratio : Q) (pad : Z * Z) (img_shape : Z * Z) (b : BBox) : BBox :=
  let dx := inject_Z (fst pad) in
  let dy := inject_Z (snd pad) in
  let img_height := inject_Z (fst img_shape) in
  let img_width := inject_Z (snd img_shape) in
  {| bx1 := clip ((bx1 b - dx) / ratio) 0 img_width;
     by1 := clip ((by1 b - dy) / ratio) 0 img_height;
     bx2 := clip ((bx2 b - dx) / ratio) 0 img_width;
     by2 := clip ((by2 b - dy) / ratio) 0 img_height |}.

Record RawDetection := mkRawDetection {
  raw_bbox : BBox;
  raw_confidence : Q;
  raw_class_id : nat;
  raw_class_name : string
}.

Record ONNXYOLODetector := mkYOLO {
  conf_thres : Q;
  iou_thres : Q
}.

(** The body of the [try] block of [postprocess]. *)
Definition postprocess_try (self : ONNXYOLODetector) (outputs : list ndarray) (ratio : Q)
    (pad : Z * Z) (img_shape : Z * Z) (conf_thres_arg : option Q)
    : outcome (list RawDetection) :=
  let conf := match conf_thres_arg with Some c => c | None => conf_thres self end in
  p <-! predictions_2d outputs;
  let '(ncols, rows) := p in
  (* [np.max(class_scores, axis=1)] over an axis of length 0 *)
  if (ncols <=? 4)%nat then Raises ValueError
  else
    let cands := map decode_row rows in
    let valid := filter (fun c => Qle_bool conf (cand_score c) = true) cands in
    match valid with
    | [] => Returns []
    | _ :: _ =>
        let boxes := map cand_box valid in
        match non_max_suppression boxes (map cand_score valid) (iou_thres self) with
        | None => Raises IndexError
        | Some keep_indices =>
            let kept := omap (fun i => valid !! i) keep_indices in
            Returns
              (omap (fun c =>
                       let b := remap_box ratio pad img_shape (cand_box c) in
                       if Qle_bool (bx2 b) (bx1 b) || Qle_bool (by2 b) (by1 b)
                       then None
                       else Some {| raw_bbox := b;
                                    raw_confidence := cand_score c;
                                    raw_class_id := cand_class c;
                                    raw_class_name := pretty (cand_class c) |})
                    kept)
        end
    end.

(** [postprocess]: [except Exception] prints the error and returns [[]]. *)
Definition postprocess (self : ONNXYOLODetector) (outputs : list ndarray) (ratio : Q)
    (pad : Z * Z) (img_shape : Z * Z) (conf_thres_arg : option Q)
    : outcome (list RawDetection) :=
  match postprocess_try self outputs ratio pad img_shape conf_thres_arg with
  | Returns detections => Returns detections
  | Raises _ => Returns []
  end.


(** ** Stability gate *)

(** The fields of [ONNXTrafficDetector] behind the ambulance stability
    decision. *)
Record StabilityGate := mkGate {
  ambulance_detection_history : list bool;    (* deque(maxlen=20) *)
  ambulance_confidence_history : list Q;      (* deque(maxlen=20) *)
  ambulance_position_history : list Point;    (* deque(maxlen=15) *)
  min_tracklet_frames : nat;
  stability_ratio : Q;
  min_confidence_for_stability : Q;
  ambulance_stable : bool;
  stable_frames_count : Z
}.

(** The gate as [ONNXTrafficDetector.__init__] sets it up. *)
Definition gate_init : StabilityGate :=
  {| ambulance_detection_history := [];
     ambulance_confidence_history := [];
     ambulance_position_history := [];
     min_tracklet_frames := 3;
     stability_ratio := 6 # 10;
     min_confidence_for_stability := 4 # 100;
     ambulance_stable := false;
     stable_frames_count := 0 |}.

(** [sum(bools)] *)
Definition count_true (l : list bool) : nat := length (filter (fun b => b = true) l).

Definition Qlen {A} (l : list A) : Q := inject_Z (Z.of_nat (length l)).

(** [np.mean] and [np.var] of a non-empty list. *)
Definition np_mean (l : list Q) : Q := Qsum l / Qlen l.

Definition np_var (l : list Q) : Q :=
  let m := np_mean l in
  np_mean (map (fun x => (x - m) * (x - m)) l).

(** [_calculate_position_variance] *)
Definition _calculate_position_variance (positions : list Point) : Q :=
  if (length positions <? 2)%nat then 0
  else np_var (map fst positions) + np_var (map snd positions).

(** Criterion 2 of [_is_enhanced_stable_detection], confidence
    consistency.  [np.std(c) > 0.25] is stated on the variance:
    [np.var(c) > 0.0625]. *)
Definition confidence_consistent (g : StabilityGate) : bool :=
  let recent_confidences :=
    if (min_tracklet_frames g <=? length (ambulance_confidence_history g))%nat
    then filter (fun c => Qltb 0 c = true)
           (py_suffix (min_tracklet_frames g) (ambulance_confidence_history g))
    else [] in
  match recent_confidences with
  | [] => true
  | _ :: _ =>
      negb (Qltb (np_mean recent_confidences) (min_confidence_for_stability g))
      && negb (Qltb (625 # 10000) (np_var recent_confidences))
  end.

(** Criterion 3, position stability. *)
Definition position_stable (g : StabilityGate) : bool :=
  negb ((5 <=? length (ambulance_position_history g))%nat
        && Qltb 50000 (_calculate_position_variance
                         (py_suffix 5 (ambulance_position_history g)))).

(** Criterion 4, current detection quality. *)
Definition current_quality_ok (current_confidences : list Q) : bool :=
  match current_confidences with
  | [] => true
  | c :: cs => negb (Qltb (row_max c cs) (1 # 10))
  end.

(** [_is_enhanced_stable_detection].  [current_confidences] are the
    confidences of [current_detections]; [None] is the
    [ZeroDivisionError] of an empty window. *)
Definition _is_enhanced_stable_detection (g : StabilityGate)
    (current_confidences : list Q) : option bool :=
  if (length (ambulance_detection_history g) <? min_tracklet_frames g)%nat then Some false
  else
    let recent_detections :=
      py_suffix (min_tracklet_frames g) (ambulance_detection_history g) in
    if Nat.eqb (length recent_detections) 0 then None
    else
      let detection_rate :=
        inject_Z (Z.of_nat (count_true recent_detections)) / Qlen recent_detections in
      if Qltb detection_rate (stability_ratio g) then Some false
      else if negb (confidence_consistent g) then Some false
      else if negb (position_stable g) then Some false
      else if negb (current_quality_ok current_confidences) then Some false
      else Some true.

(** One accepted detection of a frame, as
    [_apply_enhanced_temporal_analysis] files it: the boosted confidence
    and the box center go to the histories, the final confidence stays
    with the detection.  The boosts come from image features computed
    outside this model. *)
Record GateSample := mkGateSample {
  boosted_confidence : Q;
  sample_center : Point;
  final_confidence : Q
}.

(** The history and stability bookkeeping of
    [_apply_enhanced_temporal_analysis]: [frame_has_detection] is
    [len(detections) > 0], [samples] the detections inside the ROI. *)
Definition gate_update (frame_has_detection : bool) (samples : list GateSample)
    (g : StabilityGate) : option StabilityGate :=
  let dh := deque_append 20 (ambulance_detection_history g) frame_has_detection in
  let ch := fold_left (fun h s => deque_append 20 h (boosted_confidence s)) samples
              (ambulance_confidence_history g) in
  let ph := fold_left (fun h s => deque_append 15 h (sample_center s)) samples
              (ambulance_position_history g) in
  let g1 := mkGate dh ch ph (min_tracklet_frames g) (stability_ratio g)
              (min_confidence_for_stability g) (ambulance_stable g)
              (stable_frames_count g) in
  stable ← _is_enhanced_stable_detection g1 (map final_confidence samples);
  Some (mkGate dh ch ph (min_tracklet_frames g) (stability_ratio g)
          (min_confidence_for_stability g) stable
          (if stable then (stable_frames_count g + 1)%Z
           else if frame_has_detection then stable_frames_count g else 0%Z)).

(** ** Vehicle and ambulance filters *)

(** The keys of [VEHICLE_CLASSES]. *)
Definition VEHICLE_CLASSES : list nat := [2; 3; 5; 7; 4]%nat.

(** [_filter_vehicle_detections].  [lane] is [Some f] when [lane_enabled]
    is set and a polygon is loaded, [f] being
    [cv2.pointPolygonTest(self.lane_polygon, ., False)].  The key
    [original_class_id] written next to ['class_name'] repeats [class_id],
    which stays in the dict. *)
Definition _filter_vehicle_detections (lane : option (Point -> Q))
    (detections : list RawDetection) : list RawDetection :=
  omap (fun det =>
          let class_id := raw_class_id det in
          if Nat.eqb class_id 0 then None
          else if bool_decide (class_id ∈ VEHICLE_CLASSES)
          then
            let det := {| raw_bbox := raw_bbox det;
                          raw_confidence := raw_confidence det;
                          raw_class_id := class_id;
                          raw_class_name := "vehicle" |} in
            match lane with
            | Some point_polygon_test =>
                if Qltb (point_polygon_test (_get_center (raw_bbox det))) 0
                then None
                else Some det
            | None => Some det
            end
          else None)
       detections.

(** What [tracker.update] reads of a detection dict. *)
Definition to_tracker_detection (det : RawDetection) : Detection :=
  {| det_bbox := raw_bbox det;
     det_confidence := raw_confidence det;
     det_class_name := Some (raw_class_name det) |}.

(** [det['validation']], written by [_apply_size_shape_filtering]. *)
Record Validation := mkValidation {
  relative_area : Q;
  aspect_ratio : Q;
  pixel_area : Q;
  confidence_threshold_used : Q
}.

(** The keys of an ambulance detection dict that the filters read.
    [amb_total_boost] is [det['features']['total_boost']] when the dict
    has ['features']; the feature analysis always sets that key. *)
Record AmbulanceDetection := mkAmbulance {
  amb_bbox : BBox;
  amb_confidence : Q;
  amb_validation : option Validation;
  amb_total_boost : option Q
}.

(** [_calculate_iou] *)
Definition _calculate_iou (box1 box2 : BBox) : Q :=
  let x1_i := Qmax (bx1 box1) (bx1 box2) in
  let y1_i := Qmax (by1 box1) (by1 box2) in
  let x2_i := Qmin (bx2 box1) (bx2 box2) in
  let y2_i := Qmin (by2 box1) (by2 box2) in
  if Qle_bool x2_i x1_i || Qle_bool y2_i y1_i then 0
  else
    let intersection := (x2_i - x1_i) * (y2_i - y1_i) in
    let area1 := (bx2 box1 - bx1 box1) * (by2 box1 - by1 box1) in
    let area2 := (bx2 box2 - bx1 box2) * (by2 box2 - by1 box2) in
    let union := area1 + area2 - intersection in
    if Qltb 0 union then intersection / union else 0.

(** [_calculate_overlap_ratio] *)
Definition _calculate_overlap_ratio (bbox1 bbox2 : BBox) : Q :=
  let x1_i := Qmax (bx1 bbox1) (bx1 bbox2) in
  let y1_i := Qmax (by1 bbox1) (by1 bbox2) in
  let x2_i := Qmin (bx2 bbox1) (bx2 bbox2) in
  let y2_i := Qmin (by2 bbox1) (by2 bbox2) in
  if Qle_bool x2_i x1_i || Qle_bool y2_i y1_i then 0
  else
    let intersection := (x2_i - x1_i) * (y2_i - y1_i) in
    let area1 := (bx2 bbox1 - bx1 bbox1) * (by2 bbox1 - by1 bbox1) in
    if Qltb 0 area1 then intersection / area1 else 0.

(** [sorted(detections, key=lambda x: x['confidence'], reverse=True)]:
    the sort is stable, equal confidences keep their input order. *)
Fixpoint insert_by_confidence (d : AmbulanceDetection) (l : list AmbulanceDetection)
    : list AmbulanceDetection :=
  match l with
  | [] => [d]
  | e :: r =>
      if Qltb (amb_confidence d) (amb_confidence e)
      then e :: insert_by_confidence d r
      else d :: l
  end.

Definition sorted_by_confidence (detections : list AmbulanceDetection)
    : list AmbulanceDetection :=
  fold_right insert_by_confidence [] detections.

(** The [while sorted_detections] loop of [_simple_nms_fallback]; every
    round pops the head, so [length sorted_detections] rounds of fuel are
    enough. *)
Fixpoint nms_fallback_loop (fuel : nat) (iou_threshold : Q)
    (sorted_detections keep : list AmbulanceDetection) : list AmbulanceDetection :=
  match fuel with
  | O => keep
  | S fuel' =>
      match sorted_detections with
      | [] => keep
      | current :: rest =>
          let remaining :=
            filter (fun det =>
                      Qltb (_calculate_iou (amb_bbox current) (amb_bbox det))
                           iou_threshold = true) rest in
          nms_fallback_loop fuel' iou_threshold remaining (keep ++ [current])
      end
  end.

(** [_simple_nms_fallback] *)
Definition _simple_nms_fallback (detections : list AmbulanceDetection) (iou_threshold : Q)
    : list AmbulanceDetection :=
  match detections with
  | [] => []
  | _ :: _ =>
      nms_fallback_loop (length detections) iou_threshold
        (sorted_by_confidence detections) []
  end.

(** [_get_adaptive_confidence_threshold]; it reads
    [self.adaptive_confidence_enabled] and the detection history.  The
    argument [calibrated_confidence] is not used by the body. *)
Definition _get_adaptive_confidence_threshold (adaptive_confidence_enabled : bool)
    (g : StabilityGate) (detection : AmbulanceDetection) : Q :=
  let base_threshold := 8 # 100 in
  if negb adaptive_confidence_enabled then base_threshold
  else
    let base_threshold :=
      match amb_total_boost detection with
      | Some total_feature_score =>
          if Qltb (2 # 10) total_feature_score then base_threshold * (4 # 10)
          else if Qltb (1 # 10) total_feature_score then base_threshold * (6 # 10)
          else if Qltb (5 # 100) total_feature_score then base_threshold * (8 # 10)
          else base_threshold
      | None => base_threshold
      end in
    let base_threshold :=
      match amb_validation detection with
      | Some v =>
          if Qltb (2 # 100) (relative_area v) then base_threshold * (7 # 10)
          else if Qltb (1 # 100) (relative_area v) then base_threshold * (85 # 100)
          else base_threshold
      | None => base_threshold
      end in
    let base_threshold :=
      if (5 <=? length (ambulance_detection_history g))%nat
      then
        let recent_detections := py_suffix 5 (ambulance_detection_history g) in
        let detection_rate :=
          inject_Z (Z.of_nat (count_true recent_detections)) / Qlen recent_detections in
        if Qle_bool (8 # 10) detection_rate then base_threshold * (5 # 10)
        else if Qle_bool (6 # 10) detection_rate then base_threshold * (7 # 10)
        else base_threshold
      else base_threshold in
    Qmax (3 # 100) (Qmin base_threshold (15 # 100)).

(** [_filter_by_stability_and_confidence], without its debug logging. *)
Definition _filter_by_stability_and_confidence (adaptive_confidence_enabled : bool)
    (g : StabilityGate) (detections : list AmbulanceDetection) : list AmbulanceDetection :=
  match detections with
  | [] => []
  | _ :: _ =>
      if ambulance_stable g
      then
        filter (fun det =>
                  let adaptive_threshold :=
                    _get_adaptive_confidence_threshold adaptive_confidence_enabled g det in
                  let stable_threshold := adaptive_threshold * (8 # 10) in
                  Qle_bool stable_threshold (amb_confidence det) = true)
          detections
      else
        filter (fun det =>
                  let adaptive_threshold :=
                    _get_adaptive_confidence_threshold adaptive_confidence_enabled g det in
                  let unstable_threshold := Qmin (adaptive_threshold * (15 # 10)) (25 # 100) in
                  Qle_bool unstable_threshold (amb_confidence det) = true)
          detections
  end.


(** [_is_valid_small_ambulance]; [frame_shape] is not used by the body. *)
Definition _is_valid_small_ambulance (bbox : BBox) (confidence : Q) : bool :=
  let width := bx2 bbox - bx1 bbox in
  let height := by2 bbox - by1 bbox in
  let area := width * height in
  let min_area_threshold :=
    if Qltb (2 # 10) confidence then 200
    else if Qltb (1 # 10) confidence then 300
    else 400 in
  if Qltb area min_area_threshold then false
  else if Qltb 200000 area then false
  else if Qltb 0 height
          && (let aspect_ratio := width / height in
              if Qltb area 1000
              then negb (Qle_bool (2 # 10) aspect_ratio && Qle_bool aspect_ratio 4)
              else negb (Qle_bool (3 # 10) aspect_ratio && Qle_bool aspect_ratio (35 # 10)))
  then false
  else if Qltb width 15 || Qltb height 10 then false
  else true.

(** The [for vehicle in vehicle_detections] loop of
    [_check_vehicle_overlap]; [None] is the [ZeroDivisionError] of
    [intersection_area / ambulance_area]. *)
Fixpoint vehicle_overlap_loop (min_overlap_ratio : Q) (ambulance_bbox : BBox)
    (vehicles : list BBox) : option bool :=
  match vehicles with
  | [] => Some false
  | v :: r =>
      let ambulance_area :=
        (bx2 ambulance_bbox - bx1 ambulance_bbox) * (by2 ambulance_bbox - by1 ambulance_bbox) in
      let ix1 := Qmax (bx1 ambulance_bbox) (bx1 v) in
      let iy1 := Qmax (by1 ambulance_bbox) (by1 v) in
      let ix2 := Qmin (bx2 ambulance_bbox) (bx2 v) in
      let iy2 := Qmin (by2 ambulance_bbox) (by2 v) in
      if Qltb ix1 ix2 && Qltb iy1 iy2
      then
        let intersection_area := (ix2 - ix1) * (iy2 - iy1) in
        if Qeq_bool ambulance_area 0 then None
        else
          let overlap_ratio := intersection_area / ambulance_area in
          if Qltb min_overlap_ratio overlap_ratio then Some true
          else vehicle_overlap_loop min_overlap_ratio ambulance_bbox r
      else vehicle_overlap_loop min_overlap_ratio ambulance_bbox r
  end.

(** [_check_vehicle_overlap] *)
Definition _check_vehicle_overlap (require_vehicle_overlap : bool) (min_overlap_ratio : Q)
    (ambulance_bbox : BBox) (vehicle_detections : list RawDetection) : option bool :=
  if negb require_vehicle_overlap || Nat.eqb (length vehicle_detections) 0 then Some true
  else vehicle_overlap_loop min_overlap_ratio ambulance_bbox (map raw_bbox vehicle_detections).

(** The scale and padding computed by [preprocess] for an image of
    [img_width x img_height] pixels and a network input of
    [input_width x input_height]: [(ratio, (new_width, new_height), (dx, dy))].
    [None] is the [ZeroDivisionError] of an image without pixels. *)
Definition preprocess_geometry (input_width input_height img_width img_height : Z)
    : option (Q * (Z * Z) * (Z * Z)) :=
  if (img_width =? 0)%Z || (img_height =? 0)%Z then None
  else
    let ratio := Qmin (inject_Z input_width / inject_Z img_width)
                      (inject_Z input_height / inject_Z img_height) in
    let new_width := py_int (inject_Z img_width * ratio) in
    let new_height := py_int (inject_Z img_height * ratio) in
    let dx := ((input_width - new_width) / 2)%Z in
    let dy := ((input_height - new_height) / 2)%Z in
    Some (ratio, (new_width, new_height), (dx, dy)).

(** ** Derived notions used in the statements *)

(** The pairs (track id, detection index) chosen by the matching loop of
    [update], as a function of the geometry alone. *)
Fixpoint greedy_assign (max_distance : Q) (detection_centers : list Point)
    (entries : list (nat * Point)) (matched_detections matched_objects : gset nat)
    : list (nat * nat) :=
  match entries with
  | [] => []
  | (obj_id, obj_center) :: r =>
      if bool_decide (obj_id ∈ matched_objects)
      then greedy_assign max_distance detection_centers r matched_detections matched_objects
      else
        match find_best_match obj_center max_distance matched_detections detection_centers with
        | None =>
            greedy_assign max_distance detection_centers r matched_detections matched_objects
        | Some j =>
            (obj_id, j) ::
            greedy_assign max_distance detection_centers r
              ({[j]} ∪ matched_detections) ({[obj_id]} ∪ matched_objects)
        end
  end.

(** The assignment made by [update detections t]; empty when the matching
    loop is not entered. *)
Definition assignment (detections : list Detection) (t : ONNXVehicleTracker)
    : list (nat * nat) :=
  match detections with
  | [] => []
  | _ :: _ =>
      if Nat.eqb (PyDict.len (objects t)) 0 then []
      else greedy_assign (max_distance t)
             (map (fun d => _get_center (det_bbox d)) detections)
             (object_entries t) ∅ ∅
  end.

(** A track is matched in a frame when the assignment gives it a detection. *)
Definition is_matched (detections : list Detection) (t : ONNXVehicleTracker)
    (object_id : nat) : bool :=
  bool_decide (object_id ∈ map fst (assignment detections t)).

(** A run of frames in none of which the track is matched. *)
Fixpoint unmatched_run (object_id : nat) (frames : list (list Detection))
    (t : ONNXVehicleTracker) : Prop :=
  match frames with
  | [] => True
  | f :: r =>
      is_matched f t object_id = false /\
      match update f t with
      | Some t' => unmatched_run object_id r t'
      | None => False
      end
  end.

(** Successive calls of [update] with all the ids they register, in order. *)
Fixpoint updates_registering (frames : list (list Detection)) (t : ONNXVehicleTracker)
    : option (list nat * ONNXVehicleTracker) :=
  match frames with
  | [] => Some ([], t)
  | f :: r =>
      '(ids1, t1) ← update_registering f t;
      '(ids2, t2) ← updates_registering r t1;
      Some (ids1 ++ ids2, t2)
  end.




(** The tracker states that the public operations can produce: the
    constructor, [update], the two counting checks and the reset of the
    crossed set done by the main loop on key [r].  The other public
    methods ([is_moving_towards_camera], [is_in_lane],
    [draw_trajectories]) only read the tracker. *)
Inductive reachable : ONNXVehicleTracker -> Prop :=
| reach_init md mdist : reachable (tracker_init md mdist)
| reach_update t dets t' :
    reachable t -> update dets t = Some t' -> reachable t'
| reach_zone t object_id :
    reachable t -> reachable (snd (check_zone_counting object_id t))
| reach_line t object_id line_y :
    reachable t -> reachable (snd (check_line_crossing object_id line_y t))
| reach_clear t :
    reachable t -> reachable (set_crossed_ids t ∅).

(** Well-formed track tables: the three per-track dictionaries have the
    same keys in the same order, ascending and below [next_id]. *)
Record tracker_wf (t : ONNXVehicleTracker) : Prop := mk_wf {
  wf_sorted : StronglySorted lt (PyDict.keys (objects t));
  wf_bound : Forall (fun k => (k < next_id t)%nat) (PyDict.keys (objects t));
  wf_disappeared : PyDict.keys (disappeared t) = PyDict.keys (objects t);
  wf_trajectory : PyDict.keys (trajectory_points t) = PyDict.keys (objects t)
}.

(** The parts of the tracker that [update] only reads. *)
Definition config (t : ONNXVehicleTracker) :=
  (max_disappeared t, max_distance t, smoothing_factor t, max_trajectory_length t,
   crossed_ids t, counted_ids t, zone_entry_positions t, min_movement_to_count t).

(** ** Auxiliary notions of the proofs, and sample data *)

(** [self.disappeared.get(k)] and [self.objects.get(k)]. *)
Definition ctr (t : ONNXVehicleTracker) (k : nat) : option Z := PyDict.get k (disappeared t).

Definition obj (t : ONNXVehicleTracker) (k : nat) : option TrackedObject :=
  PyDict.get k (objects t).

(** Track [k] went one more frame without a match. *)
Definition bumped (t t' : ONNXVehicleTracker) (k : nat) : Prop :=
  exists d, ctr t k = Some d /\
    if (max_disappeared t <? d + 1)%Z then obj t' k = None
    else obj t' k = obj t k /\ ctr t' k = Some (d + 1)%Z.

(** Track [k] is as it was. *)
Definition kept (t t' : ONNXVehicleTracker) (k : nat) : Prop :=
  obj t' k = obj t k /\ ctr t' k = ctr t k.

(** The body of both disappearance loops of [update]. *)
Definition disappear_body (matched_objects : gset nat) (obj_id : nat)
    (t : ONNXVehicleTracker) : option ONNXVehicleTracker :=
  if bool_decide (obj_id ∈ matched_objects) then Some t else mark_disappeared obj_id t.

(** The track object written back on a match. *)
Definition updated (t : ONNXVehicleTracker) (o : TrackedObject) (det : Detection)
    : TrackedObject :=
  {| obj_bbox := _smooth_bbox t (obj_bbox o) (det_bbox det);
     obj_class := class_of det;
     obj_confidence := det_confidence det;
     obj_history := obj_history o |}.

(** [detection_centers] *)
Definition centers_of (detections : list Detection) : list Point :=
  map (fun d => _get_center (det_bbox d)) detections.

(** A 10 x 10 detection with its top-left corner at [(x, y)]. *)
Definition sample_detection (x y : Z) : Detection :=
  {| det_bbox := {| bx1 := inject_Z x; by1 := inject_Z y;
                    bx2 := inject_Z (x + 10); by2 := inject_Z (y + 10) |};
     det_confidence := 9 # 10;
     det_class_name := None |}.

(** Two tracks, the first matched once and the second registered late. *)
Definition sample_frames : list (list Detection) :=
  [ [sample_detection 0 0];
    [sample_detection 1 1; sample_detection 300 300] ].

Definition sample_tracker : ONNXVehicleTracker :=
  match updates sample_frames tracker_default with
  | Some t => t
  | None => tracker_default
  end.

(** One track, as registered by the first frame. *)
Definition single_tracker : ONNXVehicleTracker :=
  match update [sample_detection 0 0] tracker_default with
  | Some t => t
  | None => tracker_default
  end.




(** [self.trajectory_points.get(k)] and [self.zone_entry_positions.get(k)]. *)
Definition traj (t : ONNXVehicleTracker) (k : nat) : option (list Point) :=
  PyDict.get k (trajectory_points t).

Definition zone_entry (t : ONNXVehicleTracker) (k : nat) : option Q :=
  PyDict.get k (zone_entry_positions t).

(** The set that guards the active counting strategy. *)
Definition counted_set (d : ONNXTrafficDetector) : gset nat :=
  if lane_enabled d then counted_ids (tracker d) else crossed_ids (tracker d).

(** What one round of a counting loop may do: nothing visible, or count
    one id that was not counted before. *)
Definition count_step_ok (st st' : ONNXTrafficDetector * list CountEvent) (id : nat) : Prop :=
  lane_enabled st'.1 = lane_enabled st.1 /\
  ((counted_set st'.1 = counted_set st.1 /\ st'.2 = st.2 /\
    vehicle_count st'.1 = vehicle_count st.1) \/
   ((id ∉ counted_set st.1) /\ counted_set st'.1 = {[id]} ∪ counted_set st.1 /\
    st'.2 = st.2 ++ [(id, vehicle_count st'.1)] /\
    vehicle_count st'.1 = (vehicle_count st.1 + 1)%Z)).

(** What a whole run of counting rounds does. *)
Definition count_run_ok (st st' : ONNXTrafficDetector * list CountEvent) : Prop :=
  lane_enabled st'.1 = lane_enabled st.1 /\
  exists new : list CountEvent,
    st'.2 = st.2 ++ new /\
    vehicle_count st'.1 = (vehicle_count st.1 + Z.of_nat (length new))%Z /\
    NoDup (map fst new) /\
    (forall id, id ∈ map fst new -> id ∉ counted_set st.1) /\
    (forall id, id ∈ counted_set st'.1 <-> id ∈ counted_set st.1 \/ id ∈ map fst new).

(** A vehicle driving down the lane, [speed] pixels per frame. *)
Definition driving_frames (from speed : Z) (n : nat) : list (list Detection) :=
  map (fun i => [sample_detection 100 (from + speed * Z.of_nat i)]) (seq 0 n).

(** The detector once that vehicle has been counted by the zone strategy. *)
Definition counted_detector : ONNXTrafficDetector :=
  match process_frames 480 (driving_frames 0 20 8) (detector_init true) with
  | Some (d, _) => d
  | None => detector_init true
  end.

(** The claim as the specification words it, on the five most recent
    samples after an update. *)
Definition stable_by_three_of_five (g' : StabilityGate) : Prop :=
  let last5 := py_suffix 5 (ambulance_detection_history g') in
  length last5 = 5%nat ->
  (count_true last5 = 3%nat -> ambulance_stable g' = true) /\
  (count_true last5 = 2%nat -> ambulance_stable g' = false).

(** Three detections followed by a miss; one more miss makes 3 of 5. *)
Definition gate_three_then_miss : StabilityGate :=
  mkGate [true; true; true; false] [] [] 3 (6 # 10) (4 # 100) false 0.

(** Three misses followed by a detection; one more makes 2 of 5. *)
Definition gate_miss_then_hit : StabilityGate :=
  mkGate [false; false; false; true] [] [] 3 (6 # 10) (4 # 100) false 0.

(** A detection confident enough for criterion 4. *)
Definition strong_sample : GateSample :=
  {| boosted_confidence := 5 # 10; sample_center := (100, 100);
     final_confidence := 5 # 10 |}.

Definition sample_yolo : ONNXYOLODetector := {| conf_thres := 25 # 100; iou_thres := 45 # 100 |}.



(** Equality of float results up to the representation of rationals. *)
Definition fval_eqv (u v : fval) : Prop :=
  match u, v with
  | Fin p, Fin q => p == q
  | PInf, PInf | NInf, NInf | NaN, NaN => True
  | _, _ => False
  end.

(** No box of the list is suppressed by an earlier one. *)
Fixpoint all_pass (thr : Q) (bs : list BBox) : Prop :=
  match bs with
  | [] => True
  | b :: r => Forall (fun b' => fval_le (iou_pair b b') thr = true) r /\ all_pass thr r
  end.

(** Pairwise non-overlap: every two different boxes have IoU 0. *)
Definition pairwise_disjoint (boxes : list BBox) : Prop :=
  forall i j bi bj, i <> j -> boxes !! i = Some bi -> boxes !! j = Some bj ->
    fval_eqv (iou_pair bi bj) (Fin 0).

(** A 10 x 10 box with its top-left corner at [(x, y)]. *)
Definition square_box (x y : Z) : BBox :=
  {| bx1 := inject_Z x; by1 := inject_Z y;
     bx2 := inject_Z (x + 10); by2 := inject_Z (y + 10) |}.

Definition disjoint_boxes : list BBox :=
  [square_box 0 0; square_box 20 20; square_box 100 100].

(** What one call of [update] may do to the trajectory of id [k]: drop
    it, keep it, append one center to it, or start it for a new id. *)
Definition traj_step (t t' : ONNXVehicleTracker) (k : nat) : Prop :=
  traj t' k = None \/
  traj t' k = traj t k \/
  (exists pts c, traj t k = Some pts /\
     traj t' k = Some (deque_append (max_trajectory_length t) pts c)) \/
  ((next_id t <= k)%nat /\
   exists c, traj t' k = Some (deque_append (max_trajectory_length t) [] c)).

(** What the disappearance loops may do to trajectories. *)
Definition traj_same_or_gone (t t' : ONNXVehicleTracker) : Prop :=
  forall k, traj t' k = traj t k \/ traj t' k = None.

(** Invariant of the matching loop for trajectories: an id is appended
    to at most once, at the moment it enters [matched_objects]. *)
Definition match_traj_rel (st st' : MatchState) : Prop :=
  let '(t, _, mo) := st in
  let '(t', _, mo') := st' in
  config t' = config t /\ mo ⊆ mo' /\
  forall k, traj t' k = traj t k \/
    ((k ∉ mo) /\ k ∈ mo' /\
     exists c, traj t' k = Some (deque_append (max_trajectory_length t)
                                   (default [] (traj t k)) c)).

(** What holds of the zone bookkeeping in every reachable state. *)
Record zone_inv (t : ONNXVehicleTracker) : Prop := mk_zone_inv {
  zi_length : max_trajectory_length t = 20%nat;
  zi_movement : min_movement_to_count t = 50;
  zi_entry : forall k e, zone_entry t k = Some e ->
    (k < next_id t)%nat /\ forall pts, traj t k = Some pts -> (5 <= length pts)%nat
}.

(** A 10 x 10 detection at x = 100 with its top edge at [top]. *)
Definition box_at (top : Z) : Detection :=
  {| det_bbox := {| bx1 := 100; by1 := inject_Z top;
                    bx2 := 110; by2 := inject_Z (top + 10) |};
     det_confidence := 9 # 10;
     det_class_name := None |}.

(** A vehicle that enters with its center at y = 300, stays for three
    frames and then moves so that the smoothed center is at y = 349: five
    trajectory points, the entry recorded by the first check. *)
Definition entered_at_300_now_349 : ONNXVehicleTracker :=
  match updates [[box_at 295]; [box_at 295]; [box_at 295]; [box_at 295]; [box_at 371]]
          tracker_default with
  | Some t => snd (check_zone_counting 0 t)
  | None => tracker_default
  end.

(** One frame later the smoothed box has its center at y = 350. *)
Definition entered_at_300_now_350 : ONNXVehicleTracker :=
  match update [box_at 346] entered_at_300_now_349 with
  | Some t => t
  | None => tracker_default
  end.

(** Number of trajectory points held for an id. *)
Definition traj_len (t : ONNXVehicleTracker) (k : nat) : nat :=
  match traj t k with
  | Some pts => length pts
  | None => 0
  end.

(** The track table proper: what the counting checks never touch. *)
Definition same_tables (t t' : ONNXVehicleTracker) : Prop :=
  next_id t' = next_id t /\ objects t' = objects t /\
  disappeared t' = disappeared t /\ trajectory_points t' = trajectory_points t.

(** Two misses followed by two detections; one more detection makes 3 of
    5, and all of the last 3. *)
Definition gate_two_hits : StabilityGate :=
  mkGate [false; false; true; true] [] [] 3 (6 # 10) (4 # 100) false 0.

(** A detection whose final confidence is below the 0.1 of criterion 4. *)
Definition weak_sample : GateSample :=
  {| boosted_confidence := 5 # 100; sample_center := (100, 100);
     final_confidence := 5 # 100 |}.

(** Descending confidence, and two detections that the fallback
    suppression lets coexist. *)
Definition conf_ge (a b : AmbulanceDetection) : Prop := amb_confidence b <= amb_confidence a.

Definition compatible (thr : Q) (a b : AmbulanceDetection) : Prop :=
  _calculate_iou (amb_bbox a) (amb_bbox b) < thr.

(** An entry of the parallel arrays of [non_max_suppression]: an index
    with its box.  [q] passes [p] when [p] does not suppress it. *)
Definition passes (thr : Q) (p q : nat * BBox) : Prop :=
  fval_le (iou_pair p.2 q.2) thr = true.

#[local] Instance passes_dec thr p q : Decision (passes thr p q) :=
  decide (fval_le (iou_pair p.2 q.2) thr = true).

(** Ascending score, as [np.argsort] orders the indices. *)
Definition score_le (scores : list Q) (i j : nat) : Prop := nth i scores 0 <= nth j scores 0.

(** Invariant of the inner loop of [update] after the detections [pre]
    of [all]: [best_match] is the nearest eligible detection seen so far
    (the first one among equals) and [min_dist] its distance. *)
Definition best_inv (c : Point) (maxd : Q) (md : gset nat) (all pre : list Point)
    (acc : option Q * option nat) : Prop :=
  match snd acc with
  | None =>
      fst acc = None /\
      forall j cj, pre !! j = Some cj -> j ∉ md -> dist_lt (dist2 c cj) maxd = false
  | Some j =>
      exists cj, all !! j = Some cj /\ (j < length pre)%nat /\ (j ∉ md) /\
        fst acc = Some (dist2 c cj) /\ dist_lt (dist2 c cj) maxd = true /\
        (forall j' cj', pre !! j' = Some cj' -> j' ∉ md ->
           dist_lt (dist2 c cj') maxd = true -> dist2 c cj <= dist2 c cj') /\
        (forall j' cj', (j' < j)%nat -> pre !! j' = Some cj' -> j' ∉ md ->
           dist_lt (dist2 c cj') maxd = true -> dist2 c cj < dist2 c cj')
  end.

(** Every track has a non-empty trajectory within [maxlen] whose last
    point is the center of the stored box. *)
Definition track_inv (t : ONNXVehicleTracker) : Prop :=
  (1 <= max_trajectory_length t)%nat /\
  forall k o, obj t k = Some o ->
    exists pts, traj t k = Some pts /\ pts <> [] /\
      (length pts <= max_trajectory_length t)%nat /\
      List.last pts (0, 0) = _get_center (obj_bbox o).

(** Where [preprocess] puts the image point [p] on the canvas: the image
    is resized by [ratio] and pasted at the offset [pad = (dx, dy)]. *)
Definition canvas_point (ratio : Q) (pad : Z * Z) (p : Point) : Point :=
  (fst p * ratio + inject_Z (fst pad), snd p * ratio + inject_Z (snd pad)).

(** A car detection as [postprocess] returns it. *)
Definition car_box : RawDetection :=
  {| raw_bbox := mkBBox 100 100 200 200; raw_confidence := 9 # 10;
     raw_class_id := 2; raw_class_name := "2" |}.

(** Two tracks close to each other, registered by one frame. *)
Definition two_close_tracks : ONNXVehicleTracker :=
  match update [sample_detection 0 0; sample_detection 20 20] tracker_default with
  | Some t => t
  | None => tracker_default
  end.


(** Two anchors with two classes each, in the shape [(anchors, 4 + classes)]. *)
Definition sample_output : list ndarray :=
  [Arr2 6 [ [100; 100; 20; 20; 9 # 10; 1 # 10];
            [300; 300; 20; 20; 1 # 10; 8 # 10] ]].

(** Two overlapping ambulance detections and one apart. *)
Definition sample_ambulances : list AmbulanceDetection :=
  [ mkAmbulance (mkBBox 100 100 200 200) (3 # 10) None None;
    mkAmbulance (mkBBox 110 110 210 210) (5 # 10) None None;
    mkAmbulance (mkBBox 400 400 500 500) (2 # 10) None None ].

(** The gate of a fresh detector, but marked stable. *)
Definition stable_gate : StabilityGate :=
  mkGate [] [] [] 3 (6 # 10) (4 # 100) true 1.

(** The object [_register] stores for a detection, and a property that
    holds of every object in the track table. *)
Definition fresh_object (det : Detection) : TrackedObject :=
  {| obj_bbox := det_bbox det;
     obj_class := class_of det;
     obj_confidence := det_confidence det;
     obj_history := [det_bbox det] |}.

Definition objects_all (P : TrackedObject -> Prop) (t : ONNXVehicleTracker) : Prop :=
  forall k o, obj t k = Some o -> P o.

(** * Properties *)

(** ** Dictionary facts *)

Section PyDictFacts.
Context {V : Type}.
Implicit Types (d : PyDict.t V) (k : nat) (v : V).

Lemma get_Some_keys d k : is_Some (PyDict.get k d) <-> k ∈ PyDict.keys d.
Proof.
  induction d as [|[k' v'] r IH]; simpl.
  - split; [intros [? ?]; discriminate | intros H; inversion H].
  - destruct (Nat.eqb_spec k k') as [->|Hne].
    + split; [intros _; left | eauto].
    + rewrite IH. split; [intros H; by right | intros H].
      inversion H; subst; [congruence | done].
Qed.

Lemma get_None_keys d k : PyDict.get k d = None <-> k ∉ PyDict.keys d.
Proof.
  rewrite <- get_Some_keys. destruct (PyDict.get k d); split; intros H;
    try done; try (exfalso; apply H; eauto);
    try (destruct H as [? ?]; discriminate).
Qed.

Lemma mem_keys d k : PyDict.mem k d = true <-> k ∈ PyDict.keys d.
Proof.
  rewrite <- get_Some_keys. unfold PyDict.mem.
  destruct (PyDict.get k d); split; intros H; try done; eauto;
    try (destruct H as [? ?]; discriminate).
Qed.

Lemma get_set_eq d k v : PyDict.get k (PyDict.set k v d) = Some v.
Proof.
  induction d as [|[k' v'] r IH]; simpl.
  - by rewrite Nat.eqb_refl.
  - destruct (Nat.eqb_spec k k') as [->|Hne]; simpl.
    + by rewrite Nat.eqb_refl.
    + destruct (Nat.eqb_spec k k'); [congruence | done].
Qed.

Lemma get_set_ne d k k' v : k <> k' -> PyDict.get k' (PyDict.set k v d) = PyDict.get k' d.
Proof.
  intros Hne. induction d as [|[k0 v0] r IH]; simpl.
  - destruct (Nat.eqb_spec k' k); [congruence | done].
  - destruct (Nat.eqb_spec k k0) as [->|Hk]; simpl.
    + destruct (Nat.eqb_spec k' k0); [congruence | done].
    + destruct (Nat.eqb_spec k' k0); [done | apply IH].
Qed.

Lemma keys_set_in d k v : k ∈ PyDict.keys d -> PyDict.keys (PyDict.set k v d) = PyDict.keys d.
Proof.
  induction d as [|[k' v'] r IH]; simpl; intros H.
  - inversion H.
  - destruct (Nat.eqb_spec k k') as [->|Hne]; simpl; [done |].
    f_equal. apply IH. inversion H; subst; [congruence | done].
Qed.

Lemma keys_set_notin d k v :
  k ∉ PyDict.keys d -> PyDict.keys (PyDict.set k v d) = PyDict.keys d ++ [k].
Proof.
  induction d as [|[k' v'] r IH]; simpl; intros H; [done |].
  destruct (Nat.eqb_spec k k') as [->|Hne]; simpl.
  - exfalso. apply H. left.
  - f_equal. apply IH. intros Hin. apply H. by right.
Qed.

Lemma keys_del d k :
  PyDict.keys (PyDict.del k d) = filter (fun x => x <> k) (PyDict.keys d).
Proof.
  induction d as [|[k' v'] r IH]; simpl; [done |].
  destruct (Nat.eqb_spec k k') as [->|Hne].
  - rewrite filter_cons_False by (simpl; congruence). apply IH.
  - rewrite filter_cons_True by (simpl; congruence). simpl. by rewrite IH.
Qed.

Lemma get_del_eq d k : PyDict.get k (PyDict.del k d) = None.
Proof.
  induction d as [|[k' v'] r IH]; simpl; [done |].
  destruct (Nat.eqb_spec k k') as [->|Hne]; [done |].
  simpl. destruct (Nat.eqb_spec k k'); [congruence | done].
Qed.

Lemma get_del_ne d k k' : k <> k' -> PyDict.get k' (PyDict.del k d) = PyDict.get k' d.
Proof.
  intros Hne. induction d as [|[k0 v0] r IH]; simpl; [done |].
  destruct (Nat.eqb_spec k k0) as [->|Hk]; simpl.
  - destruct (Nat.eqb_spec k' k0); [congruence | apply IH].
  - destruct (Nat.eqb_spec k' k0); [done | apply IH].
Qed.
End PyDictFacts.

(** ** Ascending key lists *)

Lemma sorted_filter (P : nat -> Prop) `{!forall x, Decision (P x)} (l : list nat) :
  StronglySorted lt l -> StronglySorted lt (filter P l).
Proof.
  induction 1 as [|a l Hs IH Hall]; [constructor |].
  destruct (decide (P a)).
  - rewrite filter_cons_True by done. constructor; [done |].
    apply List.Forall_forall. intros x Hx. apply list_elem_of_In, list_elem_of_filter in Hx.
    destruct Hx as [_ Hx]. rewrite List.Forall_forall in Hall. apply Hall.
    by apply list_elem_of_In.
  - by rewrite filter_cons_False.
Qed.

Lemma sorted_snoc (l : list nat) (n : nat) :
  StronglySorted lt l -> Forall (fun k => (k < n)%nat) l -> StronglySorted lt (l ++ [n]).
Proof.
  induction 1 as [|a l Hs IH Hall]; intros Hb; simpl.
  - repeat constructor.
  - inversion Hb; subst. constructor; [by apply IH |].
    apply Forall_app; split; [done | by constructor].
Qed.

Lemma sorted_NoDup (l : list nat) : StronglySorted lt l -> NoDup l.
Proof.
  induction 1 as [|a l Hs IH Hall]; constructor; [| done].
  intros Hin. rewrite List.Forall_forall in Hall.
  apply list_elem_of_In, Hall in Hin. lia.
Qed.

(** ** The tracker: one step of the disappearance bookkeeping *)

Lemma obj_in_keys t k : is_Some (obj t k) <-> k ∈ PyDict.keys (objects t).
Proof. apply get_Some_keys. Qed.

Lemma wf_ctr_obj t k : tracker_wf t -> is_Some (ctr t k) <-> is_Some (obj t k).
Proof.
  intros Hwf. unfold ctr, obj. rewrite !get_Some_keys. by rewrite (wf_disappeared t Hwf).
Qed.

Lemma Forall_lt_filter (P : nat -> Prop) `{!forall x, Decision (P x)} n (l : list nat) :
  Forall (fun k => (k < n)%nat) l -> Forall (fun k => (k < n)%nat) (filter P l).
Proof.
  rewrite !List.Forall_forall. intros Hall x Hx.
  apply list_elem_of_In, list_elem_of_filter in Hx. apply Hall, list_elem_of_In, Hx.
Qed.

Lemma deregister_wf t id : tracker_wf t -> tracker_wf (_deregister id t).
Proof.
  intros [Hs Hb Hd Ht]. unfold _deregister. constructor; simpl; rewrite ?keys_del.
  - by apply sorted_filter.
  - by apply Forall_lt_filter.
  - by rewrite Hd.
  - by rewrite Ht.
Qed.

Lemma mark_disappeared_spec t id :
  tracker_wf t -> id ∈ PyDict.keys (objects t) ->
  exists t', mark_disappeared id t = Some t' /\ tracker_wf t' /\
    config t' = config t /\ next_id t' = next_id t /\
    bumped t t' id /\ (forall k, k <> id -> kept t t' k) /\
    (forall k, k ∈ PyDict.keys (objects t') -> k ∈ PyDict.keys (objects t)).
Proof.
  intros Hwf Hin.
  assert (Hd : is_Some (ctr t id)) by (apply wf_ctr_obj, obj_in_keys; done).
  destruct Hd as [d Hd]. unfold mark_disappeared. unfold ctr in Hd. rewrite Hd.
  set (t1 := set_disappeared t (PyDict.set id (d + 1)%Z (disappeared t))).
  assert (Hwf1 : tracker_wf t1).
  { destruct Hwf as [Hs Hb Hdk Ht]. constructor; simpl; try done.
    rewrite keys_set_in; [done |]. by rewrite Hdk. }
  change (max_disappeared t1) with (max_disappeared t).
  destruct (max_disappeared t <? d + 1)%Z eqn:Hlt.
  - eexists; split; [reflexivity |]. split; [by apply deregister_wf |].
    repeat split; try done.
    + exists d. split; [done |]. rewrite Hlt. unfold obj. simpl. apply get_del_eq.
    + unfold obj. simpl. by rewrite get_del_ne.
    + unfold ctr. simpl. rewrite get_del_ne by done. by rewrite get_set_ne.
    + simpl. intros k Hk. rewrite keys_del in Hk. by apply list_elem_of_filter in Hk as [_ ?].
  - eexists; split; [reflexivity |]. split; [done |].
    repeat split; try done.
    + exists d. split; [done |]. rewrite Hlt. split; [done |].
      unfold ctr. simpl. apply get_set_eq.
    + unfold ctr. simpl. by rewrite get_set_ne.
Qed.

Lemma config_fields t t' :
  config t' = config t ->
  max_disappeared t' = max_disappeared t /\ max_distance t' = max_distance t /\
  smoothing_factor t' = smoothing_factor t /\
  max_trajectory_length t' = max_trajectory_length t /\
  crossed_ids t' = crossed_ids t /\ counted_ids t' = counted_ids t /\
  zone_entry_positions t' = zone_entry_positions t /\
  min_movement_to_count t' = min_movement_to_count t.
Proof. unfold config. intros H. injection H. intros. repeat split; done. Qed.

Lemma kept_refl t k : kept t t k.
Proof. by split. Qed.

Lemma kept_trans t1 t2 t3 k : kept t1 t2 k -> kept t2 t3 k -> kept t1 t3 k.
Proof. intros [? ?] [? ?]. split; congruence. Qed.

Lemma bumped_kept t1 t2 t3 k : bumped t1 t2 k -> kept t2 t3 k -> bumped t1 t3 k.
Proof.
  intros [d [Hd Hb]] [Ho Hc]. exists d. split; [done |].
  destruct (max_disappeared t1 <? d + 1)%Z; [congruence |].
  destruct Hb. split; congruence.
Qed.

Lemma kept_bumped t1 t2 t3 k :
  max_disappeared t2 = max_disappeared t1 ->
  kept t1 t2 k -> bumped t2 t3 k -> bumped t1 t3 k.
Proof.
  intros Hm [Ho Hc] [d [Hd Hb]]. exists d. split; [congruence |].
  rewrite <- Hm. destruct (max_disappeared t2 <? d + 1)%Z; [done |].
  destruct Hb. split; congruence.
Qed.

Lemma for_each_ext {A S} (f g : A -> S -> option S) l s :
  (forall a s, f a s = g a s) -> for_each f l s = for_each g l s.
Proof.
  intros Hfg. revert s. induction l as [|a l IH]; intros s; simpl; [done |].
  rewrite Hfg. destruct (g a s); [apply IH | done].
Qed.

Lemma disappear_loop_spec mo l t :
  tracker_wf t -> NoDup l -> (forall k, k ∈ l -> k ∈ PyDict.keys (objects t)) ->
  exists t', for_each (disappear_body mo) l t = Some t' /\ tracker_wf t' /\
    config t' = config t /\ next_id t' = next_id t /\
    (forall k, k ∈ l -> k ∉ mo -> bumped t t' k) /\
    (forall k, k ∉ l \/ k ∈ mo -> kept t t' k) /\
    (forall k, k ∈ PyDict.keys (objects t') -> k ∈ PyDict.keys (objects t)).
Proof.
  revert t. induction l as [|a l IH]; intros t Hwf Hnd Hin; simpl.
  - exists t. do 4 (split; [done |]). split; [| split; [| done]].
    + intros k Hk. inversion Hk.
    + intros k _. apply kept_refl.
  - apply NoDup_cons in Hnd as [Ha Hnd]. unfold disappear_body at 1.
    destruct (decide (a ∈ mo)) as [Hmo|Hmo].
    + rewrite bool_decide_eq_true_2 by done.
      destruct (IH t Hwf Hnd) as (t' & Hrun & Hwf' & Hc & Hn & Hb & Hk & Hsub).
      { intros k Hk. apply Hin. by right. }
      exists t'. do 4 (split; [done |]). split; [| split; [| done]].
      * intros k Hkl Hkmo. apply Hb; [| done].
        apply elem_of_cons in Hkl as [->|?]; done.
      * intros k [Hkl|Hkmo]; apply Hk; [left | by right].
        intros ?. apply Hkl. by right.
    + rewrite bool_decide_eq_false_2 by done.
      destruct (mark_disappeared_spec t a Hwf) as (t1 & Hm & Hwf1 & Hc1 & Hn1 & Hb1 & Hk1 & Hsub1).
      { apply Hin. left. }
      rewrite Hm.
      destruct (IH t1 Hwf1 Hnd) as (t' & Hrun & Hwf' & Hc & Hn & Hb & Hk & Hsub).
      { intros k Hk. apply obj_in_keys.
        assert (k <> a) by (intros ->; done).
        destruct (Hk1 k) as [Ho _]; [done |]. rewrite Ho.
        apply obj_in_keys, Hin. by right. }
      pose proof (config_fields _ _ Hc1) as (Hmax & _).
      exists t'. split; [done |]. split; [done |].
      split; [congruence |]. split; [congruence |]. split; [| split].
      * intros k Hkl Hkmo. apply elem_of_cons in Hkl as [->|Hkl].
        -- eapply bumped_kept; [done |]. apply Hk. by left.
        -- assert (k <> a) by (intros ->; done).
           eapply kept_bumped; [done | by apply Hk1 | by apply Hb].
      * intros k Hor.
        assert (Hka : k <> a).
        { intros ->. destruct Hor as [Hkl|Hkmo]; [| done]. apply Hkl. left. }
        eapply kept_trans; [by apply Hk1 |]. apply Hk.
        destruct Hor as [Hkl|Hkmo]; [left | by right].
        intros ?. apply Hkl. by right.
      * intros k Hk'. by apply Hsub1, Hsub.
Qed.

(** ** The tracker: registration *)

Ltac case_mem :=
  match goal with
  | |- context [PyDict.mem ?k ?d] => destruct (PyDict.mem k d)
  end.

Lemma register_id det t : fst (_register det t) = next_id t.
Proof. unfold _register. cbv zeta. by case_mem. Qed.

Lemma register_next_id det t : next_id (snd (_register det t)) = S (next_id t).
Proof. unfold _register. cbv zeta. by case_mem. Qed.

Lemma register_config det t : config (snd (_register det t)) = config t.
Proof. unfold _register. cbv zeta. by case_mem. Qed.

Lemma register_objects det t :
  objects (snd (_register det t)) =
  PyDict.set (next_id t)
    {| obj_bbox := det_bbox det; obj_class := class_of det;
       obj_confidence := det_confidence det; obj_history := [det_bbox det] |}
    (objects t).
Proof. unfold _register. cbv zeta. by case_mem. Qed.

Lemma register_disappeared det t :
  disappeared (snd (_register det t)) = PyDict.set (next_id t) 0%Z (disappeared t).
Proof. unfold _register. cbv zeta. by case_mem. Qed.

Lemma register_trajectory det t :
  trajectory_points (snd (_register det t)) =
  PyDict.set (next_id t)
    (deque_append (max_trajectory_length t) [] (_get_center (det_bbox det)))
    (PyDict.set (next_id t) [] (trajectory_points t)).
Proof.
  unfold _register. cbv zeta. cbn [snd].
  case_mem; unfold _update_trajectory; simpl; by rewrite get_set_eq.
Qed.

Lemma wf_fresh t : tracker_wf t -> next_id t ∉ PyDict.keys (objects t).
Proof.
  intros Hwf Hin. pose proof (wf_bound t Hwf) as Hb.
  rewrite List.Forall_forall in Hb. apply list_elem_of_In, Hb in Hin. lia.
Qed.

Lemma register_keys det t :
  tracker_wf t ->
  PyDict.keys (objects (snd (_register det t))) = PyDict.keys (objects t) ++ [next_id t].
Proof.
  intros Hwf. rewrite register_objects. apply keys_set_notin. by apply wf_fresh.
Qed.

Lemma register_wf det t : tracker_wf t -> tracker_wf (snd (_register det t)).
Proof.
  intros Hwf. pose proof (wf_fresh t Hwf) as Hfresh.
  destruct Hwf as [Hs Hb Hd Ht].
  constructor.
  - rewrite register_objects, keys_set_notin by done. by apply sorted_snoc.
  - rewrite register_objects, keys_set_notin by done. rewrite register_next_id.
    apply Forall_app; split.
    + eapply Forall_impl; [exact Hb |]. simpl. intros; lia.
    + constructor; [lia | constructor].
  - rewrite register_disappeared, register_objects.
    rewrite !keys_set_notin; rewrite ?Hd; done.
  - rewrite register_trajectory, register_objects.
    rewrite keys_set_in.
    + rewrite !keys_set_notin; rewrite ?Ht; done.
    + rewrite keys_set_notin by (by rewrite Ht). apply elem_of_app. right. left.
Qed.

Lemma register_kept det t k : k <> next_id t -> kept t (snd (_register det t)) k.
Proof.
  intros Hne. unfold kept, obj, ctr.
  rewrite register_objects, register_disappeared. by rewrite !get_set_ne.
Qed.

Lemma register_new det t :
  obj (snd (_register det t)) (next_id t) =
    Some {| obj_bbox := det_bbox det; obj_class := class_of det;
            obj_confidence := det_confidence det; obj_history := [det_bbox det] |} /\
  ctr (snd (_register det t)) (next_id t) = Some 0%Z.
Proof.
  unfold obj, ctr. rewrite register_objects, register_disappeared.
  by rewrite !get_set_eq.
Qed.

(** What [register_unmatched] does to a well-formed tracker. *)
Lemma register_unmatched_spec md i dets t :
  tracker_wf t ->
  let r := register_unmatched md i dets t in
  tracker_wf (snd r) /\ config (snd r) = config t /\
  fst r = seq (next_id t) (length (fst r)) /\
  next_id (snd r) = (next_id t + length (fst r))%nat /\
  PyDict.keys (objects (snd r)) = PyDict.keys (objects t) ++ fst r /\
  (forall k, (k < next_id t)%nat -> kept t (snd r) k) /\
  (forall k, k ∈ fst r -> is_Some (obj (snd r) k) /\ ctr (snd r) k = Some 0%Z).
Proof.
  revert i t. induction dets as [|det dets IH]; intros i t Hwf;
    cbn [register_unmatched].
  - cbn [fst snd length]. rewrite app_nil_r, Nat.add_0_r. do 5 (split; [done |]). split.
    + intros k _. apply kept_refl.
    + intros k Hk. inversion Hk.
  - destruct (bool_decide (i ∈ md)); [apply IH; done |].
    destruct (_register det t) as [object_id t1] eqn:Hreg.
    assert (Hid : object_id = next_id t) by (rewrite <- (register_id det t), Hreg; done).
    assert (Ht1 : t1 = snd (_register det t)) by (rewrite Hreg; done).
    assert (Hwf1 : tracker_wf t1) by (rewrite Ht1; by apply register_wf).
    specialize (IH (S i) t1 Hwf1).
    destruct (register_unmatched md (S i) dets t1) as [ids t2] eqn:Hrest.
    cbn [fst snd length] in *. destruct IH as (Hwf2 & Hc2 & Hids & Hn2 & Hk2 & Hkept2 & Hnew2).
    assert (Hn1 : next_id t1 = S (next_id t)) by (rewrite Ht1; apply register_next_id).
    split; [done |]. split; [rewrite Hc2, Ht1; apply register_config |].
    split; [rewrite Hid; cbn [seq]; f_equal; by rewrite <- Hn1 |].
    split; [lia |]. split.
    { rewrite Hk2, Ht1, register_keys by done. rewrite <- app_assoc. by rewrite Hid. }
    clear Hids.
    assert (Hkept1 : forall k, k <> next_id t -> kept t t1 k).
    { intros k Hk. rewrite Ht1. by apply register_kept. }
    assert (Hnew1 : is_Some (obj t1 (next_id t)) /\ ctr t1 (next_id t) = Some 0%Z).
    { rewrite Ht1. destruct (register_new det t) as [-> ->]. eauto. }
    split.
    + intros k Hk. eapply kept_trans; [apply Hkept1; lia | apply Hkept2; lia].
    + intros k Hk. apply elem_of_cons in Hk as [->|Hk]; [| by apply Hnew2].
      rewrite Hid. destruct (Hkept2 (next_id t)) as [Ho Hc]; [lia |].
      by rewrite Ho, Hc.
Qed.

(** ** The tracker: the matching loop *)

Lemma best_match_from_spec c maxd md j0 centers acc j :
  snd (best_match_from c maxd md j0 centers acc) = Some j ->
  snd acc = Some j \/ ((j0 <= j < j0 + length centers)%nat /\ j ∉ md).
Proof.
  revert j0 acc. induction centers as [|p ps IH]; intros j0 acc; simpl; [by left |].
  intros H. apply IH in H as [H|[H1 H2]].
  - unfold best_match_step in H.
    destruct (decide (j0 ∈ md)) as [Hin|Hin].
    + rewrite bool_decide_eq_true_2 in H by done. by left.
    + rewrite bool_decide_eq_false_2 in H by done.
      destruct (dist_lt_min _ _ && dist_lt _ _); [| by left].
      simpl in H. injection H as <-. right. split; [lia | done].
  - right. split; [lia | done].
Qed.

Lemma find_best_match_spec c maxd md centers j :
  find_best_match c maxd md centers = Some j ->
  (j < length centers)%nat /\ j ∉ md.
Proof.
  unfold find_best_match. intros H.
  apply best_match_from_spec in H as [H|[H1 H2]]; [discriminate |].
  split; [lia | done].
Qed.

Lemma updated_config t t' o det :
  config t' = config t -> updated t' o det = updated t o det.
Proof.
  intros H. apply config_fields in H as (_ & _ & Hs & _).
  unfold updated, _smooth_bbox. by rewrite Hs.
Qed.

Lemma match_object_spec dets t md mo id c :
  tracker_wf t -> id ∈ PyDict.keys (objects t) -> id ∉ mo ->
  match find_best_match c (max_distance t) md (centers_of dets) with
  | None => match_object dets (centers_of dets) (id, c) (t, md, mo) = Some (t, md, mo)
  | Some j =>
      exists det o t',
        dets !! j = Some det /\ obj t id = Some o /\
        match_object dets (centers_of dets) (id, c) (t, md, mo)
          = Some (t', {[j]} ∪ md, {[id]} ∪ mo) /\
        tracker_wf t' /\ config t' = config t /\ next_id t' = next_id t /\
        PyDict.keys (objects t') = PyDict.keys (objects t) /\
        obj t' id = Some (updated t o det) /\ ctr t' id = Some 0%Z /\
        (forall k, k <> id -> kept t t' k)
  end.
Proof.
  intros Hwf Hin Hmo. unfold match_object.
  rewrite bool_decide_eq_false_2 by done.
  destruct (find_best_match c (max_distance t) md (centers_of dets)) as [j|] eqn:Hf; [| done].
  apply find_best_match_spec in Hf as [Hj _].
  unfold centers_of in Hj. rewrite length_map in Hj.
  destruct (lookup_lt_is_Some_2 dets j Hj) as [det Hdet].
  destruct (proj2 (obj_in_keys t id) Hin) as [o Ho].
  exists det, o. rewrite Hdet. unfold obj in Ho. rewrite Ho.
  eexists. split; [done |]. split; [done |]. split; [reflexivity |].
  destruct Hwf as [Hs Hb Hd Ht].
  split.
  { constructor; unfold _update_trajectory; simpl.
    - by rewrite keys_set_in.
    - by rewrite keys_set_in.
    - rewrite !keys_set_in; [done | done | by rewrite Hd].
    - rewrite !keys_set_in; [done | done | by rewrite Ht]. }
  split; [done |]. split; [done |].
  split; [simpl; by rewrite keys_set_in |].
  split; [unfold obj; simpl; by rewrite get_set_eq |].
  split; [unfold ctr; simpl; by rewrite get_set_eq |].
  intros k Hk. unfold kept, obj, ctr. simpl. by rewrite !get_set_ne.
Qed.

Lemma greedy_assign_fst maxd centers entries md mo k :
  k ∈ map fst (greedy_assign maxd centers entries md mo) ->
  k ∈ map fst entries /\ k ∉ mo.
Proof.
  revert md mo. induction entries as [|[id c] r IH]; intros md mo; simpl.
  - intros H. inversion H.
  - destruct (decide (id ∈ mo)) as [Hin|Hin].
    + rewrite bool_decide_eq_true_2 by done. intros H. apply IH in H as [? ?].
      split; [by right | done].
    + rewrite bool_decide_eq_false_2 by done.
      destruct (find_best_match c maxd md centers) as [j|].
      * simpl. intros H. apply elem_of_cons in H as [->|H]; [split; [left | done] |].
        apply IH in H as [? Hk]. split; [by right | set_solver].
      * intros H. apply IH in H as [? ?]. split; [by right | done].
Qed.

Lemma match_loop_spec dets entries t md mo :
  tracker_wf t -> NoDup (map fst entries) ->
  (forall k, k ∈ map fst entries -> k ∈ PyDict.keys (objects t)) ->
  let A := greedy_assign (max_distance t) (centers_of dets) entries md mo in
  exists t' md' mo',
    for_each (match_object dets (centers_of dets)) entries (t, md, mo) = Some (t', md', mo') /\
    tracker_wf t' /\ config t' = config t /\ next_id t' = next_id t /\
    PyDict.keys (objects t') = PyDict.keys (objects t) /\
    (forall k, k ∈ mo' <-> k ∈ mo \/ k ∈ map fst A) /\
    (forall j, j ∈ md' <-> j ∈ md \/ j ∈ map snd A) /\
    (forall id j, (id, j) ∈ A ->
       exists det o, dets !! j = Some det /\ obj t id = Some o /\
         obj t' id = Some (updated t o det) /\ ctr t' id = Some 0%Z) /\
    (forall k, k ∉ map fst A -> kept t t' k).
Proof.
  revert t md mo. induction entries as [|[id c] r IH]; intros t md mo Hwf Hnd Hin A.
  - exists t, md, mo. subst A. simpl. do 5 (split; [done |]).
    split; [set_solver |]. split; [set_solver |]. split.
    + intros ?? H. inversion H.
    + intros k _. apply kept_refl.
  - simpl in Hnd. apply NoDup_cons in Hnd as [Hid Hnd].
    assert (Hin' : forall k, k ∈ map fst r -> k ∈ PyDict.keys (objects t)).
    { intros k Hk. apply Hin. simpl. by right. }
    cbn [for_each]. subst A. cbn [greedy_assign].
    destruct (decide (id ∈ mo)) as [Hmo|Hmo].
    { unfold match_object at 1. rewrite !bool_decide_eq_true_2 by done.
      by apply IH. }
    rewrite bool_decide_eq_false_2 by done.
    pose proof (match_object_spec dets t md mo id c Hwf) as Hstep.
    destruct (find_best_match c (max_distance t) md (centers_of dets)) as [j|].
    2:{ rewrite Hstep; [by apply IH | apply Hin; left | done]. }
    destruct Hstep as (det & o & t1 & Hdet & Ho & Hrun & Hwf1 & Hc1 & Hn1 & Hk1 & Ho1 & Hctr1 & Hkept1);
      [apply Hin; left | done |].
    rewrite Hrun.
    pose proof (config_fields _ _ Hc1) as (_ & Hmd & _).
    destruct (IH t1 ({[j]} ∪ md) ({[id]} ∪ mo) Hwf1 Hnd) as
      (t' & md' & mo' & Hrun' & Hwf' & Hc' & Hn' & Hk' & Hmo' & Hmd' & HA & Hkept').
    { intros k Hk. rewrite Hk1. by apply Hin'. }
    rewrite Hmd in *.
    set (A' := greedy_assign (max_distance t) (centers_of dets) r ({[j]} ∪ md) ({[id]} ∪ mo)) in *.
    assert (HidA : id ∉ map fst A').
    { intros H. apply greedy_assign_fst in H as [_ H]. set_solver. }
    exists t', md', mo'. split; [done |]. split; [done |].
    split; [congruence |]. split; [congruence |]. split; [congruence |].
    split; [intros k; rewrite Hmo'; simpl; set_solver |].
    split; [intros k; rewrite Hmd'; simpl; set_solver |].
    split.
    + intros id' j' H. apply elem_of_cons in H as [Heq|H].
      * injection Heq as -> ->. exists det, o. split; [done |]. split; [done |].
        destruct (Hkept' id HidA) as [-> ->]. done.
      * destruct (HA id' j' H) as (det' & o' & Hdet' & Ho' & Hob' & Hct').
        assert (Hne : id' <> id).
        { intros ->. apply HidA. apply list_elem_of_fmap. by exists (id, j'). }
        exists det', o'. split; [done |].
        destruct (Hkept1 id' Hne) as [Heq _]. rewrite <- Heq.
        split; [done |]. split; [| done].
        by rewrite Hob', (updated_config t t1).
    + intros k Hk. simpl in Hk. apply not_elem_of_cons in Hk as [Hk1' Hk2].
      eapply kept_trans; [by apply Hkept1 | by apply Hkept'].
Qed.

(** ** The tracker: one call of [update] *)

Lemma object_entries_fst t : map fst (object_entries t) = PyDict.keys (objects t).
Proof.
  unfold object_entries, PyDict.keys. rewrite map_map. by apply map_ext.
Qed.

Lemma wf_NoDup t : tracker_wf t -> NoDup (PyDict.keys (objects t)).
Proof. intros Hwf. apply sorted_NoDup, (wf_sorted t Hwf). Qed.

Lemma wf_lt t k : tracker_wf t -> k ∈ PyDict.keys (objects t) -> (k < next_id t)%nat.
Proof.
  intros Hwf Hk. pose proof (wf_bound t Hwf) as Hb.
  rewrite List.Forall_forall in Hb. by apply Hb, list_elem_of_In.
Qed.

(** What a call of [update] does to a well-formed tracker, for any
    visiting order [entries_of] that lists the tracks once each. *)
Lemma update_with_spec entries_of dets t :
  tracker_wf t ->
  NoDup (map fst (entries_of t)) ->
  (forall k, k ∈ map fst (entries_of t) -> k ∈ PyDict.keys (objects t)) ->
  let A := match dets with
           | [] => []
           | _ :: _ =>
               if Nat.eqb (PyDict.len (objects t)) 0 then []
               else greedy_assign (max_distance t) (centers_of dets) (entries_of t) ∅ ∅
           end in
  exists ids t',
    update_with entries_of dets t = Some (ids, t') /\
    tracker_wf t' /\ config t' = config t /\
    ids = seq (next_id t) (length ids) /\
    next_id t' = (next_id t + length ids)%nat /\
    (forall k, k ∈ PyDict.keys (objects t') -> k ∈ PyDict.keys (objects t) \/ k ∈ ids) /\
    (forall id j, (id, j) ∈ A ->
       exists det o, dets !! j = Some det /\ obj t id = Some o /\
         obj t' id = Some (updated t o det) /\ ctr t' id = Some 0%Z) /\
    (forall k, k ∈ PyDict.keys (objects t) -> k ∉ map fst A -> bumped t t' k).
Proof.
  intros Hwf Hnd Hsub A. unfold update_with.
  destruct dets as [|det0 dets0].
  - (* no detections *)
    rewrite (for_each_ext mark_disappeared (disappear_body ∅)).
    2:{ intros a s. unfold disappear_body. by rewrite bool_decide_eq_false_2 by set_solver. }
    destruct (disappear_loop_spec ∅ (PyDict.keys (disappeared t)) t Hwf)
      as (t' & Hrun & Hwf' & Hc & Hn & Hb & Hk & Hs).
    { rewrite (wf_disappeared t Hwf). by apply wf_NoDup. }
    { intros k. by rewrite (wf_disappeared t Hwf). }
    rewrite Hrun. exists [], t'. simpl. split; [done |]. split; [done |].
    split; [done |]. split; [done |]. split; [lia |]. split; [| split].
    + intros k Hk'. left. by apply Hs.
    + subst A. intros ?? H. inversion H.
    + intros k Hk' _. apply Hb; [| set_solver]. by rewrite (wf_disappeared t Hwf).
  - set (dets := det0 :: dets0) in *.
    destruct (Nat.eqb_spec (PyDict.len (objects t)) 0) as [Hlen|Hlen].
    + (* empty track table *)
      pose proof (register_unmatched_spec ∅ 0 dets t Hwf) as Hreg.
      destruct (register_unmatched ∅ 0 dets t) as [ids t'].
      cbn [fst snd] in Hreg. destruct Hreg as (Hwf' & Hc & Hids & Hn & Hk & Hkept & Hnew).
      exists ids, t'. do 5 (split; [done |]). split; [| split].
      * intros k Hk'. rewrite Hk in Hk'. by apply elem_of_app in Hk'.
      * subst A. intros ?? H. inversion H.
      * intros k Hk'. unfold PyDict.len in Hlen. apply length_zero_iff_nil in Hlen.
        rewrite Hlen in Hk'. inversion Hk'.
    + (* matching *)
      unfold match_phase. fold (centers_of dets).
      destruct (match_loop_spec dets (entries_of t) t ∅ ∅ Hwf Hnd Hsub)
        as (t1 & md' & mo' & Hrun & Hwf1 & Hc1 & Hn1 & Hk1 & Hmo & Hmd & HA & Hkept1).
      rewrite Hrun. cbn [mbind option_bind].
      pose proof (register_unmatched_spec md' 0 dets t1 Hwf1) as Hreg.
      destruct (register_unmatched md' 0 dets t1) as [ids t2].
      cbn [fst snd] in Hreg. destruct Hreg as (Hwf2 & Hc2 & Hids & Hn2 & Hk2 & Hkept2 & Hnew).
      unfold handle_disappeared.
      destruct (disappear_loop_spec mo' (PyDict.keys (objects t2)) t2 Hwf2)
        as (t3 & Hrun3 & Hwf3 & Hc3 & Hn3 & Hb3 & Hkept3 & Hs3); [by apply wf_NoDup | done |].
      unfold disappear_body in Hrun3. rewrite Hrun3. cbn [mbind option_bind].
      pose proof (config_fields _ _ Hc1) as (Hmax1 & _).
      pose proof (config_fields _ _ Hc2) as (Hmax2 & _).
      exists ids, t3. split; [done |]. split; [done |].
      split; [by rewrite Hc3, Hc2 |]. split; [by rewrite <- Hn1 |]. split; [lia |].
      split; [| split].
      * intros k Hk'. apply Hs3 in Hk'. rewrite Hk2, Hk1 in Hk'. by apply elem_of_app in Hk'.
      * subst A. intros id j Hin.
        destruct (HA id j Hin) as (det & o & Hdet & Ho & Ho1 & Hctr1).
        exists det, o. split; [done |]. split; [done |].
        assert (Hidk : id ∈ PyDict.keys (objects t)) by (apply obj_in_keys; rewrite Ho; eauto).
        assert (Hlt : (id < next_id t1)%nat) by (rewrite Hn1; by apply wf_lt).
        assert (Hin_mo : id ∈ mo').
        { apply Hmo. right. apply list_elem_of_fmap. by exists (id, j). }
        destruct (Hkept2 id Hlt) as [Ho2 Hcc2].
        destruct (Hkept3 id (or_intror Hin_mo)) as [Ho3 Hcc3].
        split; congruence.
      * subst A. intros k Hk' HkA.
        assert (Hlt : (k < next_id t1)%nat) by (rewrite Hn1; by apply wf_lt).
        apply (kept_bumped t t2 t3); [congruence | |].
        { eapply kept_trans; [by apply Hkept1 | by apply Hkept2]. }
        apply Hb3.
        -- rewrite Hk2, Hk1. apply elem_of_app. by left.
        -- rewrite Hmo. set_solver.
Qed.

Lemma update_spec dets t :
  tracker_wf t ->
  exists ids t',
    update_registering dets t = Some (ids, t') /\
    tracker_wf t' /\ config t' = config t /\
    ids = seq (next_id t) (length ids) /\
    next_id t' = (next_id t + length ids)%nat /\
    (forall k, k ∈ PyDict.keys (objects t') -> k ∈ PyDict.keys (objects t) \/ k ∈ ids) /\
    (forall id j, (id, j) ∈ assignment dets t ->
       exists det o, dets !! j = Some det /\ obj t id = Some o /\
         obj t' id = Some (updated t o det) /\ ctr t' id = Some 0%Z) /\
    (forall k, k ∈ PyDict.keys (objects t) -> k ∉ map fst (assignment dets t) ->
       bumped t t' k).
Proof.
  intros Hwf. apply (update_with_spec object_entries dets t Hwf).
  - rewrite object_entries_fst. by apply wf_NoDup.
  - intros k. by rewrite object_entries_fst.
Qed.

Lemma update_Some dets t t' :
  update dets t = Some t' -> exists ids, update_registering dets t = Some (ids, t').
Proof.
  unfold update. destruct (update_registering dets t) as [[ids t1]|]; [| done].
  simpl. intros [= <-]. by exists ids.
Qed.

Lemma update_of_registering dets t ids t' :
  update_registering dets t = Some (ids, t') -> update dets t = Some t'.
Proof. unfold update. by intros ->. Qed.

Lemma update_wf dets t t' : tracker_wf t -> update dets t = Some t' -> tracker_wf t'.
Proof.
  intros Hwf Hup. destruct (update_spec dets t Hwf) as (ids & t1 & Hrun & Hwf1 & _).
  apply update_of_registering in Hrun. congruence.
Qed.

Lemma update_config dets t t' : tracker_wf t -> update dets t = Some t' -> config t' = config t.
Proof.
  intros Hwf Hup. destruct (update_spec dets t Hwf) as (ids & t1 & Hrun & _ & Hc & _).
  apply update_of_registering in Hrun. congruence.
Qed.

Lemma updates_wf frames t t' : tracker_wf t -> updates frames t = Some t' -> tracker_wf t'.
Proof.
  revert t. induction frames as [|f r IH]; intros t Hwf; simpl.
  - by intros [= <-].
  - destruct (update f t) as [t1|] eqn:Hup; [| done]. simpl.
    apply IH. by apply (update_wf f t).
Qed.

(** ** The counting checks leave the track table alone *)

Lemma check_zone_counting_frame id t :
  let t' := snd (check_zone_counting id t) in
  next_id t' = next_id t /\ objects t' = objects t /\ disappeared t' = disappeared t /\
  trajectory_points t' = trajectory_points t /\ crossed_ids t' = crossed_ids t /\
  max_disappeared t' = max_disappeared t.
Proof.
  unfold check_zone_counting. repeat case_match; simpl; repeat split; try done;
    repeat case_match; done.
Qed.

Lemma check_line_crossing_frame id line_y t :
  let t' := snd (check_line_crossing id line_y t) in
  next_id t' = next_id t /\ objects t' = objects t /\ disappeared t' = disappeared t /\
  trajectory_points t' = trajectory_points t /\ counted_ids t' = counted_ids t /\
  zone_entry_positions t' = zone_entry_positions t /\
  max_disappeared t' = max_disappeared t.
Proof.
  unfold check_line_crossing. repeat case_match; simpl; repeat split; done.
Qed.

Lemma wf_same_tables t t' :
  next_id t' = next_id t -> objects t' = objects t -> disappeared t' = disappeared t ->
  trajectory_points t' = trajectory_points t -> tracker_wf t -> tracker_wf t'.
Proof.
  intros Hn Ho Hd Ht [Hs Hb Hdk Htk]. constructor; rewrite ?Hn, ?Ho, ?Hd, ?Ht; done.
Qed.

Lemma wf_init md mdist : tracker_wf (tracker_init md mdist).
Proof. constructor; simpl; try done; constructor. Qed.

Lemma reachable_wf t : reachable t -> tracker_wf t.
Proof.
  induction 1 as [md mdist|t dets t' _ IH Hup|t id _ IH|t id line_y _ IH|t _ IH].
  - apply wf_init.
  - by apply (update_wf dets t).
  - destruct (check_zone_counting_frame id t) as (Hn & Ho & Hd & Ht & _).
    by apply (wf_same_tables t).
  - destruct (check_line_crossing_frame id line_y t) as (Hn & Ho & Hd & Ht & _).
    by apply (wf_same_tables t).
  - by apply (wf_same_tables t).
Qed.

Lemma reachable_updates frames t t' :
  reachable t -> updates frames t = Some t' -> reachable t'.
Proof.
  revert t. induction frames as [|f r IH]; intros t Hr; simpl.
  - by intros [= <-].
  - destruct (update f t) as [t1|] eqn:Hup; [| done]. simpl.
    apply IH. by apply (reach_update t f).
Qed.

(** ** The sample states are reachable *)

Lemma sample_tracker_run : updates sample_frames tracker_default = Some sample_tracker.
Proof. vm_compute. reflexivity. Qed.

Lemma sample_tracker_reachable : reachable sample_tracker.
Proof.
  apply (reachable_updates sample_frames tracker_default); [apply reach_init |].
  apply sample_tracker_run.
Qed.

Lemma single_tracker_run : update [sample_detection 0 0] tracker_default = Some single_tracker.
Proof. vm_compute. reflexivity. Qed.

Lemma single_tracker_wf : tracker_wf single_tracker.
Proof. apply (update_wf _ _ _ (wf_init 30 100) single_tracker_run). Qed.

(** ** Matching order (C7) *)






(** ** Track ids (C9) *)

Lemma seq_app_eq (a n m : nat) (l1 l2 : list nat) :
  l1 = seq a n -> l2 = seq (a + n) m -> l1 ++ l2 = seq a (n + m).
Proof. intros -> ->. by rewrite seq_app. Qed.

Lemma seq_sorted a n : StronglySorted lt (seq a n).
Proof.
  revert a. induction n as [|n IH]; intros a; simpl; constructor; [apply IH |].
  apply List.Forall_forall. intros x Hx. apply in_seq in Hx. lia.
Qed.

Lemma updates_registering_spec frames t ids t' :
  tracker_wf t -> updates_registering frames t = Some (ids, t') ->
  tracker_wf t' /\ ids = seq (next_id t) (length ids) /\
  next_id t' = (next_id t + length ids)%nat /\
  (forall k, k ∈ PyDict.keys (objects t') -> k ∈ PyDict.keys (objects t) \/ k ∈ ids).
Proof.
  revert t ids t'. induction frames as [|f r IH]; intros t ids t' Hwf; simpl.
  - intros [= <- <-]. simpl. rewrite Nat.add_0_r. do 3 (split; [done |]). by left.
  - destruct (update_spec f t Hwf) as (ids1 & t1 & Hrun & Hwf1 & _ & Hids1 & Hn1 & Hk1 & _).
    rewrite Hrun. simpl.
    destruct (updates_registering r t1) as [[ids2 t2]|] eqn:Hrest; [| done]. simpl.
    intros [= <- <-].
    destruct (IH t1 ids2 t2 Hwf1 Hrest) as (Hwf2 & Hids2 & Hn2 & Hk2).
    split; [done |]. rewrite length_app. split; [| split; [lia |]].
    + apply seq_app_eq; [done |]. by rewrite <- Hn1.
    + intros k Hk. apply Hk2 in Hk as [Hk|Hk].
      * apply Hk1 in Hk as [Hk|Hk]; [by left |]. right. apply elem_of_app. by left.
      * right. apply elem_of_app. by right.
Qed.

(** C9.  Over any sequence of [update] calls on a well-formed tracker the
    ids handed out by [_register] are consecutive from [next_id] on: each
    one is strictly greater than those assigned before it in the run and
    than every id assigned earlier (all of which are below [next_id]); the
    ids in the track table stay pairwise distinct; and an id that was
    assigned earlier and is no longer in the table is neither assigned
    again nor back in the table. *)
Theorem c9_track_ids_unique_and_monotone
    (t : ONNXVehicleTracker) (frames : list (list Detection))
    (ids : list nat) (t' : ONNXVehicleTracker) :
  tracker_wf t ->
  updates_registering frames t = Some (ids, t') ->
  ids = seq (next_id t) (length ids) /\
  StronglySorted lt ids /\
  (forall k i, (k < next_id t)%nat -> i ∈ ids -> (k < i)%nat) /\
  next_id t' = (next_id t + length ids)%nat /\
  NoDup (PyDict.keys (objects t')) /\
  (forall k, k ∈ PyDict.keys (objects t') -> (k < next_id t')%nat) /\
  (forall k, (k < next_id t)%nat -> k ∉ PyDict.keys (objects t) ->
     (k ∉ ids) /\ (k ∉ PyDict.keys (objects t'))).
Proof.
  intros Hwf Hrun.
  destruct (updates_registering_spec frames t ids t' Hwf Hrun) as (Hwf' & Hids & Hn & Hk).
  assert (Hge : forall i, i ∈ ids -> (next_id t <= i)%nat).
  { intros i Hi. rewrite Hids in Hi. apply list_elem_of_In, in_seq in Hi. lia. }
  split; [done |]. split; [rewrite Hids; apply seq_sorted |].
  split; [intros k i Hlt Hi; apply Hge in Hi; lia |].
  split; [done |]. split; [by apply wf_NoDup |].
  split; [intros k Hk'; by apply wf_lt |].
  intros k Hlt Hnot.
  assert (Hids' : k ∉ ids) by (intros Hi; apply Hge in Hi; lia).
  split; [done |]. intros Hk'. apply Hk in Hk' as [?|?]; done.
Qed.

Lemma c9_track_ids_unique_and_monotone_witness :
  exists ids t',
    updates_registering sample_frames tracker_default = Some (ids, t') /\
    ids = seq (next_id tracker_default) (length ids) /\
    StronglySorted lt ids /\
    (forall k i, (k < next_id tracker_default)%nat -> i ∈ ids -> (k < i)%nat) /\
    next_id t' = (next_id tracker_default + length ids)%nat /\
    NoDup (PyDict.keys (objects t')) /\
    (forall k, k ∈ PyDict.keys (objects t') -> (k < next_id t')%nat) /\
    (forall k, (k < next_id tracker_default)%nat ->
       k ∉ PyDict.keys (objects tracker_default) ->
       (k ∉ ids) /\ (k ∉ PyDict.keys (objects t'))).
Proof.
  exists [0; 1]%nat, sample_tracker.
  assert (Hrun : updates_registering sample_frames tracker_default
                 = Some ([0; 1]%nat, sample_tracker)) by (vm_compute; reflexivity).
  split; [exact Hrun |].
  exact (c9_track_ids_unique_and_monotone tracker_default sample_frames [0; 1]%nat
           sample_tracker (wf_init 30 100) Hrun).
Defined.

(** ** Track lifetime (C2) *)

Lemma unmatched_step dets t id d :
  tracker_wf t -> ctr t id = Some d -> is_matched dets t id = false ->
  exists t', update dets t = Some t' /\ tracker_wf t' /\
    max_disappeared t' = max_disappeared t /\
    if (max_disappeared t <? d + 1)%Z then id ∉ PyDict.keys (objects t')
    else ctr t' id = Some (d + 1)%Z /\ id ∈ PyDict.keys (objects t').
Proof.
  intros Hwf Hd Hm.
  destruct (update_spec dets t Hwf) as (ids & t' & Hrun & Hwf' & Hc & _ & _ & _ & _ & Hb).
  exists t'. split; [by apply (update_of_registering dets t ids) |]. split; [done |].
  apply config_fields in Hc as (Hmax & _). split; [done |].
  assert (Hin : id ∈ PyDict.keys (objects t)).
  { apply obj_in_keys, (wf_ctr_obj t id Hwf). rewrite Hd. eauto. }
  unfold is_matched in Hm. apply bool_decide_eq_false_1 in Hm.
  destruct (Hb id Hin Hm) as (d' & Hd' & Hcase).
  assert (d' = d) as -> by congruence.
  destruct (max_disappeared t <? d + 1)%Z.
  - apply get_None_keys. exact Hcase.
  - destruct Hcase as [Ho Hc']. split; [done |].
    apply obj_in_keys. rewrite Ho. by apply obj_in_keys.
Qed.

Lemma unmatched_run_counter id frames t d :
  tracker_wf t -> ctr t id = Some d ->
  (d + Z.of_nat (length frames) <= max_disappeared t)%Z ->
  unmatched_run id frames t ->
  exists t', updates frames t = Some t' /\ tracker_wf t' /\
    max_disappeared t' = max_disappeared t /\
    ctr t' id = Some (d + Z.of_nat (length frames))%Z /\
    id ∈ PyDict.keys (objects t').
Proof.
  revert t d. induction frames as [|f r IH]; intros t d Hwf Hd Hle Hrun.
  - exists t. simpl. rewrite Z.add_0_r. do 4 (split; [done |]).
    apply obj_in_keys, (wf_ctr_obj t id Hwf). rewrite Hd. eauto.
  - cbn [unmatched_run] in Hrun. destruct Hrun as [Hm Hrun].
    destruct (unmatched_step f t id d Hwf Hd Hm) as (t1 & Hup & Hwf1 & Hmax1 & Hcase).
    rewrite Hup in Hrun. cbn [length] in Hle.
    destruct (Z.ltb_spec (max_disappeared t) (d + 1)%Z); [lia |].
    destruct Hcase as [Hd1 _].
    destruct (IH t1 (d + 1)%Z Hwf1 Hd1) as (t' & Hups & Hwf' & Hmax' & Hd' & Hin');
      [lia | done |].
    exists t'. cbn [updates]. rewrite Hup. simpl. split; [done |]. split; [done |].
    split; [congruence |]. split; [| done].
    rewrite Hd'. f_equal. cbn [length]. lia.
Qed.

(** Lifetime in terms of the counter.  With [max_disappeared = 30]: a
    track whose disappearance counter is [d] and that then goes unmatched
    in as many consecutive calls of [update] as bring the counter to 30
    is still in the track table after the last of them; whatever frame
    follows, if the track is unmatched in it too, that call removes the
    track.  For a track that starts the run with counter 0 (last matched,
    or registered on an empty table) these are the 30th and the 31st
    unmatched frame; for a track that starts it with counter 1 (registered
    beside other tracks) they are the 29th and the 30th. *)
Lemma track_lifetime_from_counter
    (t : ONNXVehicleTracker) (id : nat) (d : Z) (frames : list (list Detection)) :
  tracker_wf t ->
  max_disappeared t = 30%Z ->
  ctr t id = Some d ->
  (d + Z.of_nat (length frames) = 30)%Z ->
  unmatched_run id frames t ->
  exists t30,
    updates frames t = Some t30 /\
    id ∈ PyDict.keys (objects t30) /\
    ctr t30 id = Some 30%Z /\
    forall frame31,
      is_matched frame31 t30 id = false ->
      exists t31, update frame31 t30 = Some t31 /\ id ∉ PyDict.keys (objects t31).
Proof.
  intros Hwf Hmax Hd Hlen Hrun.
  destruct (unmatched_run_counter id frames t d Hwf Hd) as (t30 & Hups & Hwf30 & Hmax30 & Hd30 & Hin30);
    [rewrite Hmax; lia | done |].
  rewrite Hlen in Hd30.
  exists t30. split; [done |]. split; [done |]. split; [done |].
  intros frame31 Hm.
  destruct (unmatched_step frame31 t30 id _ Hwf30 Hd30 Hm) as (t31 & Hup & _ & _ & Hcase).
  exists t31. split; [done |].
  rewrite Hmax30, Hmax in Hcase. exact Hcase.
Qed.

(** A track matched in the last frame of [sample_frames] (counter 0), then
    a frame with a far-away detection and 29 empty frames. *)
Lemma track_lifetime_from_counter_example :
  exists t30,
    updates ([sample_detection 900 900] :: repeat [] 29) sample_tracker = Some t30 /\
    0%nat ∈ PyDict.keys (objects t30) /\
    ctr t30 0 = Some 30%Z /\
    forall frame31,
      is_matched frame31 t30 0 = false ->
      exists t31, update frame31 t30 = Some t31 /\ 0%nat ∉ PyDict.keys (objects t31).
Proof.
  apply (track_lifetime_from_counter sample_tracker 0 0
           ([sample_detection 900 900] :: repeat [] 29)).
  - apply reachable_wf, sample_tracker_reachable.
  - reflexivity.
  - vm_compute. reflexivity.
  - reflexivity.
  - vm_compute. repeat split.
Defined.

(** C2.  With [max_disappeared = 30], the lifetime of an unmatched track
    on the calls [sample_frames] followed by empty frames.  The second
    call of [update] matches track 0 and registers track 1 beside it; its
    closing loop over the table visits the track it has just registered,
    so track 1 leaves the call with counter 1 where track 0 has 0.  Both
    tracks are then unmatched in every following frame.  Track 0 is still
    in the table after the 30th of them and is removed during the 31st,
    as the specification has it; track 1 is in the table after the 29th,
    with counter 30, and is removed during the 30th. *)
Theorem c2_track_registered_beside_others_removed_at_30 :
  max_disappeared tracker_default = 30%Z /\
  updates_registering sample_frames tracker_default
    = Some ([0%nat; 1%nat], sample_tracker) /\
  ctr sample_tracker 0 = Some 0%Z /\
  ctr sample_tracker 1 = Some 1%Z /\
  unmatched_run 1 (repeat [] 30) sample_tracker /\
  unmatched_run 0 (repeat [] 31) sample_tracker /\
  (exists t29, updates (repeat [] 29) sample_tracker = Some t29 /\
     is_Some (obj t29 1) /\ ctr t29 1 = Some 30%Z) /\
  (exists t30, updates (repeat [] 30) sample_tracker = Some t30 /\
     obj t30 1 = None /\ is_Some (obj t30 0) /\ ctr t30 0 = Some 30%Z) /\
  (exists t31, updates (repeat [] 31) sample_tracker = Some t31 /\
     obj t31 0 = None).
Proof.
  split; [reflexivity |].
  split; [vm_compute; reflexivity |].
  split; [vm_compute; reflexivity |].
  split; [vm_compute; reflexivity |].
  split; [vm_compute; repeat split |].
  split; [vm_compute; repeat split |].
  split.
  { eexists. split; [vm_compute; reflexivity |].
    split; [vm_compute; eauto | vm_compute; reflexivity]. }
  split.
  { eexists. split; [vm_compute; reflexivity |]. split; [vm_compute; reflexivity |].
    split; [vm_compute; eauto | vm_compute; reflexivity]. }
  eexists. split; [vm_compute; reflexivity |]. vm_compute; reflexivity.
Qed.

(** ** Smoothing on a match (C8) *)

Lemma py_int_close (q : Q) : Qabs (q - inject_Z (py_int q)) < 1.
Proof.
  destruct q as [n d]. unfold py_int. cbn [Qnum Qden].
  pose proof (Z.quot_rem' n (Zpos d)) as Hqr.
  pose proof (Z.rem_bound_abs n (Zpos d)) as Hb.
  assert (Hlt : (Z.abs (Z.rem n (Zpos d)) < Zpos d)%Z) by (apply Hb; lia).
  set (z := Z.quot n (Zpos d)) in *. set (r := Z.rem n (Zpos d)) in *.
  apply Qabs_Qlt_condition. unfold Qlt, Qminus, Qplus, Qopp, inject_Z.
  cbn [Qnum Qden]. rewrite !Pos.mul_1_r.
  split; nia.
Qed.

Lemma smooth_coord_close alpha old new :
  Qabs (old * (1 - alpha) + new * alpha - smooth_coord alpha old new) < 1.
Proof. unfold smooth_coord. apply py_int_close. Qed.




(** ** Zone counting (C5, C10) *)

Lemma check_zone_counting_recorded t id pts e :
  id ∉ counted_ids t -> traj t id = Some pts -> (5 <= length pts)%nat ->
  zone_entry t id = Some e ->
  check_zone_counting id t =
    if Qle_bool (min_movement_to_count t) (snd (List.last pts (0, 0)) - e)
    then (true, set_counted_ids t ({[id]} ∪ counted_ids t))
    else (false, t).
Proof.
  intros Hc Ht Hlen He. unfold check_zone_counting, traj, zone_entry in *.
  rewrite bool_decide_eq_false_2 by done. rewrite Ht.
  destruct (Nat.ltb_spec (length pts) 5); [lia |].
  unfold PyDict.mem. rewrite He. rewrite He. done.
Qed.

Lemma check_zone_counting_first t id pts :
  id ∉ counted_ids t -> traj t id = Some pts -> (5 <= length pts)%nat ->
  zone_entry t id = None ->
  let e := snd (hd (0, 0) pts) in
  let t1 := set_zone_entry_positions t (PyDict.set id e (zone_entry_positions t)) in
  check_zone_counting id t =
    if Qle_bool (min_movement_to_count t) (snd (List.last pts (0, 0)) - e)
    then (true, set_counted_ids t1 ({[id]} ∪ counted_ids t))
    else (false, t1).
Proof.
  intros Hc Ht Hlen He. unfold check_zone_counting, traj, zone_entry in *.
  rewrite bool_decide_eq_false_2 by done. rewrite Ht.
  destruct (Nat.ltb_spec (length pts) 5); [lia |].
  unfold PyDict.mem. rewrite He. simpl. rewrite get_set_eq. done.
Qed.

(** The boundary on any tracker state: once the track holds five points
    and its entry y is 300, with a threshold of 50, the check answers
    [True] exactly from a current y of 350 on. *)
Lemma zone_counting_boundary
    (t : ONNXVehicleTracker) (id : nat) (pts : list Point) (e : Q) :
  id ∉ counted_ids t ->
  traj t id = Some pts ->
  (5 <= length pts)%nat ->
  zone_entry t id = Some e ->
  e == 300 ->
  min_movement_to_count t == 50 ->
  let current_y := snd (List.last pts (0, 0)) in
  (fst (check_zone_counting id t) = true <-> 350 <= current_y) /\
  (current_y == 349 -> check_zone_counting id t = (false, t)) /\
  (current_y == 350 ->
     fst (check_zone_counting id t) = true /\
     id ∈ counted_ids (snd (check_zone_counting id t))) /\
  (current_y <= 300 -> check_zone_counting id t = (false, t)).
Proof.
  intros Hc Ht Hlen He He300 Hmin current_y.
  rewrite (check_zone_counting_recorded t id pts e) by done.
  fold current_y.
  destruct (Qle_bool (min_movement_to_count t) (current_y - e)) eqn:Hle.
  - apply Qle_bool_iff in Hle. rewrite He300, Hmin in Hle.
    split; [split; [intros _; lra | done] |].
    split; [intros Hy; rewrite Hy in Hle; lra |].
    split; [intros _; split; [done | simpl; set_solver] |].
    intros Hy. lra.
  - assert (Hnle : ~ min_movement_to_count t <= current_y - e).
    { intros H. apply Qle_bool_iff in H. congruence. }
    rewrite He300, Hmin in Hnle.
    split; [split; [done | intros Hy; exfalso; apply Hnle; lra] |].
    split; [done |].
    split; [intros Hy; exfalso; apply Hnle; rewrite Hy; lra | done].
Qed.

(** Fewer than five points: nothing happens.  The entry map changes only
    in a call that sees five points and no entry yet. *)
Lemma check_zone_counting_few_points (t : ONNXVehicleTracker) (id : nat) :
  (match traj t id with
   | Some pts => (length pts < 5)%nat
   | None => True
   end ->
   check_zone_counting id t = (false, t)) /\
  (zone_entry (snd (check_zone_counting id t)) id <> zone_entry t id ->
   exists pts, traj t id = Some pts /\ (5 <= length pts)%nat /\
     zone_entry t id = None /\
     zone_entry (snd (check_zone_counting id t)) id = Some (snd (hd (0, 0) pts))).
Proof.
  assert (Hfew : match traj t id with
                 | Some pts => (length pts < 5)%nat
                 | None => True
                 end -> check_zone_counting id t = (false, t)).
  { unfold check_zone_counting, traj. intros H.
    destruct (bool_decide (id ∈ counted_ids t)); [done |].
    destruct (PyDict.get id (trajectory_points t)) as [pts|]; [| done].
    destruct (Nat.ltb_spec (length pts) 5); [done | lia]. }
  split; [exact Hfew |].
  intros Hchg.
  destruct (decide (id ∈ counted_ids t)) as [Hc|Hc].
  { exfalso. apply Hchg. unfold check_zone_counting.
    by rewrite bool_decide_eq_true_2. }
  destruct (traj t id) as [pts|] eqn:Ht.
  2:{ exfalso. apply Hchg. by rewrite Hfew. }
  destruct (Nat.lt_ge_cases (length pts) 5) as [Hlt|Hge].
  { exfalso. apply Hchg. by rewrite Hfew. }
  destruct (zone_entry t id) as [e|] eqn:He.
  { exfalso. apply Hchg. rewrite (check_zone_counting_recorded t id pts e) by done.
    destruct (Qle_bool _ _); simpl; unfold zone_entry in *; simpl; by rewrite He. }
  exists pts. do 3 (split; [done |]).
  rewrite (check_zone_counting_first t id pts) by done.
  destruct (Qle_bool _ _); unfold zone_entry; simpl; by rewrite get_set_eq.
Qed.

(** ** Counting is idempotent (C1) *)

Lemma for_each_rel {A S} (f : A -> S -> option S) (R : S -> S -> Prop) l s s' :
  (forall x, R x x) -> (forall x y z, R x y -> R y z -> R x z) ->
  (forall a x y, f a x = Some y -> R x y) ->
  for_each f l s = Some s' -> R s s'.
Proof.
  intros Hrefl Htrans Hstep. revert s. induction l as [|a l IH]; intros s; simpl.
  - intros [= <-]. apply Hrefl.
  - destruct (f a s) as [s1|] eqn:Hf; [| done]. intros H.
    eapply Htrans; [by eapply Hstep | by apply IH].
Qed.

Lemma mark_disappeared_config id t t' : mark_disappeared id t = Some t' -> config t' = config t.
Proof.
  unfold mark_disappeared. destruct (PyDict.get id (disappeared t)); [| done].
  intros [= <-]. by case_match.
Qed.

Lemma match_object_config dets centers e st st' :
  match_object dets centers e st = Some st' -> config st'.1.1 = config st.1.1.
Proof.
  destruct st as [[t md] mo], e as [id c]. unfold match_object.
  repeat case_match; try done; intros [= <-]; done.
Qed.

Lemma register_unmatched_config md i dets t :
  config (snd (register_unmatched md i dets t)) = config t.
Proof.
  revert i t. induction dets as [|det dets IH]; intros i t; cbn [register_unmatched]; [done |].
  destruct (bool_decide (i ∈ md)); [apply IH |].
  destruct (_register det t) as [id t1] eqn:Hreg.
  specialize (IH (S i) t1). destruct (register_unmatched md (S i) dets t1) as [ids t2].
  simpl in *. rewrite IH. replace t1 with (snd (_register det t)) by (by rewrite Hreg).
  apply register_config.
Qed.

(** [update] never touches the counting state, whatever the tracker. *)
Lemma update_config_any dets t t' : update dets t = Some t' -> config t' = config t.
Proof.
  intros Hup. apply update_Some in Hup as [ids Hup].
  unfold update_registering, update_with in Hup.
  destruct dets as [|det0 dets0].
  - destruct (for_each mark_disappeared _ t) as [t1|] eqn:Hloop; [| done].
    simpl in Hup. injection Hup as _ <-.
    apply (for_each_rel mark_disappeared (fun x y => config y = config x)) in Hloop; try done.
    + intros x y z Hxy Hyz. by rewrite Hyz.
    + intros a x y. apply mark_disappeared_config.
  - set (dets := det0 :: dets0) in *.
    destruct (Nat.eqb (PyDict.len (objects t)) 0).
    + assert (Hr : register_unmatched ∅ 0 dets t = (ids, t')) by congruence.
      rewrite <- (register_unmatched_config ∅ 0 dets t). by rewrite Hr.
    + unfold match_phase in Hup.
      destruct (for_each _ (object_entries t) _) as [[[t1 md] mo]|] eqn:Hloop; [| done].
      cbn [mbind option_bind] in Hup.
      pose proof (register_unmatched_config md 0 dets t1) as Hreg.
      destruct (register_unmatched md 0 dets t1) as [ids2 t2].
      unfold handle_disappeared in Hup.
      destruct (for_each _ (PyDict.keys (objects t2)) t2) as [t3|] eqn:Hloop3; [| done].
      cbn [mbind option_bind] in Hup. assert (t3 = t') as -> by congruence.
      cbn [snd] in Hreg.
      apply (for_each_rel _ (fun x y => config y.1.1 = config x.1.1)) in Hloop; try done.
      2:{ intros x y z Hxy Hyz. by rewrite Hyz. }
      2:{ intros a x y. apply match_object_config. }
      apply (for_each_rel _ (fun x y => config y = config x)) in Hloop3; try done.
      2:{ intros x y z Hxy Hyz. by rewrite Hyz. }
      2:{ intros a x y. case_match; [by intros [= <-] | apply mark_disappeared_config]. }
      cbn [fst] in Hloop. by rewrite Hloop3, Hreg.
Qed.

Lemma check_zone_counting_counted id t :
  id ∈ counted_ids t -> check_zone_counting id t = (false, t).
Proof. intros H. unfold check_zone_counting. by rewrite bool_decide_eq_true_2. Qed.

Lemma check_line_crossing_crossed id line_y t :
  id ∈ crossed_ids t -> check_line_crossing id line_y t = (false, t).
Proof. intros H. unfold check_line_crossing. by rewrite bool_decide_eq_true_2. Qed.

Lemma check_zone_counting_sets id t :
  let r := check_zone_counting id t in
  if fst r then (id ∉ counted_ids t) /\ counted_ids (snd r) = {[id]} ∪ counted_ids t
  else counted_ids (snd r) = counted_ids t.
Proof.
  unfold check_zone_counting.
  destruct (decide (id ∈ counted_ids t)) as [Hc|Hc].
  { by rewrite bool_decide_eq_true_2. }
  rewrite bool_decide_eq_false_2 by done.
  repeat case_match; simpl; try done; repeat case_match; simpl in *; try done.
Qed.

Lemma check_line_crossing_sets id line_y t :
  let r := check_line_crossing id line_y t in
  if fst r then (id ∉ crossed_ids t) /\ crossed_ids (snd r) = {[id]} ∪ crossed_ids t
  else crossed_ids (snd r) = crossed_ids t.
Proof.
  unfold check_line_crossing.
  destruct (decide (id ∈ crossed_ids t)) as [Hc|Hc].
  { by rewrite bool_decide_eq_true_2. }
  rewrite bool_decide_eq_false_2 by done.
  repeat case_match; simpl; done.
Qed.

Lemma count_zone_step_ok st id :
  lane_enabled st.1 = true -> count_step_ok st (count_zone_step st id) id.
Proof.
  destruct st as [d log]. simpl. intros Hlane. unfold count_zone_step, count_step_ok.
  case_match; [split; [done | by left] |].
  pose proof (check_zone_counting_sets id (tracker d)) as Hsets.
  destruct (check_zone_counting id (tracker d)) as [counted t1]. simpl in Hsets.
  unfold counted_set. destruct counted; simpl; rewrite Hlane.
  - destruct Hsets as [Hn Heq]. split; [done |]. right. done.
  - split; [done |]. by left.
Qed.

Lemma count_line_step_ok line_y st id :
  lane_enabled st.1 = false -> count_step_ok st (count_line_step line_y st id) id.
Proof.
  destruct st as [d log]. simpl. intros Hlane. unfold count_line_step, count_step_ok.
  case_match; [split; [done | by left] |].
  case_match; [split; [done | by left] |].
  pose proof (check_line_crossing_sets id line_y (tracker d)) as Hsets.
  destruct (check_line_crossing id line_y (tracker d)) as [counted t1]. simpl in Hsets.
  unfold counted_set. destruct counted; simpl; rewrite Hlane.
  - destruct Hsets as [Hn Heq]. split; [done |]. right. done.
  - split; [done |]. by left.
Qed.

Lemma count_run_ok_refl st : count_run_ok st st.
Proof.
  split; [done |]. exists []. rewrite app_nil_r. simpl.
  split; [done |]. split; [lia |]. split; [constructor |].
  split; [intros id H; inversion H | set_solver].
Qed.

Lemma count_run_ok_trans st1 st2 st3 :
  count_run_ok st1 st2 -> count_run_ok st2 st3 -> count_run_ok st1 st3.
Proof.
  intros [Hl1 (n1 & Hlog1 & Hv1 & Hnd1 & Hnew1 & Hset1)]
         [Hl2 (n2 & Hlog2 & Hv2 & Hnd2 & Hnew2 & Hset2)].
  split; [congruence |]. exists (n1 ++ n2).
  split; [by rewrite Hlog2, Hlog1, app_assoc |].
  split; [rewrite length_app; lia |].
  rewrite map_app. split.
  - apply NoDup_app. split; [done |]. split; [| done].
    intros id H1 H2. apply Hnew2 in H2. apply H2, Hset1. by right.
  - split.
    + intros id H. apply elem_of_app in H as [H|H]; [by apply Hnew1 |].
      apply Hnew2 in H. intros Hc. apply H, Hset1. by left.
    + intros id. rewrite Hset2, Hset1, elem_of_app. tauto.
Qed.

Lemma count_step_run st st' id : count_step_ok st st' id -> count_run_ok st st'.
Proof.
  intros [Hl [(Hset & Hlog & Hv)|(Hn & Hset & Hlog & Hv)]]; split; try done.
  - exists []. rewrite app_nil_r. simpl. split; [done |]. split; [lia |].
    split; [constructor |]. split; [intros ? H; inversion H |]. rewrite Hset. set_solver.
  - eexists. split; [exact Hlog |]. simpl. split; [lia |].
    split; [apply NoDup_singleton |]. split; [set_solver |]. rewrite Hset. set_solver.
Qed.

Lemma count_tracked_ok line_y d :
  count_run_ok (d, []) (count_tracked line_y d).
Proof.
  unfold count_tracked.
  assert (Hz : forall ids st, lane_enabled st.1 = true ->
             count_run_ok st (fold_left count_zone_step ids st)).
  { induction ids as [|id ids IH]; intros st Hl; simpl; [apply count_run_ok_refl |].
    pose proof (count_zone_step_ok st id Hl) as Hs.
    eapply count_run_ok_trans; [by eapply count_step_run |].
    apply IH. destruct Hs as [-> _]. done. }
  assert (Hln : forall ids st, lane_enabled st.1 = false ->
             count_run_ok st (fold_left (count_line_step line_y) ids st)).
  { induction ids as [|id ids IH]; intros st Hl; simpl; [apply count_run_ok_refl |].
    pose proof (count_line_step_ok line_y st id Hl) as Hs.
    eapply count_run_ok_trans; [by eapply count_step_run |].
    apply IH. destruct Hs as [-> _]. done. }
  destruct (lane_enabled d) eqn:Hl; [by apply Hz | by apply Hln].
Qed.

Lemma process_frame_ok h dets d d' log :
  process_frame h dets d = Some (d', log) -> count_run_ok (d, []) (d', log).
Proof.
  unfold process_frame. destruct (update dets (tracker d)) as [t1|] eqn:Hup; [| done].
  cbn [mbind option_bind].
  set (line_y := match count_line_y d with Some y => y | None => _ end).
  set (d1 := mkDetector t1 _ _ _ _ _ _).
  pose proof (count_tracked_ok line_y d1) as Hrun.
  destruct (count_tracked line_y d1) as [d2 log2]. intros [= <- <-].
  apply update_config_any, config_fields in Hup as (_ & _ & _ & _ & Hcr & Hco & _).
  destruct Hrun as [Hl (new & Hlog & Hv & Hnd & Hnew & Hset)]. simpl in *.
  split; [done |]. exists new. simpl. split; [done |]. split; [done |]. split; [done |].
  unfold counted_set in *. simpl in *. rewrite Hl in *. subst d1. simpl in *.
  rewrite Hcr, Hco in *. done.
Qed.

Lemma process_frames_ok h frames d d' log :
  process_frames h frames d = Some (d', log) -> count_run_ok (d, []) (d', log).
Proof.
  revert d d' log. induction frames as [|f r IH]; intros d d' log; simpl.
  - intros [= <- <-]. apply count_run_ok_refl.
  - destruct (process_frame h f d) as [[d1 log1]|] eqn:Hf; [| done]. simpl.
    destruct (process_frames h r d1) as [[d2 log2]|] eqn:Hr; [| done]. simpl.
    intros [= <- <-].
    apply process_frame_ok in Hf. apply IH in Hr.
    eapply count_run_ok_trans; [exact Hf |].
    destruct Hr as [Hl (new & Hlog & Hv & Hnd & Hnew & Hset)]. simpl in *.
    split; [done |]. exists new. simpl. by rewrite Hlog.
Qed.

(** C1.  For an id already in the counted set (zone strategy) or in the
    crossed set (line strategy), the strategy's check returns [False] and
    leaves the tracker unchanged; and over any further frames processed by
    [process_frame] no count message is logged for that id: the total
    rises by exactly the number of messages, each for a different id that
    was not counted before, and the id stays in the set. *)
Theorem c1_counting_is_idempotent
    (d : ONNXTrafficDetector) (id : nat) (frame_height : Z)
    (frames : list (list Detection)) (d' : ONNXTrafficDetector) (log : list CountEvent) :
  id ∈ counted_set d ->
  process_frames frame_height frames d = Some (d', log) ->
  (id ∈ counted_ids (tracker d) ->
     check_zone_counting id (tracker d) = (false, tracker d)) /\
  (id ∈ crossed_ids (tracker d) ->
     forall line_y, check_line_crossing id line_y (tracker d) = (false, tracker d)) /\
  (id ∉ map fst log) /\
  vehicle_count d' = (vehicle_count d + Z.of_nat (length log))%Z /\
  NoDup (map fst log) /\
  id ∈ counted_set d'.
Proof.
  intros Hin Hrun. split; [apply check_zone_counting_counted |].
  split; [intros H line_y; by apply check_line_crossing_crossed |].
  apply process_frames_ok in Hrun as [_ (new & Hlog & Hv & Hnd & Hnew & Hset)].
  simpl in *. subst new.
  split; [intros H; by apply Hnew in H |].
  split; [done |]. split; [done |]. apply Hset. by left.
Qed.

Lemma c1_counting_is_idempotent_witness :
  0%nat ∈ counted_set counted_detector /\
  exists d' log,
    process_frames 480 (driving_frames 160 20 10) counted_detector = Some (d', log) /\
    (0%nat ∉ map fst log) /\
    vehicle_count d' = (vehicle_count counted_detector + Z.of_nat (length log))%Z /\
    NoDup (map fst log) /\
    0%nat ∈ counted_set d'.
Proof.
  assert (Hin : 0%nat ∈ counted_set counted_detector).
  { apply (bool_decide_unpack _). vm_compute. exact I. }
  split; [exact Hin |].
  destruct (process_frames 480 (driving_frames 160 20 10) counted_detector)
    as [[d' log]|] eqn:Hrun; [| vm_compute in Hrun; discriminate].
  exists d', log. split; [reflexivity |].
  exact (proj2 (proj2 (c1_counting_is_idempotent counted_detector 0 480
                         (driving_frames 160 20 10) d' log Hin Hrun))).
Defined.

(** ** Stability gate (C6) *)

Lemma count_true_le (l : list bool) : (count_true l <= length l)%nat.
Proof. unfold count_true. apply length_filter. Qed.

Lemma py_suffix_length {A} (n : nat) (l : list A) :
  (0 < n <= length l)%nat -> length (py_suffix n l) = n.
Proof.
  intros H. unfold py_suffix. destruct (Nat.eqb_spec n 0); [lia |].
  rewrite length_drop. lia.
Qed.

Lemma rate_of_three (l : list bool) :
  length l = 3%nat ->
  Qltb (inject_Z (Z.of_nat (count_true l)) / Qlen l) (6 # 10)
    = negb (2 <=? count_true l)%nat.
Proof.
  intros Hlen. pose proof (count_true_le l) as Hle. unfold Qlen. rewrite Hlen in *.
  destruct (count_true l) as [|[|[|[|n]]]]; try reflexivity. lia.
Qed.

Lemma rate_of_five (l : list bool) :
  length l = 5%nat ->
  Qltb (inject_Z (Z.of_nat (count_true l)) / Qlen l) (6 # 10)
    = negb (3 <=? count_true l)%nat.
Proof.
  intros Hlen. pose proof (count_true_le l) as Hle. unfold Qlen. rewrite Hlen in *.
  destruct (count_true l) as [|[|[|[|[|[|n]]]]]]; try reflexivity. lia.
Qed.

(** C6 (as amended).  The detection rate is taken over the
    [min_tracklet_frames] most recent samples, which [__init__] sets to 3,
    not 5.  With [stability_ratio = 0.6] an update always completes, and
    afterwards [stable] holds exactly when the history holds a full
    window, at least [k] samples of the window are detections, and the
    confidence, position and current-quality criteria pass, where [k] is
    2 for the window of 3 (and 3 if the window is set to 5).  With fewer
    than [k] detections in the window the result is unstable. *)
Theorem c6_stability_threshold_over_window
    (g : StabilityGate) (n k : nat) (frame_has_detection : bool)
    (samples : list GateSample) :
  (n = 3%nat /\ k = 2%nat) \/ (n = 5%nat /\ k = 3%nat) ->
  min_tracklet_frames g = n ->
  stability_ratio g = 6 # 10 ->
  exists g',
    gate_update frame_has_detection samples g = Some g' /\
    let window := py_suffix n (ambulance_detection_history g') in
    ambulance_stable g' =
      (n <=? length (ambulance_detection_history g'))%nat
      && (k <=? count_true window)%nat
      && confidence_consistent g' && position_stable g'
      && current_quality_ok (map final_confidence samples) /\
    ((count_true window < k)%nat -> ambulance_stable g' = false).
Proof.
  intros Hnk Hn Hr. unfold gate_update.
  set (dh := deque_append 20 (ambulance_detection_history g) frame_has_detection).
  set (ch := fold_left _ samples (ambulance_confidence_history g)).
  set (ph := fold_left _ samples (ambulance_position_history g)).
  set (g1 := mkGate dh ch ph _ _ _ _ _).
  assert (Hstable : exists b, _is_enhanced_stable_detection g1 (map final_confidence samples)
                      = Some b /\
            b = (n <=? length dh)%nat && (k <=? count_true (py_suffix n dh))%nat
                && confidence_consistent g1 && position_stable g1
                && current_quality_ok (map final_confidence samples)).
  { unfold _is_enhanced_stable_detection. cbn [ambulance_detection_history g1
      min_tracklet_frames stability_ratio]. rewrite Hn, Hr.
    destruct (Nat.ltb_spec (length dh) n) as [Hlt|Hge].
    - exists false. split; [done |].
      destruct (Nat.leb_spec n (length dh)); [lia | done].
    - destruct (Nat.leb_spec n (length dh)); [| lia].
      assert (Hlen : length (py_suffix n dh) = n).
      { apply py_suffix_length. destruct Hnk as [[-> _]|[-> _]]; lia. }
      assert (Hrate : Qltb (inject_Z (Z.of_nat (count_true (py_suffix n dh)))
                            / Qlen (py_suffix n dh)) (6 # 10)
                      = negb (k <=? count_true (py_suffix n dh))%nat).
      { destruct Hnk as [[-> ->]|[-> ->]]; [by apply rate_of_three | by apply rate_of_five]. }
      rewrite Hlen.
      assert (Hn0 : Nat.eqb n 0 = false) by (destruct Hnk as [[-> _]|[-> _]]; done).
      rewrite Hn0, Hrate.
      destruct (k <=? count_true (py_suffix n dh))%nat; cbn [negb andb]; [| by eexists].
      destruct (confidence_consistent g1); cbn [negb andb]; [| by eexists].
      destruct (position_stable g1); cbn [negb andb]; [| by eexists].
      destruct (current_quality_ok _); cbn [negb andb]; by eexists. }
  destruct Hstable as (b & Hb & Hbeq). rewrite Hb. cbn [mbind option_bind].
  eexists. split; [reflexivity |]. cbn [ambulance_detection_history ambulance_stable].
  split; [exact Hbeq |].
  intros Hle. rewrite Hbeq.
  destruct (Nat.leb_spec k (count_true (py_suffix n dh))); [lia |].
  by rewrite andb_false_r.
Qed.

Lemma c6_stability_threshold_over_window_witness :
  exists g',
    gate_update false [] gate_three_then_miss = Some g' /\
    let window := py_suffix 3 (ambulance_detection_history g') in
    ambulance_stable g' =
      (3 <=? length (ambulance_detection_history g'))%nat
      && (2 <=? count_true window)%nat
      && confidence_consistent g' && position_stable g'
      && current_quality_ok (map final_confidence []) /\
    ((count_true window < 2)%nat -> ambulance_stable g' = false).
Proof.
  apply (c6_stability_threshold_over_window gate_three_then_miss 3 2 false []);
    [left; split; reflexivity | reflexivity | reflexivity].
Defined.

(** With the gate of [__init__]: 3 detections among the last 5 samples
    and yet unstable, because only 1 of the last 3 is one; 2 among the
    last 5 and yet stable, because both are among the last 3; and 3 among
    the last 5, all of the last 3, and yet unstable, because the current
    detection is too weak. *)
Lemma c6_counterexample :
  (exists g', gate_update false [] gate_three_then_miss = Some g' /\
              ~ stable_by_three_of_five g') /\
  (exists g', gate_update true [strong_sample] gate_miss_then_hit = Some g' /\
              ~ stable_by_three_of_five g') /\
  (exists g', gate_update true [weak_sample] gate_two_hits = Some g' /\
              ~ stable_by_three_of_five g').
Proof.
  split; [| split]; (eexists; split; [vm_compute; reflexivity |]); intros H.
  - destruct H as [H _]; [reflexivity |]. specialize (H eq_refl). discriminate.
  - destruct H as [_ H]; [reflexivity |]. specialize (H eq_refl). discriminate.
  - destruct H as [H _]; [reflexivity |]. specialize (H eq_refl). discriminate.
Qed.

(** ** Decoder errors (C3) *)





(** ** Non-maximum suppression (C4) *)

Lemma Qltb_lt a b : Qltb a b = true <-> a < b.
Proof.
  unfold Qltb. rewrite negb_true_iff. split.
  - intros H. apply Qnot_le_lt. intros Hle. apply Qle_bool_iff in Hle. congruence.
  - intros H. destruct (Qle_bool b a) eqn:E; [| done].
    apply Qle_bool_iff in E. exfalso. by apply (Qlt_not_le a b).
Qed.

Lemma Qltb_proper a a' b b' : a == a' -> b == b' -> Qltb a b = Qltb a' b'.
Proof.
  intros Ha Hb. apply eq_true_iff_eq. rewrite !Qltb_lt. by rewrite Ha, Hb.
Qed.

Lemma Qle_bool_proper a a' b b' : a == a' -> b == b' -> Qle_bool a b = Qle_bool a' b'.
Proof.
  intros Ha Hb. apply eq_true_iff_eq. rewrite !Qle_bool_iff. by rewrite Ha, Hb.
Qed.

Lemma Qeq_bool_proper a a' b b' : a == a' -> b == b' -> Qeq_bool a b = Qeq_bool a' b'.
Proof.
  intros Ha Hb. apply eq_true_iff_eq. rewrite !Qeq_bool_iff. by rewrite Ha, Hb.
Qed.

Lemma np_div_proper a a' b b' : a == a' -> b == b' -> fval_eqv (np_div a b) (np_div a' b').
Proof.
  intros Ha Hb. unfold np_div.
  rewrite (Qeq_bool_proper b b' 0 0), (Qltb_proper 0 0 a a'), (Qltb_proper a a' 0 0);
    try done.
  repeat case_match; simpl; try done. by rewrite Ha, Hb.
Qed.

Lemma fval_le_proper u v thr : fval_eqv u v -> fval_le u thr = fval_le v thr.
Proof.
  destruct u, v; simpl; try done. intros H. by apply Qle_bool_proper.
Qed.

Lemma fval_gt_proper u v thr : fval_eqv u v -> fval_gt u thr = fval_gt v thr.
Proof.
  destruct u, v; simpl; try done. intros H. by apply Qltb_proper.
Qed.

Lemma fval_gt_not_le v thr : fval_gt v thr = true -> fval_le v thr = false.
Proof.
  destruct v; simpl; try done. unfold Qltb. by rewrite negb_true_iff.
Qed.

Lemma iou_pair_sym a b : fval_eqv (iou_pair a b) (iou_pair b a).
Proof.
  unfold iou_pair.
  assert (Hi : Qmax 0 (Qmin (bx2 a) (bx2 b) - Qmax (bx1 a) (bx1 b))
               * Qmax 0 (Qmin (by2 a) (by2 b) - Qmax (by1 a) (by1 b))
            == Qmax 0 (Qmin (bx2 b) (bx2 a) - Qmax (bx1 b) (bx1 a))
               * Qmax 0 (Qmin (by2 b) (by2 a) - Qmax (by1 b) (by1 a))).
  { rewrite (Q.min_comm (bx2 a)), (Q.max_comm (bx1 a)),
            (Q.min_comm (by2 a)), (Q.max_comm (by1 a)). reflexivity. }
  apply np_div_proper; [exact Hi |]. rewrite Hi. ring.
Qed.

(** The loop on two boxes of which the second overlaps the first too much. *)
Lemma nms_two hi lo ihi ilo thr :
  fval_gt (iou_pair hi lo) thr = true ->
  nms_loop 2 thr [hi; lo] [ihi; ilo] [] = [ihi].
Proof.
  intros H. apply fval_gt_not_le in H. cbn [nms_loop length Nat.eqb app].
  cbn [bbox_iou map hd]. rewrite H. reflexivity.
Qed.

Lemma argsort_insert_perm scores i l : Permutation (argsort_insert scores i l) (i :: l).
Proof.
  induction l as [|j r IH]; simpl; [done |].
  destruct (Qltb _ _); [done |]. rewrite IH. apply perm_swap.
Qed.

Lemma argsort_fold_perm scores l acc :
  Permutation (fold_left (fun sorted i => argsort_insert scores i sorted) l acc) (acc ++ l).
Proof.
  revert acc. induction l as [|a l IH]; intros acc; simpl.
  - by rewrite app_nil_r.
  - rewrite IH, argsort_insert_perm. simpl. by rewrite Permutation_middle.
Qed.

Lemma argsort_perm scores : Permutation (argsort scores) (seq 0 (length scores)).
Proof. unfold argsort. by rewrite argsort_fold_perm. Qed.

Lemma compress_all_true {A} (mask : list bool) (l : list A) :
  length mask = length l -> Forall (fun m => m = true) mask -> compress mask l = l.
Proof.
  revert l. induction mask as [|m ms IH]; intros [|x xs]; simpl; try done.
  intros [= Hlen] Hall. inversion Hall; subst. by rewrite IH.
Qed.

Lemma nms_loop_all_pass thr bs : forall os keep fuel,
  length os = length bs -> (length bs <= fuel)%nat -> all_pass thr bs ->
  nms_loop fuel thr bs os keep = keep ++ os.
Proof.
  induction bs as [|b r IH]; intros os keep fuel Hlen Hfuel Hpass.
  - destruct os; [| done]. rewrite app_nil_r. by destruct fuel.
  - destruct os as [|o ors]; [done |]. destruct fuel as [|fuel]; [simpl in Hfuel; lia |].
    simpl in Hlen, Hfuel. injection Hlen as Hlen. destruct Hpass as [Hhead Hpass].
    cbn [nms_loop]. destruct (Nat.eqb_spec (length (b :: r)) 1) as [H1|H1].
    + assert (r = []) as -> by (destruct r; simpl in *; [done | lia]).
      destruct ors; [done | simpl in Hlen; lia].
    + unfold bbox_iou. cbn [map hd].
      assert (Hmask : Forall (fun m => m = true)
                (map (fun v => fval_le v thr) (map (fun b' => iou_pair b b') r))).
      { rewrite List.Forall_map. rewrite List.Forall_map.
        eapply Forall_impl; [exact Hhead | done]. }
      rewrite !compress_all_true; try done; try (by rewrite !length_map).
      rewrite IH; [by rewrite <- app_assoc | done | lia | done].
Qed.

Lemma disjoint_all_pass thr boxes order bs :
  0 <= thr -> pairwise_disjoint boxes -> NoDup order ->
  Forall2 (fun i b => boxes !! i = Some b) order bs ->
  all_pass thr bs.
Proof.
  intros Hthr Hdis Hnd HF. induction HF as [|i b order' bs' Hib HF' IH]; simpl; [done |].
  apply NoDup_cons in Hnd as [Hi Hnd]. split; [| by apply IH].
  apply List.Forall_forall. intros b' Hb'. apply list_elem_of_In in Hb'.
  apply list_elem_of_lookup in Hb' as [p Hp].
  destruct (Forall2_lookup_r _ _ _ _ _ HF' Hp) as (i' & Hi' & Hib').
  assert (Hne : i <> i').
  { intros ->. apply Hi. by apply list_elem_of_lookup_2 in Hi'. }
  pose proof (Hdis i i' b b' Hne Hib Hib') as Heq.
  rewrite (fval_le_proper _ _ thr Heq). simpl. by apply Qle_bool_iff.
Qed.

(** C4.  [non_max_suppression] on two boxes whose IoU exceeds the
    threshold and whose scores differ returns the index of the
    higher-scoring box alone; on any number of boxes that are pairwise
    non-overlapping (IoU 0), with one score per box and a threshold that
    is not negative, it returns every index exactly once. *)
Theorem c4_nms_suppresses_overlap_keeps_disjoint :
  (forall (b0 b1 : BBox) (s0 s1 thr : Q),
     ~ s0 == s1 ->
     fval_gt (iou_pair b0 b1) thr = true ->
     non_max_suppression [b0; b1] [s0; s1] thr
       = Some [if Qltb s0 s1 then 1%nat else 0%nat]) /\
  (forall (boxes : list BBox) (scores : list Q) (thr : Q),
     length scores = length boxes ->
     0 <= thr ->
     pairwise_disjoint boxes ->
     exists keep,
       non_max_suppression boxes scores thr = Some keep /\
       Permutation keep (seq 0 (length boxes))).
Proof.
  split.
  - intros b0 b1 s0 s1 thr Hne Hiou.
    unfold non_max_suppression, argsort.
    cbn [length Nat.eqb seq fold_left argsort_insert nth].
    destruct (Qltb s1 s0) eqn:E.
    + cbn [rev app].
      assert (Hm : mapM (fun i => [b0; b1] !! i) [0; 1]%nat = Some [b0; b1]) by reflexivity.
      rewrite Hm. cbn [mbind option_bind length]. rewrite nms_two by done.
      apply Qltb_lt in E.
      destruct (Qltb s0 s1) eqn:E'; [| done].
      apply Qltb_lt in E'. exfalso. by apply (Qlt_irrefl s0), (Qlt_trans _ s1).
    + cbn [rev app].
      assert (Hm : mapM (fun i => [b0; b1] !! i) [1; 0]%nat = Some [b1; b0]) by reflexivity.
      rewrite Hm. cbn [mbind option_bind length]. rewrite nms_two.
      2:{ rewrite (fval_gt_proper _ _ thr (iou_pair_sym b1 b0)). done. }
      destruct (Qltb s0 s1) eqn:E'; [done |].
      exfalso. apply Hne. apply Qle_antisym.
      * apply Qnot_lt_le. intros H. apply Qltb_lt in H. congruence.
      * apply Qnot_lt_le. intros H. apply Qltb_lt in H. congruence.
  - intros boxes scores thr Hlen Hthr Hdis.
    unfold non_max_suppression.
    destruct (Nat.eqb_spec (length boxes) 0) as [H0|H0].
    { exists []. rewrite H0. done. }
    set (order := rev (argsort scores)).
    assert (Hperm : Permutation order (seq 0 (length boxes))).
    { subst order. rewrite <- Hlen, <- argsort_perm. symmetry. apply Permutation_rev. }
    assert (Hsome : is_Some (mapM (fun i => boxes !! i) order)).
    { apply mapM_is_Some. apply Forall_forall. intros i Hi. simpl.
      apply lookup_lt_is_Some. rewrite Hperm in Hi.
      apply list_elem_of_In, in_seq in Hi. lia. }
    destruct Hsome as [bs Hbs]. rewrite Hbs. simpl.
    apply mapM_Some in Hbs.
    assert (Hnd : NoDup order).
    { rewrite Hperm. apply NoDup_ListNoDup, seq_NoDup. }
    exists order. split; [| done]. f_equal.
    rewrite (nms_loop_all_pass thr bs order [] (length bs)); [done | | done |].
    + by apply Forall2_length in Hbs.
    + by apply (disjoint_all_pass thr boxes order bs).
Qed.

Lemma disjoint_boxes_disjoint : pairwise_disjoint disjoint_boxes.
Proof.
  intros i j bi bj Hne Hi Hj.
  destruct i as [|[|[|i]]]; destruct j as [|[|[|j]]]; try done;
    simpl in Hi, Hj; injection Hi as <-; injection Hj as <-; vm_compute; reflexivity.
Qed.

Lemma c4_nms_suppresses_overlap_keeps_disjoint_witness :
  non_max_suppression [square_box 0 0; square_box 1 1] [5 # 10; 9 # 10] (45 # 100)
    = Some [1%nat] /\
  exists keep,
    non_max_suppression disjoint_boxes [5 # 10; 5 # 10; 7 # 10] (45 # 100) = Some keep /\
    Permutation keep (seq 0 (length disjoint_boxes)).
Proof.
  split.
  - refine (proj1 c4_nms_suppresses_overlap_keeps_disjoint
              (square_box 0 0) (square_box 1 1) (5 # 10) (9 # 10) (45 # 100) _ _).
    + vm_compute. discriminate.
    + vm_compute. reflexivity.
  - apply (proj2 c4_nms_suppresses_overlap_keeps_disjoint).
    + reflexivity.
    + vm_compute. discriminate.
    + apply disjoint_boxes_disjoint.
Defined.

(** ** Trajectories across [update] *)

Lemma mark_disappeared_traj id t t' :
  mark_disappeared id t = Some t' -> traj_same_or_gone t t'.
Proof.
  unfold mark_disappeared. destruct (PyDict.get id (disappeared t)); [| done].
  intros [= <-] k. case_match; [| by left].
  unfold traj. simpl. destruct (decide (k = id)) as [->|Hne].
  - right. apply get_del_eq.
  - left. by rewrite get_del_ne.
Qed.

Lemma disappear_loop_traj mo l t t' :
  for_each (disappear_body mo) l t = Some t' -> traj_same_or_gone t t'.
Proof.
  apply (for_each_rel _ traj_same_or_gone).
  - intros x k. by left.
  - intros x y z Hxy Hyz k. destruct (Hyz k) as [Heq | Heq]; rewrite Heq; [apply Hxy | by right].
  - intros a x y. unfold disappear_body. case_match.
    + intros [= <-] k. by left.
    + apply mark_disappeared_traj.
Qed.

Lemma register_traj det t k :
  traj (snd (_register det t)) k =
    if decide (k = next_id t)
    then Some (deque_append (max_trajectory_length t) [] (_get_center (det_bbox det)))
    else traj t k.
Proof.
  unfold traj. rewrite register_trajectory. case_decide as Hk.
  - subst. apply get_set_eq.
  - by rewrite !get_set_ne.
Qed.

Lemma register_unmatched_traj md i dets t k :
  let t' := snd (register_unmatched md i dets t) in
  traj t' k = traj t k \/
  ((next_id t <= k)%nat /\
   exists c, traj t' k = Some (deque_append (max_trajectory_length t) [] c)).
Proof.
  revert i t. induction dets as [|det dets IH]; intros i t; cbn [register_unmatched].
  - by left.
  - destruct (bool_decide (i ∈ md)); [apply IH |].
    destruct (_register det t) as [id t1] eqn:Hreg.
    assert (Ht1 : t1 = snd (_register det t)) by (by rewrite Hreg).
    specialize (IH (S i) t1). destruct (register_unmatched md (S i) dets t1) as [ids t2].
    cbn [snd] in *.
    assert (Hn1 : next_id t1 = S (next_id t)) by (rewrite Ht1; apply register_next_id).
    assert (Hm1 : max_trajectory_length t1 = max_trajectory_length t).
    { pose proof (register_config det t) as Hc. rewrite <- Ht1 in Hc.
      by apply config_fields in Hc as (_ & _ & _ & ? & _). }
    assert (Htr1 : traj t1 k = if decide (k = next_id t)
                     then Some (deque_append (max_trajectory_length t) []
                                  (_get_center (det_bbox det)))
                     else traj t k) by (rewrite Ht1; apply register_traj).
    destruct IH as [Hsame|[Hge [c Hc]]].
    + rewrite Hsame, Htr1. case_decide; [| by left].
      right. split; [lia | by eexists].
    + right. split; [lia |]. exists c. by rewrite Hc, Hm1.
Qed.

Lemma match_object_traj dets centers e st st' :
  match_object dets centers e st = Some st' -> match_traj_rel st st'.
Proof.
  destruct st as [[t md] mo], e as [id c], st' as [[t' md'] mo'].
  unfold match_object, match_traj_rel.
  destruct (decide (id ∈ mo)) as [Hmo|Hmo].
  { rewrite bool_decide_eq_true_2 by done. intros [= <- <- <-].
    split; [done |]. split; [done |]. intros k. by left. }
  rewrite bool_decide_eq_false_2 by done.
  destruct (find_best_match c (max_distance t) md centers) as [j|].
  2:{ intros [= <- <- <-]. split; [done |]. split; [done |]. intros k. by left. }
  destruct (dets !! j) as [det|]; [| done].
  destruct (PyDict.get id (objects t)) as [o|]; [| done].
  intros [= <- <- <-]. split; [done |]. split; [set_solver |].
  intros k. unfold traj, _update_trajectory. simpl.
  destruct (decide (k = id)) as [->|Hne].
  - right. split; [done |]. split; [set_solver |].
    eexists. rewrite get_set_eq. by destruct (PyDict.get id (trajectory_points t)).
  - left. by rewrite get_set_ne.
Qed.

Lemma match_loop_traj dets centers entries st st' :
  for_each (match_object dets centers) entries st = Some st' -> match_traj_rel st st'.
Proof.
  apply (for_each_rel _ match_traj_rel).
  - intros [[t md] mo]. split; [done |]. split; [done |]. intros k. by left.
  - intros [[t1 md1] mo1] [[t2 md2] mo2] [[t3 md3] mo3]
      (Hc12 & Hs12 & H12) (Hc23 & Hs23 & H23).
    split; [by rewrite Hc23 |]. split; [set_solver |].
    pose proof (config_fields _ _ Hc12) as (_ & _ & _ & Hm & _).
    intros k. destruct (H12 k) as [Hsame|(Hn1 & Hi2 & c & Hc)].
    + destruct (H23 k) as [Hsame'|(Hn2 & Hi3 & c & Hc)].
      * left. by rewrite Hsame', Hsame.
      * right. split; [set_solver |]. split; [done |]. exists c.
        by rewrite Hc, Hsame, Hm.
    + destruct (H23 k) as [Hsame'|(Hn2 & _)]; [| done].
      right. split; [done |]. split; [set_solver |]. exists c. by rewrite Hsame', Hc.
  - intros a x y. apply match_object_traj.
Qed.

Lemma wf_traj_obj t k : tracker_wf t -> is_Some (traj t k) <-> is_Some (obj t k).
Proof.
  intros Hwf. unfold traj, obj. rewrite !get_Some_keys. by rewrite (wf_trajectory t Hwf).
Qed.

Lemma update_traj dets t t' k :
  tracker_wf t -> update dets t = Some t' -> traj_step t t' k.
Proof.
  intros Hwf Hup. apply update_Some in Hup as [ids Hup].
  unfold update_registering, update_with in Hup. unfold traj_step.
  destruct dets as [|det0 dets0].
  - destruct (for_each mark_disappeared _ t) as [t1|] eqn:Hloop; [| done].
    cbn [mbind option_bind] in Hup. assert (t1 = t') as -> by congruence.
    rewrite (for_each_ext mark_disappeared (disappear_body ∅)) in Hloop.
    2:{ intros a s. unfold disappear_body. by rewrite bool_decide_eq_false_2 by set_solver. }
    apply disappear_loop_traj in Hloop. destruct (Hloop k); auto.
  - set (dets := det0 :: dets0) in *.
    destruct (Nat.eqb (PyDict.len (objects t)) 0).
    + assert (Hr : register_unmatched ∅ 0 dets t = (ids, t')) by congruence.
      pose proof (register_unmatched_traj ∅ 0 dets t k) as Htr.
      rewrite Hr in Htr. cbn [snd] in Htr. destruct Htr; auto.
    + unfold match_phase in Hup. fold (centers_of dets) in Hup.
      destruct (match_loop_spec dets (object_entries t) t ∅ ∅ Hwf)
        as (t1 & md & mo & Hrun & Hwf1 & Hc1 & Hn1 & Hk1 & _).
      { rewrite object_entries_fst. by apply wf_NoDup. }
      { intros x. by rewrite object_entries_fst. }
      rewrite Hrun in Hup. cbn [mbind option_bind] in Hup.
      apply match_loop_traj in Hrun as (_ & _ & Htr1).
      pose proof (register_unmatched_traj md 0 dets t1 k) as Htr2.
      destruct (register_unmatched md 0 dets t1) as [ids2 t2].
      unfold handle_disappeared in Hup.
      destruct (for_each _ (PyDict.keys (objects t2)) t2) as [t3|] eqn:Hloop3; [| done].
      cbn [mbind option_bind] in Hup. assert (t3 = t') as -> by congruence.
      cbn [snd] in Htr2.
      apply (disappear_loop_traj mo) in Hloop3.
      pose proof (config_fields _ _ Hc1) as (_ & _ & _ & Hm & _).
      destruct (Hloop3 k) as [Hk3|Hk3]; [rewrite Hk3 | by left].
      destruct Htr2 as [Hk2|[Hge [c Hc]]].
      * rewrite Hk2. destruct (Htr1 k) as [Hsame|(_ & _ & c & Hc)]; [auto |].
        right. right. left.
        assert (Hsome : is_Some (traj t k)).
        { apply (wf_traj_obj t k Hwf), obj_in_keys. rewrite <- Hk1.
          apply obj_in_keys, (wf_traj_obj t1 k Hwf1). rewrite Hc. eauto. }
        destruct Hsome as [pts Hpts]. exists pts, c. split; [done |].
        by rewrite Hc, Hpts.
      * right. right. right. split; [lia |]. exists c. by rewrite Hc, Hm.
Qed.

Lemma deque_append_length {A} m (l : list A) x :
  length (deque_append m l x) = Nat.min (length l + 1) m.
Proof. unfold deque_append. rewrite length_drop, length_app. simpl. lia. Qed.

(** ** Zone counting on reachable states (C5, C10) *)

Lemma check_zone_counting_params id t :
  let t' := snd (check_zone_counting id t) in
  max_trajectory_length t' = max_trajectory_length t /\
  min_movement_to_count t' = min_movement_to_count t.
Proof.
  unfold check_zone_counting. repeat case_match; simpl; repeat split; try done;
    repeat case_match; done.
Qed.

Lemma check_zone_counting_entry_other id t k :
  k <> id -> zone_entry (snd (check_zone_counting id t)) k = zone_entry t k.
Proof.
  intros Hne. unfold check_zone_counting, zone_entry.
  repeat case_match; simpl; try done; repeat case_match; simpl; try done;
    by rewrite get_set_ne.
Qed.

Lemma zone_inv_update dets t t' :
  tracker_wf t -> zone_inv t -> update dets t = Some t' -> zone_inv t'.
Proof.
  intros Hwf [Hlen Hmov Hentry] Hup.
  pose proof (update_config_any dets t t' Hup) as Hc.
  apply config_fields in Hc as (_ & _ & _ & Hm & _ & _ & Hz & Hmm).
  destruct (update_spec dets t Hwf) as (ids & t1 & Hrun & _ & _ & _ & Hn & _).
  apply update_of_registering in Hrun. assert (t1 = t') as -> by congruence.
  constructor; [congruence | congruence |].
  intros k e He. unfold zone_entry in He. rewrite Hz in He.
  destruct (Hentry k e He) as [Hlt Hpts]. split; [lia |].
  intros pts' Hpts'.
  destruct (update_traj dets t t' k Hwf Hup) as [H|[H|[(pts & c & Hp & H)|(Hge & _)]]].
  - congruence.
  - apply Hpts. congruence.
  - assert (pts' = deque_append (max_trajectory_length t) pts c) as -> by congruence.
    rewrite deque_append_length, Hlen. specialize (Hpts pts Hp). lia.
  - lia.
Qed.

Lemma reachable_zone_inv t : reachable t -> zone_inv t.
Proof.
  induction 1 as [md mdist|t dets t' Hr IH Hup|t id Hr IH|t id line_y Hr IH|t Hr IH].
  - constructor; [done | done | intros k e H; discriminate].
  - apply (zone_inv_update dets t); [by apply reachable_wf | done | done].
  - pose proof (reachable_wf t Hr) as Hwf.
    destruct (check_zone_counting_frame id t) as (Hn & _ & _ & Ht & _).
    destruct (check_zone_counting_params id t) as [Hm Hmm].
    destruct IH as [Hlen Hmov Hentry].
    constructor; [congruence | congruence |].
    intros k e He. rewrite Hn. unfold traj. rewrite Ht. fold (traj t k).
    destruct (decide (k = id)) as [->|Hne].
    + destruct (zone_entry t id) as [e0|] eqn:He0; [by apply (Hentry id e0) |].
      destruct (proj2 (check_zone_counting_few_points t id)) as (pts & Hpts & Hge & _).
      { rewrite He0, He. done. }
      split.
      * apply (wf_lt t id Hwf), obj_in_keys, (wf_traj_obj t id Hwf). rewrite Hpts. eauto.
      * intros pts' Hpts'. congruence.
    + rewrite check_zone_counting_entry_other in He by done. by apply (Hentry k e).
  - destruct (check_line_crossing_frame id line_y t) as (Hn & _ & _ & Ht & _ & Hz & _).
    destruct IH as [Hlen Hmov Hentry].
    assert (Hp : max_trajectory_length (snd (check_line_crossing id line_y t))
                   = max_trajectory_length t /\
                 min_movement_to_count (snd (check_line_crossing id line_y t))
                   = min_movement_to_count t).
    { unfold check_line_crossing. repeat case_match; done. }
    destruct Hp as [Hm Hmm].
    constructor; [congruence | congruence |].
    intros k e He. unfold zone_entry in He. rewrite Hz in He. rewrite Hn.
    unfold traj. rewrite Ht. by apply (Hentry k e).
  - destruct IH as [Hlen Hmov Hentry]. constructor; done.
Qed.

(** C5.  In every reachable tracker state, for a tracked object that is
    not yet counted and whose recorded zone-entry y is 300:
    [min_movement_to_count] is 50, the object has a current centroid, and
    [check_zone_counting] answers [True] exactly when the current y is at
    least 350.  At 349 it does not count and changes nothing; at 350 it
    counts and adds the id to the counted set; an object at or above its
    entry line is not counted. *)
Theorem c5_zone_counting_boundary (t : ONNXVehicleTracker) (id : nat) (e : Q) :
  reachable t ->
  id ∈ PyDict.keys (objects t) ->
  id ∉ counted_ids t ->
  zone_entry t id = Some e ->
  e == 300 ->
  min_movement_to_count t = 50 /\
  exists pts,
    traj t id = Some pts /\
    let current_y := snd (List.last pts (0, 0)) in
    (fst (check_zone_counting id t) = true <-> 350 <= current_y) /\
    (current_y == 349 -> check_zone_counting id t = (false, t)) /\
    (current_y == 350 ->
       fst (check_zone_counting id t) = true /\
       id ∈ counted_ids (snd (check_zone_counting id t))) /\
    (current_y <= 300 -> check_zone_counting id t = (false, t)).
Proof.
  intros Hr Hin Hc He He300.
  pose proof (reachable_wf t Hr) as Hwf.
  destruct (reachable_zone_inv t Hr) as [_ Hmov Hentry].
  split; [done |].
  assert (Hsome : is_Some (traj t id)) by (by apply (wf_traj_obj t id Hwf), obj_in_keys).
  destruct Hsome as [pts Hpts]. exists pts. split; [done |].
  destruct (Hentry id e He) as [_ Hlen].
  apply (zone_counting_boundary t id pts e); try done; [by apply Hlen | by rewrite Hmov].
Qed.

Lemma entered_at_300_now_349_reachable : reachable entered_at_300_now_349.
Proof.
  destruct (updates [[box_at 295]; [box_at 295]; [box_at 295]; [box_at 295]; [box_at 371]]
              tracker_default) as [t|] eqn:Hrun; [| vm_compute in Hrun; discriminate].
  assert (Heq : entered_at_300_now_349 = snd (check_zone_counting 0 t)).
  { unfold entered_at_300_now_349. by rewrite Hrun. }
  rewrite Heq. apply reach_zone.
  eapply reachable_updates; [apply (reach_init 30 100) | exact Hrun].
Qed.

Lemma entered_at_300_now_350_reachable : reachable entered_at_300_now_350.
Proof.
  apply (reach_update entered_at_300_now_349 [box_at 346]);
    [apply entered_at_300_now_349_reachable | vm_compute; reflexivity].
Qed.

Lemma c5_zone_counting_boundary_witness :
  check_zone_counting 0 entered_at_300_now_349 = (false, entered_at_300_now_349) /\
  fst (check_zone_counting 0 entered_at_300_now_350) = true /\
  0%nat ∈ counted_ids (snd (check_zone_counting 0 entered_at_300_now_350)).
Proof.
  split.
  - destruct (c5_zone_counting_boundary entered_at_300_now_349 0 (600 # 2))
      as (_ & pts & Hpts & _ & H349 & _).
    + apply entered_at_300_now_349_reachable.
    + apply (bool_decide_unpack _). vm_compute. exact I.
    + apply (bool_decide_unpack _). vm_compute. exact I.
    + vm_compute. reflexivity.
    + reflexivity.
    + apply H349. vm_compute in Hpts. injection Hpts as <-. vm_compute. reflexivity.
  - destruct (c5_zone_counting_boundary entered_at_300_now_350 0 (600 # 2))
      as (_ & pts & Hpts & _ & _ & H350 & _).
    + apply entered_at_300_now_350_reachable.
    + apply (bool_decide_unpack _). vm_compute. exact I.
    + apply (bool_decide_unpack _). vm_compute. exact I.
    + vm_compute. reflexivity.
    + reflexivity.
    + apply H350. vm_compute in Hpts. injection Hpts as <-. vm_compute. reflexivity.
Defined.

Lemma update_traj_len dets t t' k :
  tracker_wf t -> update dets t = Some t' -> (traj_len t' k <= traj_len t k + 1)%nat.
Proof.
  intros Hwf Hup. unfold traj_len.
  destruct (update_traj dets t t' k Hwf Hup) as [H|[H|[(pts & c & Hp & H)|(Hge & c & H)]]];
    rewrite H.
  - lia.
  - destruct (traj t k); lia.
  - rewrite Hp, deque_append_length. lia.
  - rewrite deque_append_length. cbn [length]. destruct (traj t k); lia.
Qed.

Lemma updates_traj_len frames t t' k :
  tracker_wf t -> updates frames t = Some t' ->
  (traj_len t' k <= traj_len t k + length frames)%nat.
Proof.
  revert t. induction frames as [|f r IH]; intros t Hwf; simpl.
  - intros [= <-]. lia.
  - destruct (update f t) as [t1|] eqn:Hup; [| done]. simpl. intros Hrun.
    pose proof (update_traj_len f t t1 k Hwf Hup).
    pose proof (IH t1 (update_wf f t t1 Hwf Hup) Hrun). lia.
Qed.

(** C10.  While a track has fewer than five trajectory points (or none),
    [check_zone_counting] returns [False] and leaves the tracker, in
    particular the counted set and the entry map, exactly as it was,
    however far the track has moved.  The entry position is written only
    by a call that sees at least five points, and then it is the y of the
    oldest point held.  A track that does not exist yet has at most four
    points after four more calls of [update], so it cannot be counted
    during its first four frames. *)
Theorem c10_no_zone_count_before_five_points (t : ONNXVehicleTracker) (id : nat) :
  (match traj t id with
   | Some pts => (length pts < 5)%nat
   | None => True
   end ->
   check_zone_counting id t = (false, t)) /\
  (zone_entry (snd (check_zone_counting id t)) id <> zone_entry t id ->
   exists pts, traj t id = Some pts /\ (5 <= length pts)%nat /\
     zone_entry t id = None /\
     zone_entry (snd (check_zone_counting id t)) id = Some (snd (hd (0, 0) pts))) /\
  (tracker_wf t -> traj t id = None ->
   forall frames t',
     (length frames <= 4)%nat -> updates frames t = Some t' ->
     check_zone_counting id t' = (false, t')).
Proof.
  destruct (check_zone_counting_few_points t id) as [Hfew Hentry].
  split; [exact Hfew |]. split; [exact Hentry |].
  intros Hwf Hnone frames t' Hlen Hrun.
  apply (check_zone_counting_few_points t' id).
  pose proof (updates_traj_len frames t t' id Hwf Hrun) as Hle.
  unfold traj_len in Hle. rewrite Hnone in Hle.
  destruct (traj t' id); [lia | done].
Qed.

(** A track registered by the first of four frames, 40 pixels lower in
    each: its smoothed center has moved by more than 50 pixels, and it
    is still not counted. *)
Lemma c10_no_zone_count_before_five_points_witness :
  exists t' pts,
    updates (driving_frames 0 40 4) tracker_default = Some t' /\
    traj t' 0 = Some pts /\ length pts = 4%nat /\
    50 <= snd (List.last pts (0, 0)) - snd (hd (0, 0) pts) /\
    check_zone_counting 0 t' = (false, t').
Proof.
  destruct (updates (driving_frames 0 40 4) tracker_default) as [t'|] eqn:Hrun;
    [| vm_compute in Hrun; discriminate].
  assert (Hpts : exists pts, traj t' 0 = Some pts /\ length pts = 4%nat /\
                   50 <= snd (List.last pts (0, 0)) - snd (hd (0, 0) pts)).
  { vm_compute in Hrun. injection Hrun as <-. eexists. split; [reflexivity |].
    split; [reflexivity |]. vm_compute. discriminate. }
  destruct Hpts as (pts & Hpts & Hlen & Hmove).
  exists t', pts. do 4 (split; [done |]).
  apply (proj2 (proj2 (c10_no_zone_count_before_five_points tracker_default 0))
           (wf_init 30 100) eq_refl (driving_frames 0 40 4) t'); [simpl; lia | exact Hrun].
Defined.

(** ** [process_frame] completes on well-formed trackers *)

Lemma same_tables_refl t : same_tables t t.
Proof. by repeat split. Qed.

Lemma same_tables_trans t1 t2 t3 :
  same_tables t1 t2 -> same_tables t2 t3 -> same_tables t1 t3.
Proof.
  intros (? & ? & ? & ?) (? & ? & ? & ?). repeat split; congruence.
Qed.

Lemma same_tables_wf t t' : same_tables t t' -> tracker_wf t -> tracker_wf t'.
Proof. intros (? & ? & ? & ?). by apply wf_same_tables. Qed.

Lemma count_zone_step_tables st id :
  same_tables (tracker st.1) (tracker (count_zone_step st id).1).
Proof.
  destruct st as [d log]. unfold count_zone_step. simpl.
  case_match; [apply same_tables_refl |].
  destruct (check_zone_counting_frame id (tracker d)) as (Hn & Ho & Hd & Ht & _).
  destruct (check_zone_counting id (tracker d)) as [[] t1]; simpl in *; by repeat split.
Qed.

Lemma count_line_step_tables line_y st id :
  same_tables (tracker st.1) (tracker (count_line_step line_y st id).1).
Proof.
  destruct st as [d log]. unfold count_line_step. simpl.
  case_match; [apply same_tables_refl |].
  case_match; [apply same_tables_refl |].
  destruct (check_line_crossing_frame id line_y (tracker d)) as (Hn & Ho & Hd & Ht & _).
  destruct (check_line_crossing id line_y (tracker d)) as [[] t1]; simpl in *; by repeat split.
Qed.

Lemma count_tracked_tables line_y d :
  same_tables (tracker d) (tracker (count_tracked line_y d).1).
Proof.
  unfold count_tracked.
  assert (Hfold : forall (step : ONNXTrafficDetector * list CountEvent -> nat ->
                                 ONNXTrafficDetector * list CountEvent),
             (forall st id, same_tables (tracker st.1) (tracker (step st id).1)) ->
             forall ids st, same_tables (tracker st.1) (tracker (fold_left step ids st).1)).
  { intros step Hstep. induction ids as [|id ids IH]; intros st; simpl.
    - apply same_tables_refl.
    - eapply same_tables_trans; [apply Hstep | apply IH]. }
  destruct (lane_enabled d).
  - apply (Hfold count_zone_step count_zone_step_tables _ (d, [])).
  - apply (Hfold (count_line_step line_y) (count_line_step_tables line_y) _ (d, [])).
Qed.

Lemma process_frame_total h dets d :
  tracker_wf (tracker d) ->
  exists d' log, process_frame h dets d = Some (d', log) /\ tracker_wf (tracker d').
Proof.
  intros Hwf. unfold process_frame.
  destruct (update_spec dets (tracker d) Hwf) as (ids & t1 & Hrun & Hwf1 & _).
  apply update_of_registering in Hrun. rewrite Hrun. cbn [mbind option_bind].
  set (line_y := match count_line_y d with Some y => y | None => _ end).
  set (d1 := mkDetector t1 _ _ _ _ _ _).
  pose proof (count_tracked_tables line_y d1) as Htab.
  destruct (count_tracked line_y d1) as [d2 log2]. simpl in Htab.
  eexists _, _. split; [reflexivity |]. simpl.
  by apply (same_tables_wf t1).
Qed.

Lemma process_frames_total h frames d :
  tracker_wf (tracker d) ->
  exists d' log, process_frames h frames d = Some (d', log) /\ tracker_wf (tracker d').
Proof.
  revert d. induction frames as [|f r IH]; intros d Hwf; simpl.
  - by exists d, [].
  - destruct (process_frame_total h f d Hwf) as (d1 & log1 & Hf & Hwf1).
    rewrite Hf. simpl.
    destruct (IH d1 Hwf1) as (d2 & log2 & Hr & Hwf2).
    rewrite Hr. simpl. by eexists _, _.
Qed.

(** ** Box overlap measures *)

Lemma Qle_bool_false a b : Qle_bool a b = false <-> b < a.
Proof.
  rewrite <- Qltb_lt. unfold Qltb. by destruct (Qle_bool a b).
Qed.

Lemma rect_mono (w h W H : Q) : 0 < w -> 0 < h -> w <= W -> h <= H -> 0 < w * h /\ w * h <= W * H.
Proof. intros. split; nra. Qed.

Lemma intersection_bounds a b :
  let iw := Qmin (bx2 a) (bx2 b) - Qmax (bx1 a) (bx1 b) in
  let ih := Qmin (by2 a) (by2 b) - Qmax (by1 a) (by1 b) in
  0 < iw -> 0 < ih ->
  0 < iw * ih /\
  iw * ih <= (bx2 a - bx1 a) * (by2 a - by1 a) /\
  iw * ih <= (bx2 b - bx1 b) * (by2 b - by1 b).
Proof.
  intros iw ih Hw Hh.
  pose proof (Q.le_min_l (bx2 a) (bx2 b)). pose proof (Q.le_min_r (bx2 a) (bx2 b)).
  pose proof (Q.le_min_l (by2 a) (by2 b)). pose proof (Q.le_min_r (by2 a) (by2 b)).
  pose proof (Q.le_max_l (bx1 a) (bx1 b)). pose proof (Q.le_max_r (bx1 a) (bx1 b)).
  pose proof (Q.le_max_l (by1 a) (by1 b)). pose proof (Q.le_max_r (by1 a) (by1 b)).
  split; [| split].
  - apply (rect_mono iw ih iw ih); lra.
  - apply (rect_mono iw ih); subst iw ih; lra.
  - apply (rect_mono iw ih); subst iw ih; lra.
Qed.

Lemma inter_cond_false (x1 x2 y1 y2 : Q) :
  Qle_bool x2 x1 || Qle_bool y2 y1 = false <-> x1 < x2 /\ y1 < y2.
Proof.
  rewrite orb_false_iff, !Qle_bool_false. done.
Qed.

Lemma inter_cond_true (x1 x2 y1 y2 : Q) :
  Qle_bool x2 x1 || Qle_bool y2 y1 = true <-> x2 <= x1 \/ y2 <= y1.
Proof.
  rewrite orb_true_iff, !Qle_bool_iff. done.
Qed.

Lemma div_unit (p q : Q) : 0 < p -> p <= q -> 0 < p / q /\ p / q <= 1.
Proof.
  intros Hp Hq. split.
  - apply Qlt_shift_div_l; lra.
  - apply Qle_shift_div_r; lra.
Qed.

Lemma calculate_iou_sym (a b : BBox) : _calculate_iou a b == _calculate_iou b a.
Proof.
  unfold _calculate_iou. cbv zeta.
  rewrite (Qle_bool_proper (Qmin (bx2 a) (bx2 b)) (Qmin (bx2 b) (bx2 a))
             (Qmax (bx1 a) (bx1 b)) (Qmax (bx1 b) (bx1 a)))
    by (apply Q.min_comm || apply Q.max_comm).
  rewrite (Qle_bool_proper (Qmin (by2 a) (by2 b)) (Qmin (by2 b) (by2 a))
             (Qmax (by1 a) (by1 b)) (Qmax (by1 b) (by1 a)))
    by (apply Q.min_comm || apply Q.max_comm).
  destruct (_ || _); [reflexivity |].
  assert (Hi : (Qmin (bx2 a) (bx2 b) - Qmax (bx1 a) (bx1 b))
               * (Qmin (by2 a) (by2 b) - Qmax (by1 a) (by1 b))
            == (Qmin (bx2 b) (bx2 a) - Qmax (bx1 b) (bx1 a))
               * (Qmin (by2 b) (by2 a) - Qmax (by1 b) (by1 a))).
  { rewrite (Q.min_comm (bx2 a)), (Q.max_comm (bx1 a)),
            (Q.min_comm (by2 a)), (Q.max_comm (by1 a)). reflexivity. }
  match goal with
  | |- (if Qltb 0 ?u then _ else _) == (if Qltb 0 ?v then _ else _) =>
      assert (Hu : u == v) by (rewrite Hi; ring);
      rewrite (Qltb_proper 0 0 u v) by (done || exact Hu);
      destruct (Qltb 0 v); [| reflexivity]; rewrite Hu, Hi; reflexivity
  end.
Qed.

(** X19.  [_calculate_iou] is symmetric and lies in [0, 1] for any two
    boxes, well-formed or not; it is positive exactly when the boxes
    share an area.  The guard [union > 0] is never the reason for a 0. *)
Theorem calculate_iou_unit_interval (a b : BBox) :
  0 <= _calculate_iou a b /\ _calculate_iou a b <= 1 /\
  _calculate_iou a b == _calculate_iou b a /\
  (0 < _calculate_iou a b <->
   Qmax (bx1 a) (bx1 b) < Qmin (bx2 a) (bx2 b) /\
   Qmax (by1 a) (by1 b) < Qmin (by2 a) (by2 b)).
Proof.
  split; [| split; [| split; [apply calculate_iou_sym |]]].
  all: unfold _calculate_iou; cbv zeta.
  all: destruct (Qle_bool _ _ || Qle_bool _ _) eqn:E.
  all: try (apply inter_cond_true in E).
  all: try (apply inter_cond_false in E; destruct E as [Ex Ey];
            destruct (intersection_bounds a b) as (Hpos & Ha & Hb); [lra | lra |];
            match goal with
            | |- context [Qltb 0 ?u] =>
                assert (Hu : Qltb 0 u = true) by (apply Qltb_lt; lra);
                rewrite Hu;
                match goal with
                | |- context [?p / u] =>
                    destruct (div_unit p u) as [Hd0 Hd1]; [exact Hpos | lra |]
                end
            end).
  all: lra.
Qed.

(** X20.  [_calculate_overlap_ratio] lies in [0, 1] and is never below
    the IoU of the same two boxes. *)
Theorem overlap_ratio_bounds (a b : BBox) :
  0 <= _calculate_overlap_ratio a b /\ _calculate_overlap_ratio a b <= 1 /\
  _calculate_iou a b <= _calculate_overlap_ratio a b.
Proof.
  unfold _calculate_overlap_ratio, _calculate_iou. cbv zeta.
  destruct (Qle_bool _ _ || Qle_bool _ _) eqn:E; [lra |].
  apply inter_cond_false in E. destruct E as [Ex Ey].
  destruct (intersection_bounds a b) as (Hpos & Ha & Hb); [lra | lra |].
  set (i := (Qmin (bx2 a) (bx2 b) - Qmax (bx1 a) (bx1 b))
            * (Qmin (by2 a) (by2 b) - Qmax (by1 a) (by1 b))) in *.
  set (A := (bx2 a - bx1 a) * (by2 a - by1 a)) in *.
  set (B := (bx2 b - bx1 b) * (by2 b - by1 b)) in *.
  assert (HA : Qltb 0 A = true) by (apply Qltb_lt; lra).
  assert (HU : Qltb 0 (A + B - i) = true) by (apply Qltb_lt; lra).
  rewrite HA, HU.
  destruct (div_unit i A) as [H0 H1]; [done | done |].
  split; [lra | split; [lra |]].
  apply Qle_shift_div_r; [lra |].
  assert (Hi : i == i / A * A) by (field; lra).
  assert (i / A * A <= i / A * (A + B - i)); [| lra].
  apply Qmult_le_l; lra.
Qed.

Lemma vehicle_overlap_loop_spec mo a vs :
  vehicle_overlap_loop mo a vs =
  Some (existsb (fun v => Qltb 0 (_calculate_overlap_ratio a v)
                          && Qltb mo (_calculate_overlap_ratio a v)) vs).
Proof.
  induction vs as [|v r IH]; [done |].
  cbn [vehicle_overlap_loop existsb]. cbv zeta.
  unfold _calculate_overlap_ratio at 1 2. cbv zeta. unfold Qltb at 1 2.
  rewrite <- negb_orb.
  destruct (Qle_bool _ _ || Qle_bool _ _) eqn:E; cbn [negb].
  - rewrite IH. done.
  - apply inter_cond_false in E. destruct E as [Ex Ey].
    destruct (intersection_bounds a v) as (Hpos & Ha & Hb); [lra | lra |].
    set (i := (Qmin (bx2 a) (bx2 v) - Qmax (bx1 a) (bx1 v))
              * (Qmin (by2 a) (by2 v) - Qmax (by1 a) (by1 v))) in *.
    set (A := (bx2 a - bx1 a) * (by2 a - by1 a)) in *.
    assert (HA : Qltb 0 A = true) by (apply Qltb_lt; lra).
    assert (HA0 : Qeq_bool A 0 = false).
    { destruct (Qeq_bool A 0) eqn:E0; [| done]. apply Qeq_bool_iff in E0. lra. }
    rewrite HA0, HA.
    destruct (div_unit i A) as [H0 H1]; [done | done |].
    assert (Hp : Qltb 0 (i / A) = true) by (by apply Qltb_lt).
    rewrite Hp. cbn [andb].
    destruct (Qltb mo (i / A)); [done |]. rewrite IH. done.
Qed.

(** X21.  [_check_vehicle_overlap] always returns: the division by the
    ambulance box area is only reached when the box meets a vehicle box
    in a positive area, and then its own area is positive.  For a
    threshold that is not negative its answer is that of
    [_calculate_overlap_ratio] compared with the threshold. *)
Theorem check_vehicle_overlap_never_divides_by_zero
    (require_overlap : bool) (min_overlap : Q) (a : BBox) (vs : list RawDetection) :
  (exists r, _check_vehicle_overlap require_overlap min_overlap a vs = Some r) /\
  (0 <= min_overlap ->
   _check_vehicle_overlap require_overlap min_overlap a vs =
   Some (negb require_overlap || Nat.eqb (length vs) 0
         || existsb (fun v => Qltb min_overlap (_calculate_overlap_ratio a (raw_bbox v))) vs)).
Proof.
  unfold _check_vehicle_overlap.
  destruct (negb require_overlap || Nat.eqb (length vs) 0) eqn:E; cbn [orb].
  { split; [by eexists | done]. }
  rewrite vehicle_overlap_loop_spec. split; [by eexists |].
  intros Hmo. f_equal. clear E.
  induction vs as [|v r IH]; [done |].
  cbn [map existsb]. rewrite IH. f_equal.
  destruct (Qltb min_overlap _) eqn:E; [| by rewrite andb_false_r].
  rewrite andb_true_r. apply Qltb_lt. apply Qltb_lt in E. lra.
Qed.

Lemma check_vehicle_overlap_never_divides_by_zero_witness :
  _check_vehicle_overlap true (1 # 10) (mkBBox 150 150 250 250) [car_box] = Some true.
Proof.
  rewrite (proj2 (check_vehicle_overlap_never_divides_by_zero true (1 # 10)
                    (mkBBox 150 150 250 250) [car_box])); [reflexivity |].
  vm_compute. discriminate.
Defined.

(** ** Ambulance size and confidence filters *)

Lemma Qltb_false a b : Qltb a b = false <-> b <= a.
Proof.
  unfold Qltb. rewrite negb_false_iff. apply Qle_bool_iff.
Qed.

Ltac qbool :=
  repeat match goal with
  | H : Qltb _ _ = true |- _ => apply Qltb_lt in H
  | H : Qltb _ _ = false |- _ => apply Qltb_false in H
  | H : Qle_bool _ _ = true |- _ => apply Qle_bool_iff in H
  | H : Qle_bool _ _ = false |- _ => apply Qle_bool_false in H
  | H : _ && _ = true |- _ => apply andb_true_iff in H; destruct H
  | H : _ || _ = false |- _ => apply orb_false_iff in H; destruct H
  | H : negb _ = true |- _ => apply negb_true_iff in H
  | H : negb _ = false |- _ => apply negb_false_iff in H
  end.

(** X28.  [_is_valid_small_ambulance] is monotone in the confidence: a
    box accepted at one confidence is accepted at any higher one.  An
    accepted box is at least 15 wide and 10 high, has an area between 200
    and 200000 and an aspect ratio between 0.2 and 4. *)
Theorem valid_small_ambulance_monotone (bbox : BBox) (c c' : Q) :
  _is_valid_small_ambulance bbox c = true ->
  (c <= c' -> _is_valid_small_ambulance bbox c' = true) /\
  let width := bx2 bbox - bx1 bbox in
  let height := by2 bbox - by1 bbox in
  15 <= width /\ 10 <= height /\
  200 <= width * height /\ width * height <= 200000 /\
  (2 # 10) <= width / height /\ width / height <= 4.
Proof.
  unfold _is_valid_small_ambulance. cbv zeta.
  set (w := bx2 bbox - bx1 bbox). set (h := by2 bbox - by1 bbox).
  destruct (Qltb (w * h) _) eqn:E1; [done |].
  destruct (Qltb 200000 (w * h)) eqn:E2; [done |].
  destruct (Qltb 0 h && _) eqn:E3; [done |].
  destruct (Qltb w 15 || Qltb h 10) eqn:E4; [done |]. intros _.
  apply orb_false_iff in E4. destruct E4 as [E4 E5].
  pose proof E2 as E2b. pose proof E4 as E4b. pose proof E5 as E5b.
  apply Qltb_false in E4, E5, E2.
  assert (Hh : Qltb 0 h = true) by (apply Qltb_lt; lra).
  pose proof E3 as E3b.
  rewrite Hh in E3. cbn [andb] in E3.
  split.
  - intros Hc.
    assert (Hmin : Qltb (w * h)
              (if Qltb (2 # 10) c' then 200 else if Qltb (1 # 10) c' then 300 else 400)
            = false).
    { apply Qltb_false. apply Qltb_false in E1.
      destruct (Qltb (2 # 10) c) eqn:Ec1, (Qltb (1 # 10) c) eqn:Ec2,
               (Qltb (2 # 10) c') eqn:Ec1', (Qltb (1 # 10) c') eqn:Ec2'; qbool; lra. }
    by rewrite Hmin.
  - assert (Ha : 200 <= w * h).
    { apply Qltb_false in E1.
      destruct (Qltb (2 # 10) c), (Qltb (1 # 10) c); lra. }
    split; [done |]. split; [done |]. split; [done |]. split; [done |].
    destruct (Qltb (w * h) 1000); qbool; lra.
Qed.

Lemma valid_small_ambulance_monotone_witness :
  ((15 # 100) <= (5 # 10) ->
   _is_valid_small_ambulance (mkBBox 100 100 120 115) (5 # 10) = true) /\
  15 <= 120 - 100 /\ 10 <= 115 - 100 /\
  200 <= (120 - 100) * (115 - 100) /\ (120 - 100) * (115 - 100) <= 200000 /\
  (2 # 10) <= (120 - 100) / (115 - 100) /\ (120 - 100) / (115 - 100) <= 4.
Proof.
  apply (valid_small_ambulance_monotone (mkBBox 100 100 120 115) (15 # 100) (5 # 10)).
  vm_compute. reflexivity.
Defined.

Lemma adaptive_base_step (x f : Q) :
  0 < x <= 8 # 100 -> 0 < f <= 1 -> 0 < x * f <= 8 # 100.
Proof. intros [? ?] [? ?]. split; nra. Qed.

Lemma adaptive_clamp (b : Q) :
  0 < b <= 8 # 100 ->
  (3 # 100) <= Qmax (3 # 100) (Qmin b (15 # 100)) /\
  Qmax (3 # 100) (Qmin b (15 # 100)) <= (8 # 100).
Proof.
  intros Hb.
  destruct (Q.max_spec (3 # 100) (Qmin b (15 # 100))) as [[? ->]|[? ->]];
    destruct (Q.min_spec b (15 # 100)) as [[? Hm]|[? Hm]]; rewrite Hm in *; lra.
Qed.

Lemma adaptive_threshold_bounds en g det :
  (3 # 100) <= _get_adaptive_confidence_threshold en g det /\
  _get_adaptive_confidence_threshold en g det <= (8 # 100).
Proof.
  unfold _get_adaptive_confidence_threshold. cbv zeta.
  destruct (negb en); [lra |].
  apply adaptive_clamp.
  repeat match goal with
         | |- 0 < (if ?c then _ else _) <= _ => destruct c
         | |- 0 < match ?c with Some _ => _ | None => _ end <= _ => destruct c
         | |- 0 < _ * _ <= _ => apply adaptive_base_step; [| lra]
         end; lra.
Qed.

(** X25.  [_get_adaptive_confidence_threshold] always lies between 0.03
    and 0.08: every adjustment lowers the base of 0.08, so the upper
    clamp at 0.15 never takes effect.  It is 0.08 when the adaptive mode
    is off, and also when the detection carries neither features nor
    validation data and fewer than five frames are recorded. *)
Theorem adaptive_threshold_never_above_base
    (adaptive_confidence_enabled : bool) (g : StabilityGate) (det : AmbulanceDetection) :
  let thr := _get_adaptive_confidence_threshold adaptive_confidence_enabled g det in
  (3 # 100) <= thr /\ thr <= (8 # 100) /\
  (adaptive_confidence_enabled = false -> thr = 8 # 100) /\
  (amb_total_boost det = None -> amb_validation det = None ->
   (length (ambulance_detection_history g) < 5)%nat -> thr == 8 # 100).
Proof.
  cbv zeta.
  destruct (adaptive_threshold_bounds adaptive_confidence_enabled g det) as [H1 H2].
  split; [done |]. split; [done |]. split.
  - intros ->. reflexivity.
  - intros Hb Hv Hh. unfold _get_adaptive_confidence_threshold. cbv zeta.
    rewrite Hb, Hv. destruct (Nat.leb_spec 5 (length (ambulance_detection_history g))); [lia |].
    destruct (negb adaptive_confidence_enabled); reflexivity.
Qed.

Lemma adaptive_threshold_never_above_base_witness :
  _get_adaptive_confidence_threshold false gate_init
    (mkAmbulance (mkBBox 100 100 200 200) (3 # 10) None None) = 8 # 100.
Proof.
  apply (proj1 (proj2 (proj2 (adaptive_threshold_never_above_base false gate_init
                                (mkAmbulance (mkBBox 100 100 200 200) (3 # 10) None None))))).
  reflexivity.
Defined.

Lemma filter_sublist_impl {A} (P R : A -> Prop)
    `{!forall x, Decision (P x)} `{!forall x, Decision (R x)} (l : list A) :
  (forall x, P x -> R x) -> sublist (filter P l) (filter R l).
Proof.
  intros Himp. induction l as [|x l IH]; [constructor |].
  rewrite !filter_cons.
  destruct (decide (P x)) as [Hp|Hp], (decide (R x)) as [Hr|Hr].
  - by constructor.
  - destruct Hr. by apply Himp.
  - by constructor.
  - done.
Qed.

(** X26.  [_filter_by_stability_and_confidence] is more lenient in the
    stable state: with the same detection history, whatever passes while
    unstable also passes while stable.  While unstable a confidence of
    0.12 always passes and one below 0.045 never does (the cap of 0.25 is
    never reached); while stable nothing below 0.024 passes. *)
Theorem stability_filter_hysteresis (en : bool) (g_unstable g_stable : StabilityGate)
    (dets : list AmbulanceDetection) :
  ambulance_stable g_unstable = false -> ambulance_stable g_stable = true ->
  ambulance_detection_history g_stable = ambulance_detection_history g_unstable ->
  sublist (_filter_by_stability_and_confidence en g_unstable dets)
          (_filter_by_stability_and_confidence en g_stable dets) /\
  (forall det, det ∈ dets -> (12 # 100) <= amb_confidence det ->
     det ∈ _filter_by_stability_and_confidence en g_unstable dets) /\
  (forall det, det ∈ _filter_by_stability_and_confidence en g_unstable dets ->
     (45 # 1000) <= amb_confidence det) /\
  (forall det, det ∈ _filter_by_stability_and_confidence en g_stable dets ->
     (24 # 1000) <= amb_confidence det).
Proof.
  intros Hu Hs Hh.
  assert (Hthr : forall det, _get_adaptive_confidence_threshold en g_stable det
                           = _get_adaptive_confidence_threshold en g_unstable det).
  { intros det. unfold _get_adaptive_confidence_threshold. by rewrite Hh. }
  unfold _filter_by_stability_and_confidence. rewrite Hu, Hs.
  destruct dets as [|d0 dets0]; [repeat split; (constructor || by intros ? ?%elem_of_nil) |].
  set (dets := d0 :: dets0). clearbody dets. clear d0 dets0.
  split; [| split; [| split]].
  - apply filter_sublist_impl. intros det. cbv zeta. rewrite Hthr.
    rewrite !Qle_bool_iff.
    pose proof (adaptive_threshold_bounds en g_unstable det) as [? ?].
    destruct (Q.min_spec (_get_adaptive_confidence_threshold en g_unstable det * (15 # 10))
                (25 # 100)) as [[? ->]|[? ->]]; lra.
  - intros det Hin Hc. apply list_elem_of_filter. split; [| done].
    cbv zeta. rewrite Qle_bool_iff.
    pose proof (adaptive_threshold_bounds en g_unstable det) as [? ?].
    destruct (Q.min_spec (_get_adaptive_confidence_threshold en g_unstable det * (15 # 10))
                (25 # 100)) as [[? ->]|[? ->]]; lra.
  - intros det [Hc _]%list_elem_of_filter. cbv zeta in Hc. rewrite Qle_bool_iff in Hc.
    pose proof (adaptive_threshold_bounds en g_unstable det) as [? ?].
    destruct (Q.min_spec (_get_adaptive_confidence_threshold en g_unstable det * (15 # 10))
                (25 # 100)) as [[? Hm]|[? Hm]]; rewrite Hm in Hc; lra.
  - intros det [Hc _]%list_elem_of_filter. cbv zeta in Hc. rewrite Qle_bool_iff in Hc.
    pose proof (adaptive_threshold_bounds en g_stable det) as [? ?]. lra.
Qed.

Lemma stability_filter_hysteresis_witness :
  sublist (_filter_by_stability_and_confidence true gate_init sample_ambulances)
          (_filter_by_stability_and_confidence true stable_gate sample_ambulances) /\
  (forall det, det ∈ sample_ambulances -> (12 # 100) <= amb_confidence det ->
     det ∈ _filter_by_stability_and_confidence true gate_init sample_ambulances) /\
  (forall det, det ∈ _filter_by_stability_and_confidence true gate_init sample_ambulances ->
     (45 # 1000) <= amb_confidence det) /\
  (forall det, det ∈ _filter_by_stability_and_confidence true stable_gate sample_ambulances ->
     (24 # 1000) <= amb_confidence det).
Proof.
  apply (stability_filter_hysteresis true gate_init stable_gate sample_ambulances);
    reflexivity.
Defined.


(** ** The vehicle filter *)

Lemma omap_idem {A} (f : A -> option A) (l : list A) :
  (forall x y, f x = Some y -> f y = Some y) -> omap f (omap f l) = omap f l.
Proof.
  intros Hf. induction l as [|x l IH]; [done |].
  cbn [omap list_omap]. destruct (f x) as [y|] eqn:E; [| done].
  cbn [omap list_omap]. rewrite (Hf x y E). by rewrite IH.
Qed.

Lemma omap_sublist_map {A B} (f : A -> option A) (p : A -> B) (l : list A) :
  (forall x y, f x = Some y -> p y = p x) -> sublist (map p (omap f l)) (map p l).
Proof.
  intros Hf. induction l as [|x l IH]; [constructor |].
  cbn [omap list_omap map]. destruct (f x) as [y|] eqn:E.
  - cbn [map]. rewrite (Hf x y E). by constructor.
  - by constructor.
Qed.

(** X18.  [_filter_vehicle_detections] returns only detections whose
    class id is one of [VEHICLE_CLASSES] (never a person, class 0), named
    ['vehicle'], and inside the lane when lane filtering is on; it keeps
    the order, boxes and confidences of its input, and filtering its own
    result changes nothing. *)
Theorem filter_vehicle_detections_only_vehicles
    (lane : option (Point -> Q)) (dets : list RawDetection) :
  let out := _filter_vehicle_detections lane dets in
  (forall d, d ∈ out ->
     raw_class_id d ∈ VEHICLE_CLASSES /\ raw_class_id d <> 0%nat /\
     raw_class_name d = "vehicle"%string /\
     match lane with
     | Some inside => 0 <= inside (_get_center (raw_bbox d))
     | None => True
     end) /\
  sublist (map (fun d => (raw_bbox d, raw_confidence d, raw_class_id d)) out)
          (map (fun d => (raw_bbox d, raw_confidence d, raw_class_id d)) dets) /\
  _filter_vehicle_detections lane out = out.
Proof.
  cbv zeta. unfold _filter_vehicle_detections.
  split; [| split].
  - intros d Hd. apply list_elem_of_omap in Hd. destruct Hd as (d0 & _ & Hd).
    cbv zeta in Hd.
    destruct (Nat.eqb_spec (raw_class_id d0) 0); [done |].
    destruct (bool_decide_reflect (raw_class_id d0 ∈ VEHICLE_CLASSES)); [| done].
    destruct lane as [inside|].
    + cbn [raw_bbox] in Hd.
      destruct (Qltb (inside (_get_center (raw_bbox d0))) 0) eqn:E; [done |].
      injection Hd as <-. cbn. repeat split; try done. by apply Qltb_false.
    + injection Hd as <-. done.
  - apply omap_sublist_map. intros x y Hxy. cbv zeta in Hxy.
    repeat case_match; try done; injection Hxy as <-; done.
  - apply omap_idem. intros x y Hxy. cbv zeta in *.
    destruct (Nat.eqb_spec (raw_class_id x) 0); [done |].
    destruct (bool_decide_reflect (raw_class_id x ∈ VEHICLE_CLASSES)); [| done].
    assert (Hy : raw_class_id y = raw_class_id x /\ raw_bbox y = raw_bbox x /\
                 raw_confidence y = raw_confidence x /\ raw_class_name y = "vehicle"%string).
    { repeat case_match; try done; injection Hxy as <-; done. }
    destruct Hy as (Hc & Hb & Hcf & Hn). rewrite Hc.
    destruct (Nat.eqb_spec (raw_class_id x) 0); [done |].
    rewrite bool_decide_true by done.
    cbn [raw_bbox] in *. rewrite Hb.
    assert (Hyy : {| raw_bbox := raw_bbox x; raw_confidence := raw_confidence y;
                     raw_class_id := raw_class_id x; raw_class_name := "vehicle" |} = y).
    { destruct y. cbn in *. congruence. }
    rewrite Hyy. destruct lane as [inside|]; [| done].
    destruct (Qltb (inside (_get_center (raw_bbox x))) 0); done.
Qed.

(** ** Fallback non-maximum suppression *)

Lemma insert_by_confidence_perm d l : insert_by_confidence d l ≡ₚ d :: l.
Proof.
  induction l as [|e r IH]; [done |]. cbn [insert_by_confidence].
  destruct (Qltb _ _); [| done]. rewrite IH. apply perm_swap.
Qed.

Lemma sorted_by_confidence_perm l : sorted_by_confidence l ≡ₚ l.
Proof.
  induction l as [|d r IH]; [done |]. cbn [sorted_by_confidence fold_right].
  rewrite insert_by_confidence_perm. by constructor.
Qed.

Lemma insert_by_confidence_sorted d l :
  StronglySorted conf_ge l -> StronglySorted conf_ge (insert_by_confidence d l).
Proof.
  induction 1 as [|e r Hs IH Hall]; cbn [insert_by_confidence].
  - repeat constructor.
  - destruct (Qltb _ _) eqn:E.
    + constructor; [done |].
      rewrite insert_by_confidence_perm. constructor; [| done].
      apply Qltb_lt in E. unfold conf_ge. lra.
    + apply Qltb_false in E. constructor; [by constructor |].
      constructor; [done |].
      eapply Forall_impl; [exact Hall |]. unfold conf_ge. intros x Hx. cbv beta in *. lra.
Qed.

Lemma sorted_by_confidence_sorted l : StronglySorted conf_ge (sorted_by_confidence l).
Proof.
  induction l as [|d r IH]; [constructor |]. by apply insert_by_confidence_sorted.
Qed.

Lemma sorted_by_confidence_id l :
  StronglySorted conf_ge l -> sorted_by_confidence l = l.
Proof.
  induction 1 as [|d r Hs IH Hall]; [done |].
  cbn [sorted_by_confidence fold_right]. fold (sorted_by_confidence r). rewrite IH.
  destruct r as [|e r']; [done |]. cbn [insert_by_confidence].
  apply Forall_cons in Hall. destruct Hall as [He _]. unfold conf_ge in He.
  apply Qltb_false in He. by rewrite He.
Qed.

Lemma nms_fallback_loop_acc fuel thr l keep :
  nms_fallback_loop fuel thr l keep = keep ++ nms_fallback_loop fuel thr l [].
Proof.
  revert l keep. induction fuel as [|f IH]; intros l keep; cbn [nms_fallback_loop].
  - by rewrite app_nil_r.
  - destruct l as [|c rest]; [by rewrite app_nil_r |]. cbv zeta.
    rewrite IH. rewrite (IH _ ([] ++ [c])). by rewrite <- !app_assoc.
Qed.

Lemma nms_fallback_loop_cons fuel thr c rest :
  nms_fallback_loop (S fuel) thr (c :: rest) [] =
  c :: nms_fallback_loop fuel thr
         (filter (fun det => Qltb (_calculate_iou (amb_bbox c) (amb_bbox det)) thr = true) rest)
         [].
Proof.
  cbn [nms_fallback_loop]. cbv zeta. by rewrite nms_fallback_loop_acc.
Qed.

Lemma StronglySorted_sublist {A} (R : A -> A -> Prop) (k l : list A) :
  sublist k l -> StronglySorted R l -> StronglySorted R k.
Proof.
  intros Hsub Hl. revert k Hsub. induction Hl as [|x l Hl IH Hall]; intros k Hsub.
  - apply sublist_nil_r in Hsub. subst. constructor.
  - apply sublist_cons_r in Hsub. destruct Hsub as [Hsub | (k' & -> & Hsub)].
    + by apply IH.
    + constructor; [by apply IH |].
      apply List.Forall_forall. intros y Hy%list_elem_of_In.
      rewrite List.Forall_forall in Hall. apply Hall. apply list_elem_of_In.
      eapply elem_of_sublist; [exact Hy | exact Hsub].
Qed.

Lemma nms_fallback_loop_spec fuel thr l :
  (length l <= fuel)%nat ->
  let K := nms_fallback_loop fuel thr l [] in
  sublist K l /\
  StronglySorted (compatible thr) K /\
  head K = head l /\
  (StronglySorted conf_ge l ->
   forall d, d ∈ l ->
     d ∈ K \/
     exists k, k ∈ K /\ conf_ge k d /\
       thr <= _calculate_iou (amb_bbox k) (amb_bbox d)).
Proof.
  revert l. induction fuel as [|f IH]; intros l Hlen.
  { destruct l; [| cbn in Hlen; lia]. cbn.
    split; [constructor |]. split; [constructor |]. split; [done |].
    intros _ d Hd. by apply elem_of_nil in Hd. }
  destruct l as [|c rest].
  { cbn. split; [constructor |]. split; [constructor |]. split; [done |].
    intros _ d Hd. by apply elem_of_nil in Hd. }
  cbv zeta. rewrite nms_fallback_loop_cons.
  set (P := fun det => Qltb (_calculate_iou (amb_bbox c) (amb_bbox det)) thr = true).
  assert (Hlen' : (length (filter P rest) <= f)%nat).
  { pose proof (length_filter P rest). cbn [length] in Hlen. lia. }
  destruct (IH (filter P rest) Hlen') as (Hsub & Hcomp & _ & Hcov).
  set (K := nms_fallback_loop f thr (filter P rest) []) in *.
  split; [| split; [| split]].
  - constructor. etrans; [exact Hsub | apply sublist_filter].
  - constructor; [done |].
    apply List.Forall_forall. intros y Hy%list_elem_of_In.
    assert (Hy' : y ∈ filter P rest) by (eapply elem_of_sublist; done).
    apply list_elem_of_filter in Hy'. destruct Hy' as [Hy' _].
    unfold compatible. by apply Qltb_lt.
  - done.
  - intros Hsorted d Hd. inversion Hsorted as [|? ? Hs Hall]; subst.
    apply elem_of_cons in Hd. destruct Hd as [-> | Hd]; [left; by left |].
    destruct (Qltb (_calculate_iou (amb_bbox c) (amb_bbox d)) thr) eqn:E.
    + destruct (Hcov (StronglySorted_sublist _ _ _ (sublist_filter P rest) Hs) d)
        as [Hin | (k & Hk & Hge & Hiou)].
      * apply list_elem_of_filter. by split.
      * left. by right.
      * right. exists k. split; [by right | done].
    + right. exists c. split; [by left |]. split.
      * rewrite List.Forall_forall in Hall. apply Hall. by apply list_elem_of_In.
      * by apply Qltb_false.
Qed.

Lemma StronglySorted_lookup {A} (R : A -> A -> Prop) (l : list A) i j a b :
  StronglySorted R l -> (i < j)%nat -> l !! i = Some a -> l !! j = Some b -> R a b.
Proof.
  intros Hs. revert i j. induction Hs as [|x l Hs IH Hall]; intros i j Hij Ha Hb.
  - done.
  - destruct j as [|j]; [lia |]. cbn in Hb. destruct i as [|i].
    + cbn in Ha. injection Ha as ->.
      rewrite List.Forall_forall in Hall. apply Hall, list_elem_of_In.
      by eapply list_elem_of_lookup_2.
    + cbn in Ha. apply (IH i j); [lia | done | done].
Qed.

Lemma filter_all {A} (P : A -> Prop) `{!forall x, Decision (P x)} (l : list A) :
  Forall P l -> filter P l = l.
Proof.
  induction 1 as [|x l Hx Hl IH]; [done |].
  rewrite filter_cons. destruct (decide (P x)); [by rewrite IH | done].
Qed.

Lemma nms_fallback_loop_id fuel thr K :
  (length K <= fuel)%nat -> StronglySorted (compatible thr) K ->
  nms_fallback_loop fuel thr K [] = K.
Proof.
  revert K. induction fuel as [|f IH]; intros K Hlen Hs.
  { destruct K; [done | cbn in Hlen; lia]. }
  destruct Hs as [|c rest Hs Hall]; [done |].
  rewrite nms_fallback_loop_cons. rewrite filter_all.
  - rewrite IH; [done | cbn in Hlen; lia | done].
  - eapply Forall_impl; [exact Hall |]. intros x Hx. by apply Qltb_lt.
Qed.

Lemma simple_nms_fallback_unfold dets thr :
  _simple_nms_fallback dets thr =
  nms_fallback_loop (length (sorted_by_confidence dets)) thr (sorted_by_confidence dets) [].
Proof.
  unfold _simple_nms_fallback. destruct dets as [|d r]; [done |].
  by rewrite (Permutation_length (sorted_by_confidence_perm (d :: r))).
Qed.

(** X22.  [_simple_nms_fallback] returns detections of its input (none
    invented, none twice as often as given), in order of non-increasing
    confidence, and any two of them have an IoU below the threshold. *)
Theorem simple_nms_fallback_sound (dets : list AmbulanceDetection) (thr : Q) :
  let K := _simple_nms_fallback dets thr in
  K ⊆+ dets /\
  forall i j a b, (i < j)%nat -> K !! i = Some a -> K !! j = Some b ->
    amb_confidence b <= amb_confidence a /\
    _calculate_iou (amb_bbox a) (amb_bbox b) < thr /\
    _calculate_iou (amb_bbox b) (amb_bbox a) < thr.
Proof.
  cbv zeta. rewrite simple_nms_fallback_unfold.
  destruct (nms_fallback_loop_spec (length (sorted_by_confidence dets)) thr
              (sorted_by_confidence dets)) as (Hsub & Hcomp & _ & _); [done |].
  split.
  - apply submseteq_sublist_l. eexists. split; [exact Hsub |].
    apply sorted_by_confidence_perm.
  - intros i j a b Hij Ha Hb.
    pose proof (StronglySorted_sublist _ _ _ Hsub (sorted_by_confidence_sorted dets)) as Hs.
    split; [exact (StronglySorted_lookup _ _ i j a b Hs Hij Ha Hb) |].
    pose proof (StronglySorted_lookup _ _ i j a b Hcomp Hij Ha Hb) as Hc.
    unfold compatible in Hc. split; [done |].
    by rewrite (calculate_iou_sym (amb_bbox b) (amb_bbox a)).
Qed.

(** X23.  Every detection that [_simple_nms_fallback] drops has an IoU of
    at least the threshold with a kept detection that is at least as
    confident; for a non-empty input the first detection returned has
    the highest confidence. *)
Theorem simple_nms_fallback_complete (dets : list AmbulanceDetection) (thr : Q) :
  let K := _simple_nms_fallback dets thr in
  (forall d, d ∈ dets ->
     d ∈ K \/
     exists k, k ∈ K /\ amb_confidence d <= amb_confidence k /\
       thr <= _calculate_iou (amb_bbox k) (amb_bbox d)) /\
  (dets <> [] ->
   exists k rest, K = k :: rest /\
     forall d, d ∈ dets -> amb_confidence d <= amb_confidence k).
Proof.
  cbv zeta. rewrite simple_nms_fallback_unfold.
  destruct (nms_fallback_loop_spec (length (sorted_by_confidence dets)) thr
              (sorted_by_confidence dets)) as (Hsub & _ & Hhd & Hcov); [done |].
  pose proof (sorted_by_confidence_sorted dets) as Hs.
  pose proof (sorted_by_confidence_perm dets) as Hp.
  split.
  - intros d Hd. apply (Hcov Hs). by rewrite Hp.
  - intros Hne.
    destruct (sorted_by_confidence dets) as [|c rest] eqn:E.
    { apply Permutation_nil_l in Hp. by subst. }
    cbn [head] in Hhd.
    destruct (nms_fallback_loop _ _ _ _) as [|k krest]; [done |].
    cbn in Hhd. injection Hhd as ->. exists c, krest. split; [done |].
    intros d Hd. rewrite <- Hp in Hd. apply elem_of_cons in Hd.
    destruct Hd as [-> | Hd]; [lra |].
    inversion Hs as [|? ? _ Hall]; subst.
    rewrite List.Forall_forall in Hall. apply Hall. by apply list_elem_of_In.
Qed.

Lemma simple_nms_fallback_complete_witness :
  exists k rest, _simple_nms_fallback sample_ambulances (4 # 10) = k :: rest /\
    forall d, d ∈ sample_ambulances -> amb_confidence d <= amb_confidence k.
Proof.
  apply (proj2 (simple_nms_fallback_complete sample_ambulances (4 # 10))).
  discriminate.
Defined.

(** X24.  Running [_simple_nms_fallback] on its own result returns it
    unchanged. *)
Theorem simple_nms_fallback_idempotent (dets : list AmbulanceDetection) (thr : Q) :
  _simple_nms_fallback (_simple_nms_fallback dets thr) thr = _simple_nms_fallback dets thr.
Proof.
  rewrite (simple_nms_fallback_unfold (_simple_nms_fallback dets thr)).
  set (K := _simple_nms_fallback dets thr).
  assert (HK : StronglySorted conf_ge K /\ StronglySorted (compatible thr) K).
  { subst K. rewrite simple_nms_fallback_unfold.
    destruct (nms_fallback_loop_spec (length (sorted_by_confidence dets)) thr
                (sorted_by_confidence dets)) as (Hsub & Hcomp & _ & _); [done |].
    split; [| done].
    exact (StronglySorted_sublist _ _ _ Hsub (sorted_by_confidence_sorted dets)). }
  destruct HK as [Hs Hc].
  rewrite (sorted_by_confidence_id K Hs). by apply nms_fallback_loop_id.
Qed.

(** ** Letterbox geometry *)

Lemma py_int_nonneg (q : Q) :
  0 <= q -> (0 <= py_int q)%Z /\ inject_Z (py_int q) <= q.
Proof.
  intros Hq. destruct q as [n d]. unfold py_int. cbn [Qnum Qden].
  assert (Hn : (0 <= n)%Z).
  { unfold Qle in Hq. cbn in Hq. lia. }
  split.
  - apply Z.quot_pos; lia.
  - unfold Qle, inject_Z. cbn [Qnum Qden].
    rewrite Z.quot_div_nonneg by lia.
    pose proof (Z.mul_div_le n (Z.pos d) ltac:(lia)). lia.
Qed.

Lemma inject_Z_pos (z : Z) : (0 < z)%Z -> 0 < inject_Z z.
Proof. unfold Qlt, inject_Z. cbn. lia. Qed.

Lemma inject_Z_le (a b : Z) : inject_Z a <= inject_Z b -> (a <= b)%Z.
Proof. unfold Qle, inject_Z. cbn. lia. Qed.

(** X16.  For an image and a network input with positive sides,
    [preprocess] divides by no zero, its scale is positive, and the
    resized image fits the canvas at the padding offset:
    [canvas[dy:dy+new_height, dx:dx+new_width]] is a slice of exactly
    [new_height x new_width] cells. *)
Theorem preprocess_image_fits_canvas (input_width input_height img_width img_height : Z) :
  (0 < input_width)%Z -> (0 < input_height)%Z -> (0 < img_width)%Z -> (0 < img_height)%Z ->
  exists ratio new_width new_height dx dy,
    preprocess_geometry input_width input_height img_width img_height
      = Some (ratio, (new_width, new_height), (dx, dy)) /\
    0 < ratio /\
    (0 <= new_width <= input_width)%Z /\ (0 <= new_height <= input_height)%Z /\
    (0 <= dx)%Z /\ (dx + new_width <= input_width)%Z /\
    (0 <= dy)%Z /\ (dy + new_height <= input_height)%Z.
Proof.
  intros HW HH Hw Hh. unfold preprocess_geometry.
  destruct (Z.eqb_spec img_width 0); [lia |].
  destruct (Z.eqb_spec img_height 0); [lia |]. cbn [orb]. cbv zeta.
  set (ratio := Qmin (inject_Z input_width / inject_Z img_width)
                     (inject_Z input_height / inject_Z img_height)).
  assert (HWq : 0 < inject_Z input_width) by (apply inject_Z_pos; lia).
  assert (HHq : 0 < inject_Z input_height) by (apply inject_Z_pos; lia).
  assert (Hwq : 0 < inject_Z img_width) by (apply inject_Z_pos; lia).
  assert (Hhq : 0 < inject_Z img_height) by (apply inject_Z_pos; lia).
  assert (Hrw : 0 < inject_Z input_width / inject_Z img_width)
    by (apply Qlt_shift_div_l; lra).
  assert (Hrh : 0 < inject_Z input_height / inject_Z img_height)
    by (apply Qlt_shift_div_l; lra).
  assert (Hr : 0 < ratio /\ ratio <= inject_Z input_width / inject_Z img_width /\
               ratio <= inject_Z input_height / inject_Z img_height).
  { subst ratio. pose proof (Q.le_min_l (inject_Z input_width / inject_Z img_width)
                               (inject_Z input_height / inject_Z img_height)).
    pose proof (Q.le_min_r (inject_Z input_width / inject_Z img_width)
                  (inject_Z input_height / inject_Z img_height)).
    split; [| done].
    destruct (Q.min_spec (inject_Z input_width / inject_Z img_width)
                (inject_Z input_height / inject_Z img_height)) as [[_ ->]|[_ ->]]; done. }
  destruct Hr as (Hr0 & Hr1 & Hr2).
  assert (Hnw : 0 <= inject_Z img_width * ratio <= inject_Z input_width).
  { split; [nra |].
    assert (inject_Z img_width * (inject_Z input_width / inject_Z img_width)
            == inject_Z input_width) by (field; lra).
    assert (inject_Z img_width * ratio
            <= inject_Z img_width * (inject_Z input_width / inject_Z img_width)); [| lra].
    apply Qmult_le_l; lra. }
  assert (Hnh : 0 <= inject_Z img_height * ratio <= inject_Z input_height).
  { split; [nra |].
    assert (inject_Z img_height * (inject_Z input_height / inject_Z img_height)
            == inject_Z input_height) by (field; lra).
    assert (inject_Z img_height * ratio
            <= inject_Z img_height * (inject_Z input_height / inject_Z img_height)); [| lra].
    apply Qmult_le_l; lra. }
  destruct (py_int_nonneg (inject_Z img_width * ratio)) as [Hw0 Hw1]; [lra |].
  destruct (py_int_nonneg (inject_Z img_height * ratio)) as [Hh0 Hh1]; [lra |].
  set (nw := py_int (inject_Z img_width * ratio)) in *.
  set (nh := py_int (inject_Z img_height * ratio)) in *.
  assert (Hnw' : (nw <= input_width)%Z) by (apply inject_Z_le; lra).
  assert (Hnh' : (nh <= input_height)%Z) by (apply inject_Z_le; lra).
  eexists _, _, _, _, _. split; [reflexivity |].
  split; [done |].
  pose proof (Z.div_pos (input_width - nw) 2 ltac:(lia) ltac:(lia)).
  pose proof (Z.div_pos (input_height - nh) 2 ltac:(lia) ltac:(lia)).
  pose proof (Z.mul_div_le (input_width - nw) 2 ltac:(lia)).
  pose proof (Z.mul_div_le (input_height - nh) 2 ltac:(lia)).
  repeat split; lia.
Qed.

Lemma preprocess_image_fits_canvas_witness :
  exists ratio new_width new_height dx dy,
    preprocess_geometry 640 640 1280 720 = Some (ratio, (new_width, new_height), (dx, dy)) /\
    0 < ratio /\
    (0 <= new_width <= 640)%Z /\ (0 <= new_height <= 640)%Z /\
    (0 <= dx)%Z /\ (dx + new_width <= 640)%Z /\
    (0 <= dy)%Z /\ (dy + new_height <= 640)%Z.
Proof. apply (preprocess_image_fits_canvas 640 640 1280 720); lia. Defined.

(** X17.  [postprocess] undoes the geometry of [preprocess]: a box inside
    the image, carried to the canvas by scaling with [ratio] and
    shifting by the padding, is mapped back to itself. *)
Theorem remap_box_inverts_preprocess (ratio : Q) (pad img_shape : Z * Z) (b : BBox) :
  0 < ratio ->
  0 <= bx1 b <= inject_Z (snd img_shape) -> 0 <= bx2 b <= inject_Z (snd img_shape) ->
  0 <= by1 b <= inject_Z (fst img_shape) -> 0 <= by2 b <= inject_Z (fst img_shape) ->
  let pasted :=
    {| bx1 := fst (canvas_point ratio pad (bx1 b, by1 b));
       by1 := snd (canvas_point ratio pad (bx1 b, by1 b));
       bx2 := fst (canvas_point ratio pad (bx2 b, by2 b));
       by2 := snd (canvas_point ratio pad (bx2 b, by2 b)) |} in
  let back := remap_box ratio pad img_shape pasted in
  bx1 back == bx1 b /\ by1 back == by1 b /\ bx2 back == bx2 b /\ by2 back == by2 b.
Proof.
  intros Hr Hx1 Hx2 Hy1 Hy2. cbv zeta. unfold remap_box, canvas_point, clip.
  cbn [bx1 by1 bx2 by2 fst snd].
  assert (Hinv : forall x d, (x * ratio + d - d) / ratio == x).
  { intros x d. field. lra. }
  assert (Hclip : forall x hi, 0 <= x <= hi -> Qmin (Qmax x 0) hi == x).
  { intros x hi [H0 H1]. rewrite (Q.max_l x 0) by done. by rewrite Q.min_l. }
  rewrite !Hinv. rewrite !Hclip by done. done.
Qed.

Lemma remap_box_inverts_preprocess_witness :
  let b := mkBBox 100 100 200 200 in
  let pasted :=
    {| bx1 := fst (canvas_point (1 # 2) (0, 140)%Z (bx1 b, by1 b));
       by1 := snd (canvas_point (1 # 2) (0, 140)%Z (bx1 b, by1 b));
       bx2 := fst (canvas_point (1 # 2) (0, 140)%Z (bx2 b, by2 b));
       by2 := snd (canvas_point (1 # 2) (0, 140)%Z (bx2 b, by2 b)) |} in
  let back := remap_box (1 # 2) (0, 140)%Z (720, 1280)%Z pasted in
  bx1 back == bx1 b /\ by1 back == by1 b /\ bx2 back == bx2 b /\ by2 back == by2 b.
Proof.
  apply (remap_box_inverts_preprocess (1 # 2) (0, 140)%Z (720, 1280)%Z (mkBBox 100 100 200 200));
    vm_compute; try reflexivity; split; discriminate.
Defined.

(** ** Non-maximum suppression: what is kept and what is dropped *)

Lemma compress_map_filter {A B} (f : A -> bool) (g : A -> B) (l : list A) :
  compress (map f l) (map g l) = map g (filter (fun x => f x = true) l).
Proof.
  induction l as [|x l IH]; [done |]. cbn [map compress]. rewrite filter_cons.
  destruct (f x) eqn:E.
  - rewrite decide_True by done. cbn [map]. by rewrite IH.
  - rewrite decide_False by done. done.
Qed.

Lemma nms_loop_acc fuel thr bs os keep :
  nms_loop fuel thr bs os keep = keep ++ nms_loop fuel thr bs os [].
Proof.
  revert bs os keep. induction fuel as [|f IH]; intros bs os keep; cbn [nms_loop].
  - by rewrite app_nil_r.
  - destruct bs as [|b0 rest]; [by rewrite app_nil_r |].
    destruct os as [|o0 orest]; [by rewrite app_nil_r |]. cbv zeta.
    destruct (Nat.eqb _ 1); [done |].
    rewrite IH. rewrite (IH _ _ ([] ++ [o0])). by rewrite <- !app_assoc.
Qed.

Lemma nms_loop_cons fuel thr (p : nat * BBox) (rest : list (nat * BBox)) :
  (length rest <= fuel)%nat ->
  nms_loop (S fuel) thr (map snd (p :: rest)) (map fst (p :: rest)) [] =
  p.1 :: nms_loop fuel thr (map snd (filter (passes thr p) rest))
           (map fst (filter (passes thr p) rest)) [].
Proof.
  intros Hlen. cbn [nms_loop map]. cbv zeta.
  destruct (Nat.eqb_spec (length (p.2 :: map snd rest)) 1) as [H1|H1].
  - destruct rest; [| done]. cbn. by destruct fuel.
  - unfold bbox_iou. cbn [map hd]. rewrite !map_map.
    rewrite (compress_map_filter (fun x => fval_le (iou_pair p.2 x.2) thr) snd rest).
    rewrite (compress_map_filter (fun x => fval_le (iou_pair p.2 x.2) thr) fst rest).
    by rewrite nms_loop_acc.
Qed.

Lemma nms_loop_spec (R : nat * BBox -> nat * BBox -> Prop) fuel thr (L : list (nat * BBox)) :
  (length L <= fuel)%nat ->
  exists K,
    nms_loop fuel thr (map snd L) (map fst L) [] = map fst K /\
    sublist K L /\ head K = head L /\
    StronglySorted (passes thr) K /\
    (StronglySorted R L ->
     forall q, q ∈ L -> q ∈ K \/ exists p, p ∈ K /\ R p q /\ ~ passes thr p q).
Proof.
  revert L. induction fuel as [|f IH]; intros L Hlen.
  { destruct L; [| cbn in Hlen; lia]. exists []. cbn.
    split; [done |]. split; [constructor |]. split; [done |]. split; [constructor |].
    intros _ q Hq. by apply elem_of_nil in Hq. }
  destruct L as [|p rest].
  { exists []. cbn.
    split; [done |]. split; [constructor |]. split; [done |]. split; [constructor |].
    intros _ q Hq. by apply elem_of_nil in Hq. }
  cbn [length] in Hlen.
  rewrite nms_loop_cons by lia.
  assert (Hlen' : (length (filter (passes thr p) rest) <= f)%nat).
  { pose proof (length_filter (passes thr p) rest). lia. }
  destruct (IH (filter (passes thr p) rest) Hlen') as (K & HK & Hsub & _ & Hpass & Hcov).
  exists (p :: K). rewrite HK.
  split; [done |]. split; [| split; [done |]; split].
  - constructor. etrans; [exact Hsub | apply sublist_filter].
  - constructor; [done |].
    apply List.Forall_forall. intros y Hy%list_elem_of_In.
    assert (Hy' : y ∈ filter (passes thr p) rest) by (eapply elem_of_sublist; done).
    apply list_elem_of_filter in Hy'. by destruct Hy'.
  - intros Hsorted q Hq. inversion Hsorted as [|? ? Hs Hall]; subst.
    apply elem_of_cons in Hq. destruct Hq as [-> | Hq]; [left; by left |].
    destruct (decide (passes thr p q)) as [Hp|Hp].
    + destruct (Hcov (StronglySorted_sublist _ _ _ (sublist_filter _ rest) Hs) q)
        as [Hin | (k & Hk & Hge & Hiou)].
      * apply list_elem_of_filter. by split.
      * left. by right.
      * right. exists k. split; [by right | done].
    + right. exists p. split; [by left |]. split; [| done].
      rewrite List.Forall_forall in Hall. apply Hall. by apply list_elem_of_In.
Qed.

Lemma argsort_insert_sorted scores i l :
  StronglySorted (score_le scores) l -> StronglySorted (score_le scores) (argsort_insert scores i l).
Proof.
  induction 1 as [|j r Hs IH Hall]; cbn [argsort_insert].
  - repeat constructor.
  - destruct (Qltb _ _) eqn:E.
    + apply Qltb_lt in E. constructor; [by constructor |].
      constructor; [unfold score_le; lra |].
      eapply Forall_impl; [exact Hall |]. unfold score_le. intros x Hx. cbv beta in *. lra.
    + apply Qltb_false in E. constructor; [done |].
      rewrite argsort_insert_perm. by constructor.
Qed.

Lemma argsort_sorted scores : StronglySorted (score_le scores) (argsort scores).
Proof.
  unfold argsort.
  assert (H : forall l acc, StronglySorted (score_le scores) acc ->
            StronglySorted (score_le scores)
              (fold_left (fun sorted i => argsort_insert scores i sorted) l acc)).
  { induction l as [|a l IH]; intros acc Hacc; [done |].
    cbn [fold_left]. apply IH. by apply argsort_insert_sorted. }
  apply H. constructor.
Qed.

Lemma StronglySorted_snoc {A} (R : A -> A -> Prop) (l : list A) (x : A) :
  StronglySorted R l -> Forall (fun y => R y x) l -> StronglySorted R (l ++ [x]).
Proof.
  induction 1 as [|y l Hs IH Hall]; intros Hx; cbn [app].
  - repeat constructor.
  - apply Forall_cons in Hx. destruct Hx as [Hyx Hx].
    constructor; [by apply IH |].
    apply Forall_app. split; [done | by constructor].
Qed.

Lemma StronglySorted_rev {A} (R : A -> A -> Prop) (l : list A) :
  StronglySorted R l -> StronglySorted (flip R) (rev l).
Proof.
  induction 1 as [|x l Hs IH Hall]; [constructor |].
  cbn [rev]. apply StronglySorted_snoc; [done |].
  rewrite List.Forall_forall in *. intros y Hy. apply Hall. by apply in_rev.
Qed.

Lemma StronglySorted_zip_fst {A B} (R : A -> A -> Prop) (l : list A) (k : list B) :
  StronglySorted R l -> StronglySorted (fun p q => R p.1 q.1) (zip l k).
Proof.
  intros Hs. revert k. induction Hs as [|x l Hs IH Hall]; intros k; [constructor |].
  destruct k as [|b k]; [constructor |]. cbn [zip zip_with].
  constructor; [apply IH |].
  apply List.Forall_forall. intros [y c] Hy%list_elem_of_In.
  apply elem_of_zip_l in Hy. cbn.
  rewrite List.Forall_forall in Hall. by apply Hall, list_elem_of_In.
Qed.

Lemma non_max_suppression_pairs boxes scores thr :
  length scores = length boxes ->
  exists L K : list (nat * BBox),
    Permutation (map fst L) (seq 0 (length boxes)) /\
    Forall (fun p => boxes !! p.1 = Some p.2) L /\
    non_max_suppression boxes scores thr = Some (map fst K) /\
    sublist K L /\ head K = head L /\
    StronglySorted (fun p q => score_le scores q.1 p.1) K /\
    StronglySorted (passes thr) K /\
    (forall q, q ∈ L ->
       q ∈ K \/ exists p, p ∈ K /\ score_le scores q.1 p.1 /\ ~ passes thr p q) /\
    (forall p q, head L = Some p -> q ∈ L -> score_le scores q.1 p.1).
Proof.
  intros Hlen. unfold non_max_suppression.
  destruct (Nat.eqb_spec (length boxes) 0) as [H0|H0].
  { exists [], []. rewrite H0. cbn.
    split; [done |]. split; [constructor |]. split; [done |]. split; [constructor |].
    split; [done |]. split; [constructor |]. split; [constructor |].
    split; [intros q Hq; by apply elem_of_nil in Hq | done]. }
  set (order := rev (argsort scores)).
  assert (Hperm : Permutation order (seq 0 (length boxes))).
  { subst order. rewrite <- Hlen, <- argsort_perm. symmetry. apply Permutation_rev. }
  assert (Hsome : is_Some (mapM (fun i => boxes !! i) order)).
  { apply mapM_is_Some. apply Forall_forall. intros i Hi. cbv beta.
    apply lookup_lt_is_Some. rewrite Hperm in Hi.
    apply list_elem_of_In, in_seq in Hi. lia. }
  destruct Hsome as [bs Hbs]. rewrite Hbs. cbn [mbind option_bind].
  apply mapM_Some in Hbs.
  pose proof (Forall2_length _ _ _ Hbs) as Hl2.
  set (L := zip order bs).
  assert (HL1 : map fst L = order) by (apply fst_zip; lia).
  assert (HL2 : map snd L = bs) by (apply snd_zip; lia).
  assert (Hsorted : StronglySorted (fun p q => score_le scores q.1 p.1) L).
  { apply (StronglySorted_zip_fst (flip (score_le scores))).
    apply StronglySorted_rev, argsort_sorted. }
  destruct (nms_loop_spec (fun p q => score_le scores q.1 p.1) (length bs) thr L)
    as (K & HK & Hsub & Hhd & Hpass & Hcov).
  { rewrite <- HL2. by rewrite length_map. }
  exists L, K. rewrite HL1, HL2 in HK. rewrite HK.
  split; [by rewrite HL1 |]. split.
  { apply List.Forall_forall. intros [i b] Hp%list_elem_of_In.
    apply list_elem_of_lookup in Hp. destruct Hp as [n Hn].
    subst L. apply lookup_zip_Some in Hn. destruct Hn as [Hi Hb].
    cbn. exact (Forall2_lookup_lr _ _ _ _ _ _ Hbs Hi Hb). }
  split; [done |]. split; [done |]. split; [done |].
  split; [exact (StronglySorted_sublist _ _ _ Hsub Hsorted) |].
  split; [done |]. split; [by apply Hcov |].
  intros p q Hp Hq. destruct L as [|p' L']; [done |]. cbn in Hp. injection Hp as ->.
  apply elem_of_cons in Hq. destruct Hq as [-> | Hq]; [unfold score_le; lra |].
  inversion Hsorted as [|? ? _ Hall]; subst.
  rewrite List.Forall_forall in Hall. by apply Hall, list_elem_of_In.
Qed.

(** X11.  [non_max_suppression], given one score per box, returns
    distinct valid indices in order of non-increasing score, and no box
    it keeps is suppressed by a box kept before it: their IoU is at most
    the threshold. *)
Theorem nms_kept_boxes_do_not_overlap (boxes : list BBox) (scores : list Q) (thr : Q) :
  length scores = length boxes ->
  exists keep,
    non_max_suppression boxes scores thr = Some keep /\
    NoDup keep /\
    (forall i, i ∈ keep -> (i < length boxes)%nat) /\
    (forall p q i j, (p < q)%nat -> keep !! p = Some i -> keep !! q = Some j ->
       nth j scores 0 <= nth i scores 0 /\
       exists bi bj, boxes !! i = Some bi /\ boxes !! j = Some bj /\
         fval_le (iou_pair bi bj) thr = true).
Proof.
  intros Hlen.
  destruct (non_max_suppression_pairs boxes scores thr Hlen)
    as (L & K & Hperm & Hbox & Hnms & Hsub & _ & Hscore & Hpass & _ & _).
  exists (map fst K). split; [done |].
  assert (Hsubk : sublist (map fst K) (map fst L)) by exact (fmap_sublist fst _ _ Hsub).
  assert (HndL : NoDup (map fst L)).
  { rewrite Hperm. apply NoDup_ListNoDup, seq_NoDup. }
  split; [by eapply sublist_NoDup |]. split.
  - intros i Hi.
    assert (Hi' : i ∈ seq 0 (length boxes)).
    { rewrite <- Hperm. by eapply elem_of_sublist. }
    apply list_elem_of_In, in_seq in Hi'. lia.
  - intros p q i j Hpq Hi Hj.
    apply list_lookup_fmap_Some in Hi. destruct Hi as ([i' bi] & -> & Hi).
    apply list_lookup_fmap_Some in Hj. destruct Hj as ([j' bj] & -> & Hj).
    cbn [fst].
    split; [exact (StronglySorted_lookup _ _ p q _ _ Hscore Hpq Hi Hj) |].
    exists bi, bj.
    rewrite List.Forall_forall in Hbox.
    split; [| split].
    + apply (Hbox (i', bi)), list_elem_of_In.
      eapply elem_of_sublist; [| exact Hsub]. by eapply list_elem_of_lookup_2.
    + apply (Hbox (j', bj)), list_elem_of_In.
      eapply elem_of_sublist; [| exact Hsub]. by eapply list_elem_of_lookup_2.
    + exact (StronglySorted_lookup _ _ p q _ _ Hpass Hpq Hi Hj).
Qed.

Lemma nms_kept_boxes_do_not_overlap_witness :
  exists keep,
    non_max_suppression disjoint_boxes [5 # 10; 5 # 10; 7 # 10] (45 # 100) = Some keep /\
    NoDup keep /\
    (forall i, i ∈ keep -> (i < length disjoint_boxes)%nat) /\
    (forall p q i j, (p < q)%nat -> keep !! p = Some i -> keep !! q = Some j ->
       nth j [5 # 10; 5 # 10; 7 # 10] 0 <= nth i [5 # 10; 5 # 10; 7 # 10] 0 /\
       exists bi bj, disjoint_boxes !! i = Some bi /\ disjoint_boxes !! j = Some bj /\
         fval_le (iou_pair bi bj) (45 # 100) = true).
Proof.
  apply (nms_kept_boxes_do_not_overlap disjoint_boxes [5 # 10; 5 # 10; 7 # 10] (45 # 100)).
  reflexivity.
Defined.

(** X12.  Every box that [non_max_suppression] drops was dropped for a
    reason: some kept box with a score at least as high fails the test
    [iou <= threshold] against it.  When there is a box at all, the first
    index returned is one of highest score. *)
Theorem nms_suppressed_box_overlaps_kept_one (boxes : list BBox) (scores : list Q) (thr : Q) :
  length scores = length boxes ->
  exists keep,
    non_max_suppression boxes scores thr = Some keep /\
    (forall j bj, boxes !! j = Some bj ->
       j ∈ keep \/
       exists i bi, i ∈ keep /\ boxes !! i = Some bi /\
         nth j scores 0 <= nth i scores 0 /\
         fval_le (iou_pair bi bj) thr = false) /\
    (boxes <> [] ->
     exists i rest, keep = i :: rest /\
       forall j, (j < length boxes)%nat -> nth j scores 0 <= nth i scores 0).
Proof.
  intros Hlen.
  destruct (non_max_suppression_pairs boxes scores thr Hlen)
    as (L & K & Hperm & Hbox & Hnms & Hsub & Hhd & _ & _ & Hcov & Hmax).
  exists (map fst K). split; [done |].
  rewrite List.Forall_forall in Hbox.
  assert (HinL : forall j bj, boxes !! j = Some bj -> (j, bj) ∈ L).
  { intros j bj Hj.
    assert (Hj' : j ∈ map fst L).
    { rewrite Hperm. apply list_elem_of_In, in_seq.
      apply lookup_lt_Some in Hj. lia. }
    apply list_elem_of_fmap in Hj'. destruct Hj' as ([j' b] & -> & Hin).
    pose proof (Hbox _ (proj1 (list_elem_of_In _ _) Hin)) as Hb. cbn in Hb, Hj.
    rewrite Hj in Hb. injection Hb as ->. done. }
  split.
  - intros j bj Hj. destruct (Hcov (j, bj) (HinL j bj Hj)) as [Hin | ([i bi] & Hin & Hs & Hp)].
    + left. apply list_elem_of_fmap. by exists (j, bj).
    + right. exists i, bi. split; [apply list_elem_of_fmap; by exists (i, bi) |].
      split.
      * apply (Hbox (i, bi)), list_elem_of_In. by eapply elem_of_sublist.
      * split; [done |]. unfold passes in Hp. cbn in Hp. by destruct (fval_le _ _).
  - intros Hne. destruct L as [|[i bi] L'] eqn:EL.
    { apply Permutation_nil_l in Hperm. destruct boxes; [done | discriminate]. }
    destruct K as [|k K']; [done |]. cbn in Hhd. injection Hhd as ->.
    exists i, (map fst K'). split; [done |]. intros j Hj.
    destruct (lookup_lt_is_Some_2 boxes j Hj) as [bj Hbj].
    rewrite <- EL in HinL.
    assert (Hq : (j, bj) ∈ (i, bi) :: L') by (rewrite <- EL; by apply HinL).
    exact (Hmax (i, bi) (j, bj) eq_refl Hq).
Qed.

Lemma nms_suppressed_box_overlaps_kept_one_witness :
  exists keep,
    non_max_suppression [square_box 0 0; square_box 1 1] [5 # 10; 9 # 10] (45 # 100)
      = Some keep /\
    (forall j bj, [square_box 0 0; square_box 1 1] !! j = Some bj ->
       j ∈ keep \/
       exists i bi, i ∈ keep /\ [square_box 0 0; square_box 1 1] !! i = Some bi /\
         nth j [5 # 10; 9 # 10] 0 <= nth i [5 # 10; 9 # 10] 0 /\
         fval_le (iou_pair bi bj) (45 # 100) = false) /\
    ([square_box 0 0; square_box 1 1] <> [] ->
     exists i rest, keep = i :: rest /\
       forall j, (j < length [square_box 0 0; square_box 1 1])%nat ->
         nth j [5 # 10; 9 # 10] 0 <= nth i [5 # 10; 9 # 10] 0).
Proof.
  apply (nms_suppressed_box_overlaps_kept_one [square_box 0 0; square_box 1 1]
           [5 # 10; 9 # 10] (45 # 100)).
  reflexivity.
Defined.

(** ** The decoder's output *)




Lemma row_argmax_spec (all pre r : list Q) (best : nat) (x : Q) :
  all = pre ++ r -> (best < length pre)%nat -> nth best all 0 = x ->
  (forall k, (k < length pre)%nat -> nth k all 0 <= x) ->
  (forall k, (k < best)%nat -> nth k all 0 < x) ->
  let best' := row_argmax_from (length pre) best x r in
  let x' := row_max x r in
  (best' < length all)%nat /\ nth best' all 0 = x' /\
  (forall k, (k < length all)%nat -> nth k all 0 <= x') /\
  (forall k, (k < best')%nat -> nth k all 0 < x').
Proof.
  revert pre best x. induction r as [|y r IH]; intros pre best x Hall Hb Hx Hle Hlt.
  - cbn. rewrite app_nil_r in Hall. subst all. done.
  - cbn [row_argmax_from row_max]. cbv zeta.
    assert (Hall' : all = (pre ++ [y]) ++ r) by (by rewrite <- app_assoc).
    assert (Hy : nth (length pre) all 0 = y).
    { rewrite Hall. rewrite app_nth2 by lia. by rewrite Nat.sub_diag. }
    assert (Hlen : length (pre ++ [y]) = S (length pre)).
    { rewrite length_app. cbn. lia. }
    destruct (Qltb x y) eqn:E.
    + apply Qltb_lt in E.
      specialize (IH (pre ++ [y]) (length pre) y Hall').
      rewrite Hlen in IH. apply IH; [lia | done | |].
      * intros k Hk. destruct (decide (k = length pre)) as [-> | Hne]; [rewrite Hy; lra |].
        specialize (Hle k ltac:(lia)). lra.
      * intros k Hk. specialize (Hle k Hk). lra.
    + apply Qltb_false in E.
      specialize (IH (pre ++ [y]) best x Hall').
      rewrite Hlen in IH. apply IH; [lia | done | | done].
      intros k Hk. destruct (decide (k = length pre)) as [-> | Hne]; [rewrite Hy; lra |].
      apply Hle. lia.
Qed.

(** X14.  For an anchor row with at least one class score, the class
    reported by the decoder is a valid class index, the confidence is
    that class's score, no class scores higher, and every class before
    it scores strictly lower ([np.argmax] returns the first maximum). *)
Theorem decode_row_picks_first_maximum (row : list Q) :
  (5 <= length row)%nat ->
  let c := decode_row row in
  let class_scores := drop 4 row in
  (cand_class c < length class_scores)%nat /\
  nth (cand_class c) class_scores 0 = cand_score c /\
  (forall k, (k < length class_scores)%nat -> nth k class_scores 0 <= cand_score c) /\
  (forall k, (k < cand_class c)%nat -> nth k class_scores 0 < cand_score c).
Proof.
  intros Hlen. cbv zeta. unfold decode_row. cbv zeta. cbn [cand_class cand_score].
  destruct (drop 4 row) as [|s0 rest] eqn:E.
  { apply (f_equal length) in E. rewrite length_drop in E. cbn in E. lia. }
  cbn [hd tl].
  apply (row_argmax_spec (s0 :: rest) [s0] rest 0 s0); try done; cbn [length].
  - lia.
  - intros k Hk. assert (k = 0%nat) as -> by lia. cbn. lra.
  - intros k Hk. lia.
Qed.

Lemma decode_row_picks_first_maximum_witness :
  let row := [100; 100; 20; 20; 1 # 10; 9 # 10; 9 # 10] in
  let c := decode_row row in
  let class_scores := drop 4 row in
  (cand_class c < length class_scores)%nat /\
  nth (cand_class c) class_scores 0 = cand_score c /\
  (forall k, (k < length class_scores)%nat -> nth k class_scores 0 <= cand_score c) /\
  (forall k, (k < cand_class c)%nat -> nth k class_scores 0 < cand_score c).
Proof.
  apply (decode_row_picks_first_maximum [100; 100; 20; 20; 1 # 10; 9 # 10; 9 # 10]).
  cbn [length]. lia.
Defined.

Lemma clip_spec (x hi : Q) :
  clip x 0 hi <= hi /\ (clip x 0 hi < hi -> 0 <= clip x 0 hi).
Proof.
  unfold clip. split; [apply Q.le_min_r |]. intros Hlt.
  pose proof (Q.le_max_r x 0).
  destruct (Q.min_spec (Qmax x 0) hi) as [[? Hm]|[? Hm]]; rewrite Hm in *; lra.
Qed.

(** X15.  Every detection returned by [postprocess] has a box of positive
    width and height inside the image, [0 <= x1 < x2 <= width] and
    [0 <= y1 < y2 <= height], a confidence of at least the threshold in
    force, and the decimal class id as class name.  [ratio] is positive,
    as [preprocess] computes it. *)
Theorem postprocess_detections_inside_image
    (self : ONNXYOLODetector) (outputs : list ndarray) (ratio : Q)
    (pad img_shape : Z * Z) (conf : option Q) (dets : list RawDetection) :
  0 < ratio ->
  postprocess self outputs ratio pad img_shape conf = Returns dets ->
  forall d, d ∈ dets ->
    0 <= bx1 (raw_bbox d) /\ bx1 (raw_bbox d) < bx2 (raw_bbox d) /\
    bx2 (raw_bbox d) <= inject_Z (snd img_shape) /\
    0 <= by1 (raw_bbox d) /\ by1 (raw_bbox d) < by2 (raw_bbox d) /\
    by2 (raw_bbox d) <= inject_Z (fst img_shape) /\
    default (conf_thres self) conf <= raw_confidence d /\
    raw_class_name d = pretty (raw_class_id d).
Proof.
  intros _ Hpost d Hd. unfold postprocess in Hpost.
  destruct (postprocess_try self outputs ratio pad img_shape conf) as [ds|e] eqn:Htry.
  2:{ injection Hpost as <-. by apply elem_of_nil in Hd. }
  injection Hpost as ->. unfold postprocess_try in Htry.
  destruct (predictions_2d outputs) as [[ncols rows]|e]; [| done].
  cbn [obind] in Htry.
  destruct (ncols <=? 4)%nat; [done |]. cbv zeta in Htry.
  set (thr := match conf with Some c => c | None => conf_thres self end) in *.
  assert (Hthr : default (conf_thres self) conf = thr) by (by destruct conf).
  rewrite Hthr.
  remember (filter (fun c => Qle_bool thr (cand_score c) = true) (map decode_row rows))
    as valid eqn:Ev.
  destruct valid as [|v0 vs].
  { injection Htry as <-. by apply elem_of_nil in Hd. }
  destruct (non_max_suppression _ _ _) as [keep|]; [| done].
  injection Htry as <-.
  apply list_elem_of_omap in Hd. destruct Hd as (c & Hc & Hd).
  apply list_elem_of_omap in Hc. destruct Hc as (i & _ & Hc).
  assert (Hcv : c ∈ v0 :: vs) by (by eapply list_elem_of_lookup_2).
  rewrite Ev in Hcv. apply list_elem_of_filter in Hcv.
  destruct Hcv as [Hscore _]. apply Qle_bool_iff in Hscore.
  cbv zeta in Hd.
  destruct (Qle_bool _ _ || Qle_bool _ _) eqn:E; [done |].
  apply inter_cond_false in E. destruct E as [Ex Ey].
  injection Hd as <-. cbn [raw_bbox raw_confidence raw_class_id raw_class_name].
  unfold remap_box in *. cbn [bx1 by1 bx2 by2] in *.
  destruct (clip_spec ((bx1 (cand_box c) - inject_Z pad.1) / ratio) (inject_Z img_shape.2)).
  destruct (clip_spec ((bx2 (cand_box c) - inject_Z pad.1) / ratio) (inject_Z img_shape.2)).
  destruct (clip_spec ((by1 (cand_box c) - inject_Z pad.2) / ratio) (inject_Z img_shape.1)).
  destruct (clip_spec ((by2 (cand_box c) - inject_Z pad.2) / ratio) (inject_Z img_shape.1)).
  repeat split; try done; lra.
Qed.

Lemma postprocess_detections_inside_image_witness :
  let d := {| raw_bbox := mkBBox (180 # 2) (180 # 2) (220 # 2) (220 # 2);
              raw_confidence := 9 # 10; raw_class_id := 0; raw_class_name := "0" |} in
  0 <= bx1 (raw_bbox d) /\ bx1 (raw_bbox d) < bx2 (raw_bbox d) /\
  bx2 (raw_bbox d) <= inject_Z 640 /\
  0 <= by1 (raw_bbox d) /\ by1 (raw_bbox d) < by2 (raw_bbox d) /\
  by2 (raw_bbox d) <= inject_Z 480 /\
  default (conf_thres sample_yolo) None <= raw_confidence d /\
  raw_class_name d = pretty (raw_class_id d).
Proof.
  apply (postprocess_detections_inside_image sample_yolo sample_output 1 (0, 0)%Z
           (480, 640)%Z None
           [ {| raw_bbox := mkBBox (180 # 2) (180 # 2) (220 # 2) (220 # 2);
                raw_confidence := 9 # 10; raw_class_id := 0; raw_class_name := "0" |};
             {| raw_bbox := mkBBox (580 # 2) (580 # 2) (620 # 2) (620 # 2);
                raw_confidence := 8 # 10; raw_class_id := 1; raw_class_name := "1" |} ]).
  - reflexivity.
  - vm_compute. reflexivity.
  - left.
Defined.

(** ** The matching loop takes nearest free detections *)

Lemma best_match_from_inv c maxd md all pre rest acc :
  all = pre ++ rest -> best_inv c maxd md all pre acc ->
  best_inv c maxd md all all (best_match_from c maxd md (length pre) rest acc).
Proof.
  revert pre acc. induction rest as [|y rest IH]; intros pre acc Hall Hinv.
  - cbn. rewrite app_nil_r in Hall. by subst.
  - cbn [best_match_from].
    assert (Hall' : all = (pre ++ [y]) ++ rest) by (by rewrite <- app_assoc).
    assert (Hlen : length (pre ++ [y]) = S (length pre)).
    { rewrite length_app. cbn. lia. }
    assert (Hy : all !! length pre = Some y).
    { rewrite Hall. rewrite lookup_app_r by lia. by rewrite Nat.sub_diag. }
    assert (Hpre : forall j cj, (pre ++ [y]) !! j = Some cj ->
              pre !! j = Some cj \/ (j = length pre /\ cj = y)).
    { intros j cj Hj. destruct (decide (j < length pre)%nat) as [Hlt|Hge].
      - left. by rewrite lookup_app_l in Hj.
      - right. rewrite lookup_app_r in Hj by lia.
        destruct (j - length pre)%nat as [|n] eqn:En; [| by destruct n].
        cbn in Hj. injection Hj as <-. split; [lia | done]. }
    specialize (IH (pre ++ [y])). rewrite Hlen in IH. apply IH; [done |]. clear IH.
    unfold best_match_step.
    destruct (decide (length pre ∈ md)) as [Hin|Hin].
    { rewrite bool_decide_eq_true_2 by done.
      unfold best_inv in *. destruct (snd acc) as [j|].
      - destruct Hinv as (cj & Hj & Hjl & Hjm & Hacc & Hr & Hmin & Hstrict).
        exists cj. split; [done |]. split; [lia |]. split; [done |]. split; [done |].
        split; [done |]. split.
        + intros j' cj' Hj' Hm'. destruct (Hpre j' cj' Hj') as [Hp | [-> ->]]; [eauto | done].
        + intros j' cj' Hlt Hj' Hm'. destruct (Hpre j' cj' Hj') as [Hp | [-> ->]]; [eauto | done].
      - destruct Hinv as [Hacc Hnone]. split; [done |].
        intros j' cj' Hj' Hm'. destruct (Hpre j' cj' Hj') as [Hp | [-> ->]]; [eauto | done]. }
    rewrite bool_decide_eq_false_2 by done.
    destruct (dist_lt (dist2 c y) maxd) eqn:Er.
    2:{ rewrite andb_false_r.
        unfold best_inv in *. destruct (snd acc) as [j|].
        - destruct Hinv as (cj & Hj & Hjl & Hjm & Hacc & Hr & Hmin & Hstrict).
          exists cj. split; [done |]. split; [lia |]. split; [done |]. split; [done |].
          split; [done |]. split.
          + intros j' cj' Hj' Hm' Hr'.
            destruct (Hpre j' cj' Hj') as [Hp | [-> ->]]; [eauto | congruence].
          + intros j' cj' Hlt Hj' Hm' Hr'.
            destruct (Hpre j' cj' Hj') as [Hp | [-> ->]]; [eauto | congruence].
        - destruct Hinv as [Hacc Hnone]. split; [done |].
          intros j' cj' Hj' Hm'. destruct (Hpre j' cj' Hj') as [Hp | [-> ->]]; [eauto | done]. }
    rewrite andb_true_r.
    unfold best_inv in Hinv. destruct acc as [m b]. cbn [fst snd] in *.
    destruct b as [j|].
    + destruct Hinv as (cj & Hj & Hjl & Hjm & -> & Hr & Hmin & Hstrict).
      cbn [dist_lt_min]. destruct (Qltb (dist2 c y) (dist2 c cj)) eqn:Elt.
      * apply Qltb_lt in Elt. unfold best_inv. cbn [fst snd].
        exists y. split; [done |]. split; [lia |]. split; [done |]. split; [done |].
        split; [done |]. split.
        -- intros j' cj' Hj' Hm' Hr'.
           destruct (Hpre j' cj' Hj') as [Hp | [-> ->]]; [| lra].
           specialize (Hmin j' cj' Hp Hm' Hr'). lra.
        -- intros j' cj' Hlt Hj' Hm' Hr'.
           destruct (Hpre j' cj' Hj') as [Hp | [-> ->]]; [| lia].
           specialize (Hmin j' cj' Hp Hm' Hr'). lra.
      * apply Qltb_false in Elt. unfold best_inv. cbn [fst snd].
        exists cj. split; [done |]. split; [lia |]. split; [done |]. split; [done |].
        split; [done |]. split.
        -- intros j' cj' Hj' Hm' Hr'.
           destruct (Hpre j' cj' Hj') as [Hp | [-> ->]]; [eauto | done].
        -- intros j' cj' Hlt Hj' Hm' Hr'.
           destruct (Hpre j' cj' Hj') as [Hp | [-> ->]]; [eauto | lia].
    + destruct Hinv as [-> Hnone]. cbn [dist_lt_min]. unfold best_inv. cbn [fst snd].
      exists y. split; [done |]. split; [lia |]. split; [done |]. split; [done |].
      split; [done |]. split.
      * intros j' cj' Hj' Hm' Hr'.
        destruct (Hpre j' cj' Hj') as [Hp | [-> ->]]; [| lra].
        rewrite (Hnone j' cj' Hp Hm') in Hr'. done.
      * intros j' cj' Hlt Hj' Hm' Hr'.
        destruct (Hpre j' cj' Hj') as [Hp | [-> ->]]; [| lia].
        rewrite (Hnone j' cj' Hp Hm') in Hr'. done.
Qed.

Lemma dist_lt_cases d d' maxd :
  dist_lt d maxd = true -> dist_lt d' maxd = false -> d < d'.
Proof.
  unfold dist_lt. intros [H0 H1]%andb_true_iff H2.
  rewrite H0 in H2. cbn [andb] in H2. apply Qltb_lt in H1. apply Qltb_false in H2. lra.
Qed.

Lemma find_best_match_nearest c maxd md centers :
  match find_best_match c maxd md centers with
  | Some j =>
      exists cj, centers !! j = Some cj /\ (j ∉ md) /\ dist_lt (dist2 c cj) maxd = true /\
        (forall j' cj', centers !! j' = Some cj' -> j' ∉ md -> dist2 c cj <= dist2 c cj') /\
        (forall j' cj', (j' < j)%nat -> centers !! j' = Some cj' -> j' ∉ md ->
           dist2 c cj < dist2 c cj')
  | None =>
      forall j cj, centers !! j = Some cj -> j ∉ md -> dist_lt (dist2 c cj) maxd = false
  end.
Proof.
  unfold find_best_match.
  pose proof (best_match_from_inv c maxd md centers [] centers (None, None) eq_refl) as H.
  cbn [length] in H.
  assert (H0 : best_inv c maxd md centers [] (None, None)).
  { unfold best_inv. cbn. split; [done |]. intros j cj Hj. done. }
  specialize (H H0). unfold best_inv in H.
  destruct (snd (best_match_from c maxd md 0 centers (None, None))) as [j|].
  - destruct H as (cj & Hj & _ & Hm & _ & Hr & Hmin & Hstrict).
    exists cj. split; [done |]. split; [done |]. split; [done |]. split.
    + intros j' cj' Hj' Hm'.
      destruct (dist_lt (dist2 c cj') maxd) eqn:E; [eauto |].
      pose proof (dist_lt_cases _ _ _ Hr E). lra.
    + intros j' cj' Hlt Hj' Hm'.
      destruct (dist_lt (dist2 c cj') maxd) eqn:E; [eauto |].
      exact (dist_lt_cases _ _ _ Hr E).
  - by destruct H.
Qed.

Lemma greedy_assign_spec maxd centers entries md mo :
  let A := greedy_assign maxd centers entries md mo in
  NoDup (map fst A) /\ NoDup (map snd A) /\
  (forall j, j ∈ map snd A -> j ∉ md) /\
  (forall id j, (id, j) ∈ A ->
     exists c cj, (id, c) ∈ entries /\ centers !! j = Some cj /\
       dist_lt (dist2 c cj) maxd = true /\
       (forall j' cj', centers !! j' = Some cj' -> j' ∉ md -> j' ∉ map snd A ->
          dist2 c cj <= dist2 c cj') /\
       (forall j' cj', (j' < j)%nat -> centers !! j' = Some cj' -> j' ∉ md ->
          j' ∉ map snd A -> dist2 c cj < dist2 c cj')) /\
  (forall id c, (id, c) ∈ entries -> id ∉ mo -> id ∉ map fst A ->
     forall j cj, centers !! j = Some cj -> dist_lt (dist2 c cj) maxd = true ->
       j ∈ md \/ j ∈ map snd A).
Proof.
  revert md mo. induction entries as [|[id c] r IH]; intros md mo; cbn [greedy_assign].
  { cbn. split; [constructor |]. split; [constructor |].
    split; [intros j Hj; by apply elem_of_nil in Hj |].
    split; [intros ?? H; by apply elem_of_nil in H |].
    intros ?? H. by apply elem_of_nil in H. }
  destruct (decide (id ∈ mo)) as [Hmo|Hmo].
  { rewrite bool_decide_eq_true_2 by done.
    destruct (IH md mo) as (Hnd1 & Hnd2 & Hmd & HA & Hun). cbv zeta.
    split; [done |]. split; [done |]. split; [done |]. split.
    - intros id' j H. destruct (HA id' j H) as (c' & cj & Hin & Hrest).
      exists c', cj. split; [by right | done].
    - intros id' c' Hin Hmo' HnA. apply elem_of_cons in Hin.
      destruct Hin as [[= -> ->] | Hin]; [done |]. exact (Hun id' c' Hin Hmo' HnA). }
  rewrite bool_decide_eq_false_2 by done.
  pose proof (find_best_match_nearest c maxd md centers) as Hbest.
  destruct (find_best_match c maxd md centers) as [j|].
  2:{ destruct (IH md mo) as (Hnd1 & Hnd2 & Hmd & HA & Hun). cbv zeta.
      split; [done |]. split; [done |]. split; [done |]. split.
      - intros id' j H. destruct (HA id' j H) as (c' & cj & Hin & Hrest).
        exists c', cj. split; [by right | done].
      - intros id' c' Hin Hmo' HnA j cj Hj Hr. apply elem_of_cons in Hin.
        destruct Hin as [[= -> ->] | Hin]; [| exact (Hun id' c' Hin Hmo' HnA j cj Hj Hr)].
        left. destruct (decide (j ∈ md)); [done |].
        rewrite (Hbest j cj Hj) in Hr; done. }
  destruct Hbest as (cj & Hj & Hjm & Hr & Hmin & Hstrict).
  destruct (IH ({[j]} ∪ md) ({[id]} ∪ mo)) as (Hnd1 & Hnd2 & Hmd & HA & Hun).
  set (A' := greedy_assign maxd centers r ({[j]} ∪ md) ({[id]} ∪ mo)) in *.
  cbv zeta. cbn [map].
  assert (HidA : id ∉ map fst A').
  { intros H. apply greedy_assign_fst in H as [_ H]. set_solver. }
  assert (HjA : j ∉ map snd A').
  { intros H. apply Hmd in H. set_solver. }
  split; [by constructor |]. split; [by constructor |]. split; [| split].
  - intros j' Hj'. apply elem_of_cons in Hj'. destruct Hj' as [-> | Hj']; [done |].
    apply Hmd in Hj'. set_solver.
  - intros id' j' H. apply elem_of_cons in H. destruct H as [[= -> ->] | H].
    + exists c, cj. split; [by left |]. split; [done |]. split; [done |]. split.
      * intros j' cj' Hj' Hm' _. by apply (Hmin j' cj').
      * intros j' cj' Hlt Hj' Hm' _. by apply (Hstrict j' cj').
    + destruct (HA id' j' H) as (c' & cj' & Hin & Hj' & Hr' & Hmin' & Hstrict').
      exists c', cj'. split; [by right |]. split; [done |]. split; [done |]. split.
      * intros j2 cj2 Hj2 Hm2 Hn2. apply not_elem_of_cons in Hn2. destruct Hn2 as [Hne Hn2].
        apply (Hmin' j2 cj2); [done | set_solver | done].
      * intros j2 cj2 Hlt Hj2 Hm2 Hn2. apply not_elem_of_cons in Hn2.
        destruct Hn2 as [Hne Hn2].
        apply (Hstrict' j2 cj2); [done | done | set_solver | done].
  - intros id' c' Hin Hmo' HnA j' cj' Hj' Hr'.
    apply not_elem_of_cons in HnA. destruct HnA as [Hne HnA].
    apply elem_of_cons in Hin. destruct Hin as [[= -> ->] | Hin]; [done |].
    destruct (Hun id' c' Hin ltac:(set_solver) HnA j' cj' Hj' Hr') as [H | H].
    + apply elem_of_union in H. destruct H as [H | H]; [| by left].
      apply elem_of_singleton in H. subst. right. by left.
    + right. by right.
Qed.

Lemma get_of_elem {V} (d : PyDict.t V) k v :
  NoDup (PyDict.keys d) -> (k, v) ∈ d -> PyDict.get k d = Some v.
Proof.
  induction d as [|[k' v'] r IH]; intros Hnd Hin; [by apply elem_of_nil in Hin |].
  cbn in Hnd. apply NoDup_cons in Hnd. destruct Hnd as [Hk' Hnd].
  apply elem_of_cons in Hin. cbn [PyDict.get].
  destruct Hin as [[= -> ->] | Hin]; [by rewrite Nat.eqb_refl |].
  destruct (Nat.eqb_spec k k') as [-> | Hne]; [| by apply IH].
  destruct Hk'. apply list_elem_of_fmap. by exists (k', v).
Qed.

Lemma object_entries_elem t id c :
  tracker_wf t -> (id, c) ∈ object_entries t ->
  exists o, obj t id = Some o /\ c = _get_center (obj_bbox o).
Proof.
  intros Hwf Hin. unfold object_entries in Hin.
  apply list_elem_of_fmap in Hin. destruct Hin as ([k o] & [= -> ->] & Hin).
  exists o. split; [| done]. apply get_of_elem; [by apply wf_NoDup | done].
Qed.

Lemma object_entries_of_obj t id o :
  obj t id = Some o -> (id, _get_center (obj_bbox o)) ∈ object_entries t.
Proof.
  unfold obj, object_entries. intros Hget.
  apply list_elem_of_fmap. exists (id, o). split; [done |].
  induction (objects t) as [|[k v] r IH]; [done |]. cbn [PyDict.get] in Hget.
  destruct (Nat.eqb_spec id k) as [-> | Hne].
  - injection Hget as ->. by left.
  - right. by apply IH.
Qed.

Lemma centers_of_lookup dets j cj :
  centers_of dets !! j = Some cj <->
  exists det, dets !! j = Some det /\ cj = _get_center (det_bbox det).
Proof.
  unfold centers_of. change (map ?f ?l) with (f <$> l).
  rewrite list_lookup_fmap_Some. split; intros (det & H1 & H2); by exists det.
Qed.

Lemma dist_lt_true d maxd : dist_lt d maxd = true <-> 0 < maxd /\ d < maxd * maxd.
Proof. unfold dist_lt. by rewrite andb_true_iff, !Qltb_lt. Qed.

Lemma assignment_spec dets t :
  tracker_wf t ->
  let A := assignment dets t in
  let dist := fun (o : TrackedObject) (det : Detection) =>
                dist2 (_get_center (obj_bbox o)) (_get_center (det_bbox det)) in
  NoDup (map fst A) /\ NoDup (map snd A) /\
  (forall id j, (id, j) ∈ A ->
     exists o det, obj t id = Some o /\ dets !! j = Some det /\
       0 < max_distance t /\ dist o det < max_distance t * max_distance t /\
       (forall j' det', dets !! j' = Some det' -> j' ∉ map snd A ->
          dist o det <= dist o det') /\
       (forall j' det', (j' < j)%nat -> dets !! j' = Some det' -> j' ∉ map snd A ->
          dist o det < dist o det')) /\
  (forall id o, obj t id = Some o -> id ∉ map fst A ->
     forall j det, dets !! j = Some det -> 0 < max_distance t ->
       dist o det < max_distance t * max_distance t -> j ∈ map snd A).
Proof.
  intros Hwf. cbv zeta. unfold assignment.
  destruct dets as [|det0 dets0].
  { split; [constructor |]. split; [constructor |]. split.
    - intros ?? H. by apply elem_of_nil in H.
    - intros ?????. done. }
  set (dets := det0 :: dets0). clearbody dets.
  destruct (Nat.eqb_spec (PyDict.len (objects t)) 0) as [Hlen|Hlen].
  { split; [constructor |]. split; [constructor |]. split.
    - intros ?? H. by apply elem_of_nil in H.
    - intros id o Ho. unfold PyDict.len in Hlen. apply length_zero_iff_nil in Hlen.
      unfold obj in Ho. by rewrite Hlen in Ho. }
  fold (centers_of dets).
  destruct (greedy_assign_spec (max_distance t) (centers_of dets) (object_entries t) ∅ ∅)
    as (Hnd1 & Hnd2 & _ & HA & Hun).
  set (A := greedy_assign (max_distance t) (centers_of dets) (object_entries t) ∅ ∅) in *.
  split; [done |]. split; [done |]. split.
  - intros id j Hin. destruct (HA id j Hin) as (c & cj & Hc & Hj & Hr & Hmin & Hstrict).
    destruct (object_entries_elem t id c Hwf Hc) as (o & Ho & ->).
    apply centers_of_lookup in Hj. destruct Hj as (det & Hdet & ->).
    apply dist_lt_true in Hr. destruct Hr as [Hr0 Hr1].
    exists o, det. split; [done |]. split; [done |]. split; [done |]. split; [done |].
    split.
    + intros j' det' Hj' Hn. apply (Hmin j' (_get_center (det_bbox det'))); [| set_solver | done].
      apply centers_of_lookup. by exists det'.
    + intros j' det' Hlt Hj' Hn.
      apply (Hstrict j' (_get_center (det_bbox det'))); [done | | set_solver | done].
      apply centers_of_lookup. by exists det'.
  - intros id o Ho HnA j det Hj H0 Hd.
    destruct (Hun id (_get_center (obj_bbox o)) (object_entries_of_obj t id o Ho)
                ltac:(set_solver) HnA j (_get_center (det_bbox det))) as [H | H].
    + apply centers_of_lookup. by exists det.
    + by apply dist_lt_true.
    + set_solver.
    + done.
Qed.

(** X2.  The matching loop of [update] pairs every track with at most one
    detection and every detection with at most one track, and only pairs
    a track with a detection whose center is strictly closer than
    [max_distance] (which then is positive) to the center of the track's
    stored box. *)
Theorem assignment_one_to_one_within_range (dets : list Detection) (t : ONNXVehicleTracker) :
  tracker_wf t ->
  let A := assignment dets t in
  NoDup (map fst A) /\ NoDup (map snd A) /\
  forall id j, (id, j) ∈ A ->
    exists o det, obj t id = Some o /\ dets !! j = Some det /\
      0 < max_distance t /\
      dist2 (_get_center (obj_bbox o)) (_get_center (det_bbox det))
        < max_distance t * max_distance t.
Proof.
  intros Hwf. destruct (assignment_spec dets t Hwf) as (H1 & H2 & HA & _).
  cbv zeta. split; [done |]. split; [done |].
  intros id j Hin. destruct (HA id j Hin) as (o & det & Ho & Hd & H0 & Hlt & _).
  by exists o, det.
Qed.

Lemma assignment_one_to_one_within_range_witness :
  let A := assignment [sample_detection 1 1] single_tracker in
  NoDup (map fst A) /\ NoDup (map snd A) /\
  forall id j, (id, j) ∈ A ->
    exists o det, obj single_tracker id = Some o /\
      [sample_detection 1 1] !! j = Some det /\
      0 < max_distance single_tracker /\
      dist2 (_get_center (obj_bbox o)) (_get_center (det_bbox det))
        < max_distance single_tracker * max_distance single_tracker.
Proof. apply (assignment_one_to_one_within_range _ _ single_tracker_wf). Defined.

(** X3.  A matched track got the nearest detection that was still free:
    no detection left unmatched by the whole loop is closer to the track
    than the one it was given, and one with a smaller index is strictly
    farther (ties go to the lowest index). *)
Theorem assignment_takes_nearest_free_detection
    (dets : list Detection) (t : ONNXVehicleTracker) (id j : nat)
    (o : TrackedObject) (det : Detection) :
  tracker_wf t ->
  (id, j) ∈ assignment dets t -> obj t id = Some o -> dets !! j = Some det ->
  forall j' det', dets !! j' = Some det' -> j' ∉ map snd (assignment dets t) ->
    let dist := fun d => dist2 (_get_center (obj_bbox o)) (_get_center (det_bbox d)) in
    dist det <= dist det' /\ ((j' < j)%nat -> dist det < dist det').
Proof.
  intros Hwf Hin Ho Hd j' det' Hj' Hn.
  destruct (assignment_spec dets t Hwf) as (_ & _ & HA & _).
  destruct (HA id j Hin) as (o2 & det2 & Ho2 & Hd2 & _ & _ & Hmin & Hstrict).
  assert (o2 = o) as -> by congruence. assert (det2 = det) as -> by congruence.
  cbv zeta. split; [by apply (Hmin j') | intros Hlt; by apply (Hstrict j')].
Qed.

Lemma assignment_takes_nearest_free_detection_witness :
  let o := {| obj_bbox := mkBBox 0 0 10 10; obj_class := "vehicle";
              obj_confidence := 9 # 10; obj_history := [mkBBox 0 0 10 10] |} in
  let dist := fun d => dist2 (_get_center (obj_bbox o)) (_get_center (det_bbox d)) in
  dist (sample_detection 1 1) <= dist (sample_detection 50 50) /\
  ((0 < 1)%nat -> dist (sample_detection 1 1) < dist (sample_detection 50 50)).
Proof.
  apply (assignment_takes_nearest_free_detection
           [sample_detection 50 50; sample_detection 1 1] single_tracker 0 1 _
           (sample_detection 1 1) single_tracker_wf) with (j' := 0%nat).
  - vm_compute. left.
  - vm_compute. reflexivity.
  - reflexivity.
  - reflexivity.
  - vm_compute. intros H. apply list_elem_of_In in H. destruct H as [H | []]. discriminate.
Defined.

Lemma two_close_tracks_reachable : reachable two_close_tracks.
Proof.
  apply (reach_update tracker_default [sample_detection 0 0; sample_detection 20 20]).
  - apply reach_init.
  - vm_compute. reflexivity.
Qed.

(** X4.  A track is passed over by the matching loop only when nothing is
    left for it: every detection within [max_distance] of an unmatched
    track has been given to another track. *)
Theorem unmatched_track_has_no_free_detection_in_range
    (dets : list Detection) (t : ONNXVehicleTracker) (id : nat) (o : TrackedObject) :
  tracker_wf t ->
  obj t id = Some o -> is_matched dets t id = false ->
  forall j det, dets !! j = Some det -> 0 < max_distance t ->
    dist2 (_get_center (obj_bbox o)) (_get_center (det_bbox det))
      < max_distance t * max_distance t ->
    exists id', id' <> id /\ (id', j) ∈ assignment dets t.
Proof.
  intros Hwf Ho Hm j det Hj H0 Hd.
  destruct (assignment_spec dets t Hwf) as (_ & _ & _ & Hun).
  unfold is_matched in Hm. apply bool_decide_eq_false in Hm.
  pose proof (Hun id o Ho Hm j det Hj H0 Hd) as Hin.
  apply list_elem_of_fmap in Hin. destruct Hin as ([id' j'] & -> & Hin).
  exists id'. split; [| done]. intros ->. apply Hm.
  apply list_elem_of_fmap. by exists (id, j').
Qed.

Lemma unmatched_track_has_no_free_detection_in_range_witness :
  exists id', id' <> 1%nat /\ (id', 0%nat) ∈ assignment [sample_detection 5 5] two_close_tracks.
Proof.
  apply (unmatched_track_has_no_free_detection_in_range
           [sample_detection 5 5] two_close_tracks 1
           {| obj_bbox := mkBBox 20 20 30 30; obj_class := "vehicle";
              obj_confidence := 9 # 10; obj_history := [mkBBox 20 20 30 30] |}
           (reachable_wf _ two_close_tracks_reachable))
    with (det := sample_detection 5 5).
  - vm_compute. reflexivity.
  - vm_compute. reflexivity.
  - reflexivity.
  - vm_compute. reflexivity.
  - vm_compute. reflexivity.
Defined.

(** ** Trajectories end at the stored box *)

Lemma for_each_inv {A S} (f : A -> S -> option S) (I : S -> Prop) l s s' :
  (forall a x y, I x -> f a x = Some y -> I y) ->
  I s -> for_each f l s = Some s' -> I s'.
Proof.
  intros Hstep. revert s. induction l as [|a l IH]; intros s Hs; cbn [for_each].
  - by intros [= <-].
  - destruct (f a s) as [s1|] eqn:Hf; [| done]. apply IH. by eapply Hstep.
Qed.

Lemma deque_append_last {A} (m : nat) (l : list A) (x d : A) :
  (1 <= m)%nat ->
  deque_append m l x <> [] /\ List.last (deque_append m l x) d = x /\
  (length (deque_append m l x) <= m)%nat.
Proof.
  intros Hm. unfold deque_append. cbv zeta.
  assert (Hlen : length (l ++ [x]) = S (length l)) by (rewrite length_app; cbn; lia).
  rewrite Hlen.
  assert (Hd : (S (length l) - m <= length l)%nat) by lia.
  rewrite drop_app_le by done.
  split; [| split].
  - by destruct (drop _ l).
  - apply List.last_last.
  - rewrite length_app, length_drop. cbn. lia.
Qed.

Lemma mark_disappeared_track_inv id t t' :
  track_inv t -> mark_disappeared id t = Some t' -> track_inv t'.
Proof.
  intros [Hm Hinv]. unfold mark_disappeared.
  destruct (PyDict.get id (disappeared t)) as [d|]; [| done].
  intros [= <-]. destruct (max_disappeared _ <? d + 1)%Z.
  - split; [done |]. intros k o. unfold obj, traj. cbn.
    destruct (decide (k = id)) as [-> | Hne].
    + by rewrite get_del_eq.
    + rewrite !get_del_ne by done. apply Hinv.
  - split; [done |]. exact Hinv.
Qed.

Lemma disappear_loop_track_inv mo l t t' :
  track_inv t -> for_each (disappear_body mo) l t = Some t' -> track_inv t'.
Proof.
  apply for_each_inv. intros a x y Hx. unfold disappear_body.
  destruct (bool_decide _); [by intros [= <-] | by apply mark_disappeared_track_inv].
Qed.

Lemma match_object_track_inv dets centers e st st' :
  track_inv st.1.1 -> match_object dets centers e st = Some st' -> track_inv st'.1.1.
Proof.
  destruct st as [[t md] mo], e as [id c], st' as [[t' md'] mo']. cbn [fst].
  intros [Hm Hinv]. unfold match_object.
  destruct (bool_decide (id ∈ mo)); [by intros [= <- <- <-] |].
  destruct (find_best_match c (max_distance t) md centers) as [j|];
    [| by intros [= <- <- <-]].
  destruct (dets !! j) as [det|]; [| done].
  destruct (PyDict.get id (objects t)) as [o|]; [| done].
  intros [= <- <- <-]. split; [done |].
  intros k o'. unfold obj, traj, _update_trajectory. cbn.
  destruct (decide (k = id)) as [-> | Hne].
  - rewrite !get_set_eq. intros [= <-]. cbn [obj_bbox].
    eexists. split; [reflexivity |].
    destruct (deque_append_last (max_trajectory_length t)
                (match PyDict.get id (trajectory_points t) with
                 | Some dq => dq
                 | None => []
                 end)
                (_get_center (_smooth_bbox t (obj_bbox o) (det_bbox det))) (0, 0) Hm)
      as (H1 & H2 & H3).
    done.
  - rewrite !get_set_ne by done. apply Hinv.
Qed.

Lemma match_loop_track_inv dets centers entries st st' :
  track_inv st.1.1 ->
  for_each (match_object dets centers) entries st = Some st' -> track_inv st'.1.1.
Proof.
  apply (for_each_inv _ (fun st => track_inv st.1.1)).
  intros a x y. apply match_object_track_inv.
Qed.

Lemma register_track_inv det t : track_inv t -> track_inv (snd (_register det t)).
Proof.
  intros [Hm Hinv].
  pose proof (register_config det t) as Hc.
  apply config_fields in Hc as (_ & _ & _ & Hml & _).
  split; [by rewrite Hml |]. rewrite Hml.
  intros k o. rewrite register_traj.
  destruct (decide (k = next_id t)) as [-> | Hne].
  - destruct (register_new det t) as [-> _]. intros [= <-]. cbn [obj_bbox].
    eexists. split; [reflexivity |].
    destruct (deque_append_last (max_trajectory_length t) []
                (_get_center (det_bbox det)) (0, 0) Hm) as (H1 & H2 & H3).
    done.
  - destruct (register_kept det t k Hne) as [-> _]. apply Hinv.
Qed.

Lemma register_unmatched_track_inv md i dets t :
  track_inv t -> track_inv (snd (register_unmatched md i dets t)).
Proof.
  revert i t. induction dets as [|det dets IH]; intros i t Hinv; cbn [register_unmatched].
  - done.
  - destruct (bool_decide (i ∈ md)); [by apply IH |].
    pose proof (register_track_inv det t Hinv) as H1.
    destruct (_register det t) as [id t1]. cbn [snd] in H1.
    specialize (IH (S i) t1 H1).
    destruct (register_unmatched md (S i) dets t1) as [ids t2]. done.
Qed.

Lemma update_track_inv dets t t' :
  track_inv t -> update dets t = Some t' -> track_inv t'.
Proof.
  intros Hinv Hup. apply update_Some in Hup as [ids Hup].
  unfold update_registering, update_with in Hup.
  destruct dets as [|det0 dets0].
  - destruct (for_each mark_disappeared _ t) as [t1|] eqn:Hloop; [| done].
    cbn [mbind option_bind] in Hup. assert (t1 = t') as -> by congruence.
    revert Hloop. apply for_each_inv; [| done].
    intros a x y Hx. by apply mark_disappeared_track_inv.
  - set (dets := det0 :: dets0) in *.
    destruct (Nat.eqb (PyDict.len (objects t)) 0).
    + pose proof (register_unmatched_track_inv ∅ 0 dets t Hinv) as H.
      assert (Hr : register_unmatched ∅ 0 dets t = (ids, t')) by congruence.
      by rewrite Hr in H.
    + unfold match_phase in Hup.
      destruct (for_each (match_object dets (map (fun d => _get_center (det_bbox d)) dets))
                  (object_entries t) (t, ∅, ∅)) as [[[t1 md] mo]|] eqn:Hm; [| done].
      cbn [mbind option_bind] in Hup.
      apply match_loop_track_inv in Hm; [| done]. cbn [fst] in Hm.
      pose proof (register_unmatched_track_inv md 0 dets t1 Hm) as H2.
      destruct (register_unmatched md 0 dets t1) as [ids2 t2]. cbn [snd] in H2.
      unfold handle_disappeared in Hup.
      destruct (for_each _ (PyDict.keys (objects t2)) t2) as [t3|] eqn:Hloop3; [| done].
      cbn [mbind option_bind] in Hup. assert (t3 = t') as -> by congruence.
      revert Hloop3. apply (disappear_loop_track_inv mo); done.
Qed.

Lemma reachable_track_inv t : reachable t -> track_inv t /\ max_trajectory_length t = 20%nat.
Proof.
  induction 1 as [md mdist|t dets t' Hr IH Hup|t id Hr IH|t id line_y Hr IH|t Hr IH].
  - split; [| done]. split; [cbn; lia |]. intros k o H. discriminate.
  - destruct IH as [IH Hlen]. split; [by apply (update_track_inv dets t) |].
    pose proof (update_config_any dets t t' Hup) as Hc.
    apply config_fields in Hc as (_ & _ & _ & Hm & _). congruence.
  - destruct IH as [[Hm IH] Hlen].
    destruct (check_zone_counting_frame id t) as (_ & Ho & _ & Ht & _).
    destruct (check_zone_counting_params id t) as [Hml _].
    split; [| congruence]. split; [by rewrite Hml |].
    intros k o. unfold obj, traj. rewrite Ho, Ht, Hml. apply IH.
  - destruct IH as [[Hm IH] Hlen].
    destruct (check_line_crossing_frame id line_y t) as (_ & Ho & _ & Ht & _).
    assert (Hml : max_trajectory_length (snd (check_line_crossing id line_y t))
                  = max_trajectory_length t).
    { unfold check_line_crossing. repeat case_match; done. }
    split; [| congruence]. split; [by rewrite Hml |].
    intros k o. unfold obj, traj. rewrite Ho, Ht, Hml. apply IH.
  - done.
Qed.

(** X7.  In every reachable state each track has a trajectory of 1 to 20
    points, and the last point is the center of the box stored for the
    track: [points[-1]], which the counting checks read as the current
    position, is the position of [objects[id]['bbox']]. *)
Theorem trajectory_ends_at_box_center (t : ONNXVehicleTracker) (k : nat) (o : TrackedObject) :
  reachable t -> obj t k = Some o ->
  exists pts, traj t k = Some pts /\
    (1 <= length pts <= 20)%nat /\
    List.last pts (0, 0) = _get_center (obj_bbox o).
Proof.
  intros Hr Ho. destruct (reachable_track_inv t Hr) as [[_ Hinv] Hlen].
  destruct (Hinv k o Ho) as (pts & Hpts & Hne & Hl & Hlast).
  exists pts. split; [done |]. split; [| done].
  rewrite Hlen in Hl. destruct pts; [done | cbn [length]; cbn [length] in Hl; lia].
Qed.

Lemma trajectory_ends_at_box_center_witness :
  exists pts, traj sample_tracker 0 = Some pts /\
    (1 <= length pts <= 20)%nat /\
    List.last pts (0, 0) = _get_center (mkBBox 0 0 10 10).
Proof.
  apply (trajectory_ends_at_box_center sample_tracker 0
           {| obj_bbox := mkBBox 0 0 10 10; obj_class := "vehicle";
              obj_confidence := 9 # 10; obj_history := [mkBBox 0 0 10 10] |}
           sample_tracker_reachable).
  vm_compute. reflexivity.
Defined.

(** ** Every detection is matched or registered *)

Lemma register_unmatched_count md i dets t :
  length (fst (register_unmatched md i dets t)) =
  length (filter (fun j => j ∉ md) (seq i (length dets))).
Proof.
  revert i t. induction dets as [|det dets IH]; intros i t; cbn [register_unmatched].
  - done.
  - cbn [length seq]. rewrite filter_cons.
    destruct (decide (i ∈ md)) as [Hin|Hin].
    + rewrite bool_decide_eq_true_2 by done. rewrite decide_False by (by intros ?).
      apply IH.
    + rewrite bool_decide_eq_false_2 by done. rewrite decide_True by done.
      destruct (_register det t) as [id t1]. specialize (IH (S i) t1).
      destruct (register_unmatched md (S i) dets t1) as [ids t2]. cbn [fst length] in *.
      by rewrite IH.
Qed.

Lemma filter_split_length {A} (P : A -> Prop) `{!forall x, Decision (P x)} (l : list A) :
  (length (filter P l) + length (filter (fun x => ~ P x) l) = length l)%nat.
Proof.
  induction l as [|x l IH]; [done |]. rewrite !filter_cons.
  destruct (decide (P x)).
  - rewrite decide_False by tauto. cbn [length]. lia.
  - rewrite decide_True by done. cbn [length]. lia.
Qed.

Lemma free_detections_count (md : gset nat) (l : list nat) (n : nat) :
  NoDup l -> (forall j, j ∈ md <-> j ∈ l) -> (forall j, j ∈ l -> (j < n)%nat) ->
  (length (filter (fun j => j ∉ md) (seq 0 n)) + length l = n)%nat.
Proof.
  intros Hnd Hmd Hlt.
  pose proof (filter_split_length (fun j => j ∈ md) (seq 0 n)) as Hs.
  rewrite length_seq in Hs.
  assert (Hp : filter (fun j => j ∈ md) (seq 0 n) ≡ₚ l).
  { apply NoDup_Permutation; [apply NoDup_filter, NoDup_ListNoDup, seq_NoDup | done |].
    intros j. rewrite list_elem_of_filter, Hmd. split; [by intros [? _] |].
    intros Hj. split; [done |]. apply list_elem_of_In, in_seq. specialize (Hlt j Hj). lia. }
  rewrite <- (Permutation_length Hp). lia.
Qed.

Lemma update_matching_phases dets t :
  tracker_wf t -> dets <> [] -> PyDict.len (objects t) <> 0%nat ->
  exists (t1 : ONNXVehicleTracker) (md mo : gset nat) (t3 : ONNXVehicleTracker),
    (forall j, j ∈ md <-> j ∈ map snd (assignment dets t)) /\
    (forall k, k ∈ mo -> k ∈ PyDict.keys (objects t)) /\
    tracker_wf t1 /\ config t1 = config t /\ next_id t1 = next_id t /\
    update_registering dets t = Some (fst (register_unmatched md 0 dets t1), t3) /\
    let t2 := snd (register_unmatched md 0 dets t1) in
    tracker_wf t2 /\ config t2 = config t /\
    (forall k, k ∈ fst (register_unmatched md 0 dets t1) -> bumped t2 t3 k).
Proof.
  intros Hwf Hne Hlen. unfold update_registering, update_with, assignment.
  destruct dets as [|det0 dets0]; [done |]. set (dets := det0 :: dets0) in *.
  destruct (Nat.eqb_spec (PyDict.len (objects t)) 0) as [|_]; [done |].
  unfold match_phase. fold (centers_of dets).
  destruct (match_loop_spec dets (object_entries t) t ∅ ∅ Hwf)
    as (t1 & md & mo & Hrun & Hwf1 & Hc1 & Hn1 & Hk1 & Hmo & Hmd & HA & Hkept1).
  { rewrite object_entries_fst. by apply wf_NoDup. }
  { intros x. by rewrite object_entries_fst. }
  rewrite Hrun. cbn [mbind option_bind].
  pose proof (register_unmatched_spec md 0 dets t1 Hwf1) as Hreg.
  destruct (register_unmatched md 0 dets t1) as [ids t2] eqn:Er.
  cbn [fst snd] in Hreg. destruct Hreg as (Hwf2 & Hc2 & Hids & Hn2 & Hk2 & Hkept2 & Hnew).
  unfold handle_disappeared.
  destruct (disappear_loop_spec mo (PyDict.keys (objects t2)) t2 Hwf2)
    as (t3 & Hrun3 & Hwf3 & Hc3 & Hn3 & Hb3 & Hkept3 & Hs3); [by apply wf_NoDup | done |].
  unfold disappear_body in Hrun3. rewrite Hrun3. cbn [mbind option_bind].
  exists t1, md, mo, t3. rewrite Er. cbn [fst snd].
  split; [intros j; rewrite Hmd; set_solver |].
  split.
  { intros k Hk. apply Hmo in Hk. destruct Hk as [Hk | Hk]; [set_solver |].
    apply greedy_assign_fst in Hk. destruct Hk as [Hk _].
    by rewrite object_entries_fst in Hk. }
  split; [done |]. split; [done |]. split; [done |]. split; [done |].
  split; [done |]. split; [congruence |].
  intros k Hk. apply Hb3.
  - rewrite Hk2. apply elem_of_app. by right.
  - intros Hin. apply Hmo in Hin. destruct Hin as [Hin | Hin]; [set_solver |].
    apply greedy_assign_fst in Hin. destruct Hin as [Hin _].
    rewrite object_entries_fst in Hin.
    pose proof (wf_lt t k Hwf Hin) as Hlt.
    rewrite Hids in Hk. apply list_elem_of_In, in_seq in Hk. lia.
Qed.

(** X5.  No detection is lost by [update]: on a well-formed tracker the
    call returns, and the number of tracks it registers plus the number
    of tracks it matches is the number of detections; the new ids are
    [next_id], [next_id + 1], ... *)
Theorem every_detection_is_matched_or_registered
    (dets : list Detection) (t : ONNXVehicleTracker) :
  tracker_wf t ->
  exists ids t',
    update_registering dets t = Some (ids, t') /\
    (length ids + length (assignment dets t) = length dets)%nat /\
    ids = seq (next_id t) (length dets - length (assignment dets t)).
Proof.
  intros Hwf.
  assert (Hgoal : exists ids t',
            update_registering dets t = Some (ids, t') /\
            (length ids + length (assignment dets t) = length dets)%nat /\
            ids = seq (next_id t) (length ids)).
  2:{ destruct Hgoal as (ids & t' & Hrun & Hlen & Hids). exists ids, t'.
      split; [done |]. split; [done |].
      replace (length dets - length (assignment dets t))%nat with (length ids) by lia.
      done. }
  destruct dets as [|det0 dets0].
  { destruct (update_spec [] t Hwf) as (ids & t' & Hrun & _ & _ & Hids & _).
    exists ids, t'. split; [done |].
    unfold update_registering, update_with in Hrun.
    destruct (for_each _ _ t); [| done]. cbn in Hrun. injection Hrun as <- <-. done. }
  set (dets := det0 :: dets0) in *.
  destruct (Nat.eqb_spec (PyDict.len (objects t)) 0) as [Hlen|Hlen].
  { unfold update_registering, update_with, assignment. subst dets.
    rewrite (proj2 (Nat.eqb_eq _ _) Hlen).
    set (dets := det0 :: dets0).
    pose proof (register_unmatched_count ∅ 0 dets t) as Hcount.
    pose proof (register_unmatched_spec ∅ 0 dets t Hwf) as (_ & _ & Hids & _).
    destruct (register_unmatched ∅ 0 dets t) as [ids t'] eqn:Er. cbn [fst snd] in *.
    exists ids, t'. split; [done |]. split; [| done].
    rewrite Hcount. cbn [length]. rewrite Nat.add_0_r.
    rewrite filter_all; [by rewrite length_seq |].
    apply Forall_forall. intros j _. set_solver. }
  destruct (update_matching_phases dets t Hwf ltac:(done) Hlen)
    as (t1 & md & mo & t3 & Hmd & _ & Hwf1 & _ & Hn1 & Hrun & _).
  eexists _, _. split; [exact Hrun |].
  pose proof (register_unmatched_spec md 0 dets t1 Hwf1) as (_ & _ & Hids & _).
  split; [| by rewrite <- Hn1].
  rewrite register_unmatched_count.
  destruct (assignment_spec dets t Hwf) as (_ & Hnd & HA & _).
  rewrite <- (length_map snd (assignment dets t)).
  apply free_detections_count; [done | done |].
  intros j Hj. apply list_elem_of_fmap in Hj. destruct Hj as ([id j'] & -> & Hin).
  destruct (HA id j' Hin) as (o & det & _ & Hd & _). cbn.
  by apply lookup_lt_Some in Hd.
Qed.

Lemma every_detection_is_matched_or_registered_witness :
  exists ids t',
    update_registering [sample_detection 1 1; sample_detection 300 300] single_tracker
      = Some (ids, t') /\
    (length ids
     + length (assignment [sample_detection 1 1; sample_detection 300 300] single_tracker)
     = 2)%nat /\
    ids = seq (next_id single_tracker)
            (2 - length (assignment [sample_detection 1 1; sample_detection 300 300]
                           single_tracker)).
Proof.
  apply (every_detection_is_matched_or_registered
           [sample_detection 1 1; sample_detection 300 300] single_tracker single_tracker_wf).
Defined.

(** X6.  The disappearance counter of a track at the end of the call that
    registers it.  On an empty track table the new track leaves [update]
    with counter 0.  When other tracks exist, the loop over
    [self.objects.keys()] that follows the registration visits the new
    track too, and it is not in [matched_objects]: it leaves the call
    with counter 1, or is removed at once when [max_disappeared < 1]. *)
Theorem new_track_counter_after_update
    (dets : list Detection) (t t' : ONNXVehicleTracker) (ids : list nat) (k : nat) :
  tracker_wf t ->
  update_registering dets t = Some (ids, t') -> k ∈ ids ->
  if Nat.eqb (PyDict.len (objects t)) 0
  then is_Some (obj t' k) /\ ctr t' k = Some 0%Z
  else if (max_disappeared t <? 1)%Z
       then obj t' k = None
       else is_Some (obj t' k) /\ ctr t' k = Some 1%Z.
Proof.
  intros Hwf Hrun Hk.
  destruct dets as [|det0 dets0].
  { unfold update_registering, update_with in Hrun.
    destruct (for_each _ _ t); [| done]. cbn in Hrun. injection Hrun as <- <-.
    by apply elem_of_nil in Hk. }
  set (dets := det0 :: dets0) in *.
  destruct (Nat.eqb_spec (PyDict.len (objects t)) 0) as [Hlen|Hlen].
  { unfold update_registering, update_with in Hrun.
    assert (Hr : register_unmatched ∅ 0 dets t = (ids, t')).
    { subst dets. rewrite (proj2 (Nat.eqb_eq _ _) Hlen) in Hrun. congruence. }
    pose proof (register_unmatched_spec ∅ 0 dets t Hwf) as (_ & _ & _ & _ & _ & _ & Hnew).
    rewrite Hr in Hnew. cbn [fst snd] in Hnew. by apply Hnew. }
  destruct (update_matching_phases dets t Hwf ltac:(done) Hlen)
    as (t1 & md & mo & t3 & _ & _ & Hwf1 & _ & _ & Hrun' & _ & Hc2 & Hb).
  rewrite Hrun in Hrun'. injection Hrun' as -> ->.
  pose proof (register_unmatched_spec md 0 dets t1 Hwf1) as (_ & _ & _ & _ & _ & _ & Hnew).
  destruct (Hnew k Hk) as [Hsome Hctr].
  destruct (Hb k Hk) as (d & Hd & Hcase).
  assert (d = 0%Z) as -> by congruence.
  apply config_fields in Hc2 as (Hmax & _). rewrite Hmax in Hcase.
  change (0 + 1)%Z with 1%Z in Hcase.
  destruct (max_disappeared t <? 1)%Z; [done |].
  destruct Hcase as [Ho Hc]. by rewrite Ho.
Qed.

Lemma new_track_counter_after_update_witness :
  is_Some (obj sample_tracker 1) /\ ctr sample_tracker 1 = Some 1%Z.
Proof.
  apply (new_track_counter_after_update
           [sample_detection 1 1; sample_detection 300 300] single_tracker sample_tracker
           [1%nat] 1 single_tracker_wf).
  - vm_compute. reflexivity.
  - by left.
Defined.

(** ** [update] on reachable states *)

(** X1.  In every state the tracker can reach, [update] returns for any
    list of detections: no lookup or deletion inside it raises.  After
    the call the three per-track dictionaries still have the same keys,
    every key occurs once and is below [next_id], and [next_id] has not
    gone down. *)
Theorem update_never_raises (dets : list Detection) (t : ONNXVehicleTracker) :
  reachable t ->
  exists t',
    update dets t = Some t' /\
    PyDict.keys (disappeared t') = PyDict.keys (objects t') /\
    PyDict.keys (trajectory_points t') = PyDict.keys (objects t') /\
    NoDup (PyDict.keys (objects t')) /\
    (forall k, k ∈ PyDict.keys (objects t') -> (k < next_id t')%nat) /\
    (next_id t <= next_id t')%nat.
Proof.
  intros Hr. pose proof (reachable_wf t Hr) as Hwf.
  destruct (update_spec dets t Hwf) as (ids & t' & Hrun & Hwf' & _ & _ & Hn & _).
  exists t'. split; [by eapply update_of_registering |].
  split; [exact (wf_disappeared t' Hwf') |].
  split; [exact (wf_trajectory t' Hwf') |].
  split; [by apply wf_NoDup |].
  split; [intros k Hk; by apply wf_lt | lia].
Qed.

Lemma update_never_raises_witness :
  exists t', update [sample_detection 1 1] sample_tracker = Some t' /\
    PyDict.keys (disappeared t') = PyDict.keys (objects t') /\
    PyDict.keys (trajectory_points t') = PyDict.keys (objects t') /\
    NoDup (PyDict.keys (objects t')) /\
    (forall k, k ∈ PyDict.keys (objects t') -> (k < next_id t')%nat) /\
    (next_id sample_tracker <= next_id t')%nat.
Proof. apply (update_never_raises _ _ sample_tracker_reachable). Defined.

(** ** Direction of travel and the vehicle count *)

Lemma fold_left_Qplus_acc (l : list Q) (a : Q) : fold_left Qplus l a == a + Qsum l.
Proof.
  unfold Qsum. revert a. induction l as [|x l IH]; intros a; cbn [fold_left].
  - ring.
  - rewrite IH. rewrite (IH (0 + x)). ring.
Qed.

Lemma Qsum_cons (x : Q) (l : list Q) : Qsum (x :: l) == x + Qsum l.
Proof.
  unfold Qsum at 1. cbn [fold_left]. rewrite fold_left_Qplus_acc. ring.
Qed.

Lemma y_diffs_telescope (p : Point) (l : list Point) :
  Qsum (y_diffs (p :: l)) == snd (List.last (p :: l) (0, 0)) - snd p /\
  length (y_diffs (p :: l)) = length l.
Proof.
  revert p. induction l as [|q l IH]; intros p.
  - cbn. split; [unfold Qsum; cbn; ring | done].
  - destruct (IH q) as [Hs Hl].
    change (y_diffs (p :: q :: l)) with ((snd q - snd p) :: y_diffs (q :: l)).
    rewrite Qsum_cons, Hs. cbn [length]. rewrite Hl.
    change (List.last (p :: q :: l) (0, 0)) with (List.last (q :: l) (0, 0)).
    split; [ring | done].
Qed.

Lemma last_app_cons {A} (l1 : list A) (x : A) (l2 : list A) (d : A) :
  List.last (l1 ++ x :: l2) d = List.last (x :: l2) d.
Proof.
  induction l1 as [|y l1 IH]; [done |].
  change ((y :: l1) ++ x :: l2) with (y :: (l1 ++ x :: l2)).
  destruct (l1 ++ x :: l2) eqn:E; [by destruct l1 | by rewrite <- IH].
Qed.

(** X8.  The average of the consecutive y differences telescopes: with at
    least [n >= 2] points, [is_moving_towards_camera] answers [True]
    exactly when the last point lies more than [(n - 1) / 2] pixels below
    the point [n - 1] steps before it; what happens in between does not
    matter. *)
Theorem moving_towards_camera_is_net_descent
    (t : ONNXVehicleTracker) (id n : nat) (pts : list Point) :
  traj t id = Some pts -> (2 <= n)%nat -> (n <= length pts)%nat ->
  (is_moving_towards_camera id n t = true <->
   inject_Z (Z.of_nat (n - 1)) * (1 # 2)
     < snd (List.last pts (0, 0)) - snd (nth (length pts - n) pts (0, 0))).
Proof.
  intros Htraj Hn Hlen. unfold is_moving_towards_camera. unfold traj in Htraj.
  rewrite Htraj. destruct (Nat.ltb_spec (length pts) n) as [|_]; [lia |].
  unfold py_suffix. destruct (Nat.eqb_spec n 0) as [|_]; [lia |].
  assert (Hdrop : exists p r, drop (length pts - n) pts = p :: r /\
            length r = (n - 1)%nat /\ p = nth (length pts - n) pts (0, 0) /\
            List.last (p :: r) (0, 0) = List.last pts (0, 0)).
  { pose proof (length_drop pts (length pts - n)) as Hl.
    destruct (drop (length pts - n) pts) as [|p r] eqn:E; [cbn in Hl; lia |].
    exists p, r. split; [done |]. split; [cbn in Hl; lia |]. split.
    - pose proof (nth_skipn (length pts - n) pts 0 (0, 0)) as H0.
      rewrite E, Nat.add_0_r in H0. done.
    - pose proof (take_drop (length pts - n) pts) as Htd. rewrite E in Htd.
      rewrite <- Htd at 1. by rewrite last_app_cons. }
  destruct Hdrop as (p & r & -> & Hr & Hp & Hlast).
  destruct (y_diffs_telescope p r) as [Hsum Hl].
  destruct (y_diffs (p :: r)) as [|y ys] eqn:Ey.
  { cbn in Hl. lia. }
  rewrite Qltb_lt. rewrite Hl, Hr, Hsum, Hlast, <- Hp.
  assert (Hpos : 0 < inject_Z (Z.of_nat (n - 1))).
  { unfold Qlt, inject_Z. cbn. lia. }
  split; intros H.
  - apply (Qmult_lt_compat_r _ _ _ Hpos) in H.
    assert (Heq : (snd (List.last pts (0, 0)) - snd p) / inject_Z (Z.of_nat (n - 1))
                  * inject_Z (Z.of_nat (n - 1))
                  == snd (List.last pts (0, 0)) - snd p) by (field; lra).
    lra.
  - apply Qlt_shift_div_l; [done |]. lra.
Qed.

Lemma moving_towards_camera_is_net_descent_witness :
  is_moving_towards_camera 0 5 entered_at_300_now_349 = true <->
  inject_Z (Z.of_nat (5 - 1)) * (1 # 2) < (698 # 2) - (600 # 2).
Proof.
  apply (moving_towards_camera_is_net_descent entered_at_300_now_349 0 5
           [(210 # 2, 600 # 2); (210 # 2, 600 # 2); (210 # 2, 600 # 2);
            (210 # 2, 600 # 2); (210 # 2, 698 # 2)]).
  - vm_compute. reflexivity.
  - lia.
  - cbn [length]. lia.
Defined.

(** X10.  [vehicle_count] is the number of ids in the counted set: if
    the two agree before a run of [process_frame] (as they do after
    [__init__]) they agree after it, and the count has grown by the
    number of count messages. *)
Theorem vehicle_count_is_size_of_counted_set
    (h : Z) (frames : list (list Detection)) (d d' : ONNXTrafficDetector)
    (log : list CountEvent) :
  process_frames h frames d = Some (d', log) ->
  vehicle_count d = Z.of_nat (size (counted_set d)) ->
  vehicle_count d' = Z.of_nat (size (counted_set d')) /\
  (vehicle_count d' - vehicle_count d)%Z = Z.of_nat (length log).
Proof.
  intros Hrun Hinit. apply process_frames_ok in Hrun.
  destruct Hrun as [_ (new & Hlog & Hv & Hnd & Hnew & Hset)]. cbn [fst snd] in *.
  cbn [app] in Hlog. subst new.
  assert (Heq : counted_set d' ≡ counted_set d ∪ list_to_set (map fst log)).
  { intros id. rewrite Hset. set_solver. }
  assert (Hdisj : counted_set d ## list_to_set (map fst log)).
  { intros id H1 H2. apply elem_of_list_to_set in H2. by apply (Hnew id). }
  split; [| unfold CountEvent in *; lia].
  rewrite Heq, size_union by done. rewrite size_list_to_set by done.
  rewrite length_map. unfold CountEvent in *. lia.
Qed.

Lemma vehicle_count_is_size_of_counted_set_witness :
  vehicle_count counted_detector = Z.of_nat (size (counted_set counted_detector)) /\
  (vehicle_count counted_detector - vehicle_count (detector_init true))%Z = 1%Z.
Proof.
  apply (vehicle_count_is_size_of_counted_set 480 (driving_frames 0 20 8)
           (detector_init true) counted_detector [(0%nat, 1%Z)]).
  - vm_compute. reflexivity.
  - vm_compute. reflexivity.
Defined.




(** ** Stability bookkeeping *)

Lemma fold_deque_append_length {A B} (m : nat) (f : B -> A) (samples : list B) (l : list A) :
  (length l <= m)%nat ->
  (length (fold_left (fun h s => deque_append m h (f s)) samples l) <= m)%nat.
Proof.
  revert l. induction samples as [|s r IH]; intros l Hl; [done |].
  cbn [fold_left]. apply IH. rewrite deque_append_length. lia.
Qed.

(** X29.  The stability bookkeeping never divides by zero: the detection
    history has just been appended to when the rate is computed.  The
    histories stay within their [maxlen], [stable_frames_count] stays
    non-negative, and an unstable frame without detections resets it. *)
Theorem gate_update_never_raises
    (frame_has_detection : bool) (samples : list GateSample) (g : StabilityGate) :
  exists g',
    gate_update frame_has_detection samples g = Some g' /\
    (1 <= length (ambulance_detection_history g') <= 20)%nat /\
    ((length (ambulance_confidence_history g) <= 20)%nat ->
     (length (ambulance_confidence_history g') <= 20)%nat) /\
    ((length (ambulance_position_history g) <= 15)%nat ->
     (length (ambulance_position_history g') <= 15)%nat) /\
    ((0 <= stable_frames_count g)%Z -> (0 <= stable_frames_count g')%Z) /\
    (ambulance_stable g' = false -> frame_has_detection = false ->
     stable_frames_count g' = 0%Z).
Proof.
  unfold gate_update. cbv zeta.
  set (dh := deque_append 20 (ambulance_detection_history g) frame_has_detection).
  set (ch := fold_left _ samples (ambulance_confidence_history g)).
  set (ph := fold_left _ samples (ambulance_position_history g)).
  assert (Hdh : (1 <= length dh <= 20)%nat).
  { subst dh. rewrite deque_append_length. lia. }
  assert (Hsome : exists stable,
            _is_enhanced_stable_detection
              (mkGate dh ch ph (min_tracklet_frames g) (stability_ratio g)
                 (min_confidence_for_stability g) (ambulance_stable g)
                 (stable_frames_count g)) (map final_confidence samples) = Some stable).
  { unfold _is_enhanced_stable_detection.
    cbn [ambulance_detection_history min_tracklet_frames stability_ratio].
    destruct (Nat.ltb_spec (length dh) (min_tracklet_frames g)) as [|Hge]; [by eexists |].
    assert (Hlen : length (py_suffix (min_tracklet_frames g) dh) <> 0%nat).
    { unfold py_suffix. destruct (Nat.eqb_spec (min_tracklet_frames g) 0); [lia |].
      rewrite length_drop. lia. }
    destruct (Nat.eqb_spec (length (py_suffix (min_tracklet_frames g) dh)) 0); [done |].
    repeat case_match; by eexists. }
  destruct Hsome as [stable Hs]. rewrite Hs. cbn [mbind option_bind].
  eexists. split; [reflexivity |].
  cbn [ambulance_detection_history ambulance_confidence_history ambulance_position_history
       stable_frames_count ambulance_stable].
  split; [done |].
  split; [intros H; by apply fold_deque_append_length |].
  split; [intros H; by apply fold_deque_append_length |].
  split.
  - intros H. destruct stable; [lia |]. destruct frame_has_detection; lia.
  - intros -> ->. done.
Qed.

(** ** From the vehicle filter to the track table *)

Lemma mark_disappeared_objects_all (P : TrackedObject -> Prop) id t t' :
  objects_all P t -> mark_disappeared id t = Some t' -> objects_all P t'.
Proof.
  intros Hinv. unfold mark_disappeared.
  destruct (PyDict.get id (disappeared t)) as [d|]; [| done].
  intros [= <-]. destruct (max_disappeared _ <? d + 1)%Z; [| exact Hinv].
  intros k o. unfold obj. cbn.
  destruct (decide (k = id)) as [-> | Hne].
  - by rewrite get_del_eq.
  - rewrite get_del_ne by done. apply Hinv.
Qed.

Lemma match_object_objects_all (P : TrackedObject -> Prop) dets centers e st st' :
  (forall t o det, det ∈ dets -> P o -> P (updated t o det)) ->
  objects_all P st.1.1 -> match_object dets centers e st = Some st' ->
  objects_all P st'.1.1.
Proof.
  intros P_updated.
  destruct st as [[t md] mo], e as [id c], st' as [[t' md'] mo']. cbn [fst].
  intros Hinv. unfold match_object.
  destruct (bool_decide (id ∈ mo)); [by intros [= <- <- <-] |].
  destruct (find_best_match c (max_distance t) md centers) as [j|];
    [| by intros [= <- <- <-]].
  destruct (dets !! j) as [det|] eqn:Hj; [| done].
  destruct (PyDict.get id (objects t)) as [o|] eqn:Ho; [| done].
  intros [= <- <- <-]. intros k o'. unfold obj, _update_trajectory. cbn.
  destruct (decide (k = id)) as [-> | Hne].
  - rewrite get_set_eq. intros [= <-].
    apply (P_updated t o det); [by eapply list_elem_of_lookup_2 | by apply (Hinv id)].
  - rewrite get_set_ne by done. apply Hinv.
Qed.

Lemma register_unmatched_objects_all (P : TrackedObject -> Prop) md i
    (l : list Detection) t :
  (forall det, det ∈ l -> P (fresh_object det)) ->
  objects_all P t -> objects_all P (snd (register_unmatched md i l t)).
Proof.
  revert i t. induction l as [|det l IH]; intros i t Hsub Hinv; cbn [register_unmatched].
  - done.
  - assert (Hsub' : forall d, d ∈ l -> P (fresh_object d))
      by (intros d Hd; apply Hsub; by right).
    destruct (bool_decide (i ∈ md)); [by apply IH |].
    assert (H1 : objects_all P (snd (_register det t))).
    { intros k o. destruct (decide (k = next_id t)) as [-> | Hne].
      - destruct (register_new det t) as [-> _]. intros [= <-].
        apply Hsub. by left.
      - destruct (register_kept det t k Hne) as [-> _]. apply Hinv. }
    destruct (_register det t) as [id t1]. cbn [snd] in H1.
    specialize (IH (S i) t1 Hsub' H1).
    destruct (register_unmatched md (S i) l t1) as [ids t2]. done.
Qed.

Lemma update_objects_all (P : TrackedObject -> Prop) dets t t' :
  (forall t o det, det ∈ dets -> P o -> P (updated t o det)) ->
  (forall det, det ∈ dets -> P (fresh_object det)) ->
  objects_all P t -> update dets t = Some t' -> objects_all P t'.
Proof.
  intros P_updated P_fresh Hinv Hup. apply update_Some in Hup as [ids Hup].
  unfold update_registering, update_with in Hup.
  destruct dets as [|det0 dets0] eqn:Ed.
  - destruct (for_each mark_disappeared _ t) as [t1|] eqn:Hloop; [| done].
    cbn [mbind option_bind] in Hup. assert (t1 = t') as -> by congruence.
    revert Hloop. apply for_each_inv; [| done].
    intros a x y Hx. by apply mark_disappeared_objects_all.
  - rewrite <- Ed in *.
    destruct (Nat.eqb (PyDict.len (objects t)) 0).
    + pose proof (register_unmatched_objects_all P ∅ 0 dets t P_fresh Hinv) as H.
      assert (Hr : register_unmatched ∅ 0 dets t = (ids, t')) by congruence.
      by rewrite Hr in H.
    + unfold match_phase in Hup.
      destruct (for_each (match_object dets (map (fun d => _get_center (det_bbox d)) dets))
                  (object_entries t) (t, ∅, ∅)) as [[[t1 md] mo]|] eqn:Hm; [| done].
      cbn [mbind option_bind] in Hup.
      apply (for_each_inv _ (fun st => objects_all P st.1.1)) in Hm;
        [| intros a x y; by apply match_object_objects_all | done].
      cbn [fst] in Hm.
      pose proof (register_unmatched_objects_all P md 0 dets t1 P_fresh Hm) as H2.
      destruct (register_unmatched md 0 dets t1) as [ids2 t2]. cbn [snd] in H2.
      unfold handle_disappeared in Hup.
      destruct (for_each _ (PyDict.keys (objects t2)) t2) as [t3|] eqn:Hloop3; [| done].
      cbn [mbind option_bind] in Hup. assert (t3 = t') as -> by congruence.
      revert Hloop3. apply for_each_inv; [| done].
      intros a x y Hx. destruct (bool_decide _); [by intros [= <-] |].
      by apply mark_disappeared_objects_all.
Qed.

(** X30.  The vehicle filter and the tracker compose: if every track is a
    ['vehicle'] and [update] is given detections that came through
    [_filter_vehicle_detections], every track is a ['vehicle'] afterwards,
    whatever class names the decoder had produced. *)
Theorem filtered_detections_make_vehicle_tracks
    (lane : option (Point -> Q)) (raw : list RawDetection) (t t' : ONNXVehicleTracker) :
  (forall k o, obj t k = Some o -> obj_class o = "vehicle"%string) ->
  update (map to_tracker_detection (_filter_vehicle_detections lane raw)) t = Some t' ->
  forall k o, obj t' k = Some o -> obj_class o = "vehicle"%string.
Proof.
  intros Hinv Hup.
  assert (Hcls : forall det,
            det ∈ map to_tracker_detection (_filter_vehicle_detections lane raw) ->
            class_of det = "vehicle"%string).
  { intros det Hd. apply list_elem_of_fmap in Hd. destruct Hd as (d & -> & Hd).
    unfold _filter_vehicle_detections in Hd. apply list_elem_of_omap in Hd.
    destruct Hd as (d0 & _ & Hd). cbv zeta in Hd.
    repeat case_match; try done; injection Hd as <-; done. }
  apply (update_objects_all (fun o => obj_class o = "vehicle"%string)
           (map to_tracker_detection (_filter_vehicle_detections lane raw)) t t');
    [| | exact Hinv | exact Hup].
  - intros t0 o det Hd _. cbn. by apply Hcls.
  - intros det Hd. cbn. by apply Hcls.
Qed.

Lemma filtered_detections_make_vehicle_tracks_witness :
  obj_class (fresh_object (sample_detection 0 0)) = "vehicle"%string.
Proof.
  apply (filtered_detections_make_vehicle_tracks None
           [ {| raw_bbox := mkBBox 0 0 10 10; raw_confidence := 9 # 10;
                raw_class_id := 2; raw_class_name := "2" |};
             {| raw_bbox := mkBBox 50 50 60 60; raw_confidence := 9 # 10;
                raw_class_id := 0; raw_class_name := "0" |} ]
           tracker_default single_tracker) with (k := 0%nat).
  - intros k o H. discriminate.
  - vm_compute. reflexivity.
  - vm_compute. reflexivity.
Defined.
